(** * The test runner of [pkg/runner/test_runner.go]

    A shallow embedding of [TestRunner.Run], [TestRunner.waitSteps] and
    [TestRunner.handleTarget], and the properties of the specification
    that concern them.

    The runner is concurrent: one goroutine per target (the target
    handler), a runner and a reader per step, and the monitor loop of
    [Run].  The embedding keeps every statement of the three functions
    and replaces what the other goroutines and the packages outside
    this file do by explicit observations:
    - a handler sees, at step [i], the outcome of the early pause/cancel
      check, of [ss.Run], of [ss.InjectTarget] and of the final [select]
      (an [iteration] of its [script]);
    - [Run] sees the order in which handler results and step errors arrive
      at the monitor, the state of every step when the monitor loop ends,
      what [WaitResults] answers, and the state of the outer context at
      the two places where it is polled (a [world]).
    Theorems quantify over all scripts and worlds. *)

From Stdlib Require Import ZArith Lia Ascii Sorting.Sorted.
From stdpp Require Import base option list strings gmap fin_maps pretty.

Local Open Scope Z_scope.

(** ** Values *)

(** [json.RawMessage] and [[]byte]: a byte string.  The [nil] slice and the
    empty slice are both the empty string; the code only takes [len]. *)
Abbreviation RawMessage := string.

Definition nilRaw : RawMessage := "".

(** Go [error] values.  The two sentinels of [xcontext] are compared by
    identity in the code; [ErrTestStepsNeverReturned] is the struct of
    [cerrors]; every other error (those made by [fmt.Errorf], and those
    coming from steps and from other packages) is identified by its
    [Error()] text.  The [nil] error is [None] in [option error]. *)
Inductive error : Type :=
| ErrPaused
| ErrCanceled
| ErrTestStepsNeverReturned (StepNames : list string)
| ErrorString (text : string).

(** [err == xcontext.ErrPaused] *)
Definition isPaused (e : error) : bool :=
  match e with
  | ErrPaused => true
  | _ => false
  end.

(** The way a Go function can end: it returns, it panics (here always a
    run-time error: index out of range or nil dereference, which brings
    the process down), or it never returns because it waits on a channel
    nobody writes to or closes. *)
Inductive outcome (A : Type) : Type :=
| Returned (a : A)
| Panic (msg : string)
| Blocked.
Arguments Returned {A} a.
Arguments Panic {A} msg.
Arguments Blocked {A}.

Definition indexOutOfRange : string := "index out of range".
Definition nilDereference : string := "invalid memory address or nil pointer dereference".

(** [target.Target]: only the ID is used by the runner. *)
Record Target : Type := mkTarget { ID : string }.

(** ** Phases *)

(** [type targetStepPhase int] with its [iota] constants. *)
Abbreviation targetStepPhase := Z.

Definition targetStepPhaseInvalid : targetStepPhase := 0.
Definition targetStepPhaseInit : targetStepPhase := 1.
Definition targetStepPhaseBegin : targetStepPhase := 2.
Definition targetStepPhaseRun : targetStepPhase := 3.
Definition targetStepPhaseObsolete : targetStepPhase := 4.
Definition targetStepPhaseEnd : targetStepPhase := 5.

(** [func (tph targetStepPhase) String() string] *)
Definition targetStepPhase_String (tph : targetStepPhase) : string :=
  if decide (tph = targetStepPhaseInvalid) then "INVALID"
  else if decide (tph = targetStepPhaseInit) then "init"
  else if decide (tph = targetStepPhaseBegin) then "begin"
  else if decide (tph = targetStepPhaseRun) then "run"
  else if decide (tph = targetStepPhaseObsolete) then "result_pending_obsolete"
  else if decide (tph = targetStepPhaseEnd) then "end"
  else "???(" +:+ pretty tph +:+ ")".

(** ** Target state *)

Abbreviation stepVariables := (gmap string RawMessage).

(** [type targetState struct].  [tgt] is a pointer: [None] is [nil]. *)
Record targetState : Type := mkTargetState {
  tgt : option Target;
  CurStep : Z;
  CurPhase : targetStepPhase;
  Res : option error;
  StepsVariables : gmap string stepVariables
}.

Definition set_tgt (t : option Target) (s : targetState) : targetState :=
  mkTargetState t (CurStep s) (CurPhase s) (Res s) (StepsVariables s).
Definition set_CurPhase (p : targetStepPhase) (s : targetState) : targetState :=
  mkTargetState (tgt s) (CurStep s) p (Res s) (StepsVariables s).
Definition set_CurStep (i : Z) (s : targetState) : targetState :=
  mkTargetState (tgt s) i (CurPhase s) (Res s) (StepsVariables s).
Definition set_Res (r : option error) (s : targetState) : targetState :=
  mkTargetState (tgt s) (CurStep s) (CurPhase s) r (StepsVariables s).
Definition set_StepsVariables (v : gmap string stepVariables) (s : targetState)
  : targetState :=
  mkTargetState (tgt s) (CurStep s) (CurPhase s) (Res s) v.

(** The zero value [&targetState{CurPhase: targetStepPhaseInit}]. *)
Definition newTargetState : targetState :=
  mkTargetState None 0 targetStepPhaseInit None ∅.

(** The pair the specification orders: (CurStep, CurPhase). *)
Definition point : Type := Z * Z.

Definition pointOf (s : targetState) : point := (CurStep s, CurPhase s).

(** The total order of the specification: steps in pipeline order, and
    within a step init, begin, run, end, which is the order of the tags. *)
Definition point_lt (p q : point) : Prop :=
  p.1 < q.1 ∨ (p.1 = q.1 ∧ p.2 < q.2).

(** ** Step state *)

(** Modelled from the spec: [stepState] and its methods live in
    [step_state.go], which is not among the files at hand.  The fields
    are those of section 3 of the specification (index, label, left
    targets, started, err, init resume state) together with the targets
    handed over on resume and a flag for force-stop. *)
Record stepState : Type := mkStepState {
  ssIndex : Z;
  ssLabel : string;
  leftTargets : Z;
  started : bool;
  ssErr : option error;
  initResumeState : RawMessage;
  resumeStateTargets : list Target;
  forceStopped : bool
}.

(** Modelled from the spec: [SetError] is first-write-wins (section 4.2);
    a [nil] error is not an error to record. *)
Definition SetError (e : option error) (ss : stepState) : stepState :=
  match e, ssErr ss with
  | Some _, None =>
      mkStepState (ssIndex ss) (ssLabel ss) (leftTargets ss) (started ss) e
        (initResumeState ss) (resumeStateTargets ss) (forceStopped ss)
  | _, _ => ss
  end.

(** Modelled from the spec: force-stop cancels the step's context and
    closes its input channel (section 4.2); the model records that it
    happened. *)
Definition ForceStop (ss : stepState) : stepState :=
  mkStepState (ssIndex ss) (ssLabel ss) (leftTargets ss) (started ss) (ssErr ss)
    (initResumeState ss) (resumeStateTargets ss) true.

Definition GetError (ss : stepState) : option error := ssErr ss.
Definition Started (ss : stepState) : bool := started ss.
Definition GetInitResumeState (ss : stepState) : RawMessage := initResumeState ss.
Definition GetTestStepLabel (ss : stepState) : string := ssLabel ss.

(** [tr.steps[i]] for a Go [int] index: a run-time panic out of range. *)
Definition index {A} (l : list A) (i : Z) : option A :=
  if decide (0 ≤ i) then l !! Z.to_nat i else None.

Definition len {A} (l : list A) : Z := Z.of_nat (length l).

(** ** What lies outside the three functions *)

(** [test.TestStepBundle]: the runner itself reads none of its fields; the
    label is what [GetTestStepLabel] answers. *)
Record TestStepBundle : Type := mkBundle { TestStepLabel : string }.

(** [type resumeStateStruct struct].  The values of [Targets] are
    pointers ([None] is [nil], which JSON [null] decodes to); a [nil] map
    reads like the empty map, and [Run] replaces it before writing. *)
Record resumeStateStruct : Type := mkResumeState {
  Version : Z;
  Targets : gmap string (option targetState);
  StepResumeState : list RawMessage
}.

Definition resumeStateStructVersion : Z := 2.

(** Functions of other packages that [Run] and [handleTarget] call.  The
    errors of [encoding/json] and of the step-variables container are
    ordinary errors, never the sentinels of [xcontext]: they are given by
    their text, [None] being no error. *)
Record externals : Type := mkExternals {
  json_Unmarshal : RawMessage → string + resumeStateStruct;
  json_Marshal : resumeStateStruct → string + RawMessage;
  newTestStepsVariables : list TestStepBundle → option string;
  initTargetStepsVariables : string → gmap string stepVariables → option string;
  (* the text of [tgs.String()], which formats the target and the result
     with [target.Target.String] and [xjson.Error] *)
  targetState_String : targetState → string
}.

(** The early [select] of an iteration of the handler. *)
Inductive earlyCheck : Type :=
| EarlyPaused      (* <-ctx.Until(xcontext.ErrPaused) *)
| EarlyDone        (* <-ctx.Done() *)
| EarlyNone.       (* default *)

(** The [select] in which the handler awaits the result. *)
Inductive awaitEvent : Type :=
| GotResult (res : option error)       (* <-targetNotifier.NotifyCh() *)
| StepStopped (stepErr : option error) (* <-ss.NotifyStopped(), then ss.GetError() *)
| CtxDone (ctxErr : error)             (* <-ctx.Done(), then ctx.Err() *)
| NeverWakes.                          (* none of the three ever fires *)

(** What one handler observes at one step. *)
Record iteration : Type := mkIteration {
  early : earlyCheck;
  stepRunErr : option error;    (* ss.Run(ctx) *)
  injectErr : option error;     (* ss.InjectTarget(ctx, tgs.tgt) *)
  await : awaitEvent
}.

(** [WaitResults] answers a [StepResult] and an error. *)
Record stepResult : Type := mkStepResult {
  resErr : option error;
  resResumeState : RawMessage
}.

(** A message at the monitor: the result of the handler of a target, or
    an error a step reported through its [onError] callback. *)
Inductive arrival : Type :=
| FromTarget (id : string)
| FromStep (e : error).

(** What [Run] observes of the rest of the system. *)
Record world : Type := mkWorld {
  script : string → Z → iteration;
  arrivals : list arrival;
  (* the step at index i when the monitor loop has ended *)
  stepStarted : Z → bool;
  stepErr : Z → option error;
  (* ss.WaitResults(shutdownCtx) of the step at index i *)
  waitResults : Z → stepResult * option error;
  (* the outer context at the cancellation check and at the pause check *)
  ctxDone : bool;
  ctxPaused : bool;
  (* stepOutputs.getTargetStepsVariables(tgt.ID) after the run; the error
     by its text *)
  getTargetStepsVariables : string → gmap string stepVariables * option string
}.

(** ** handleTarget *)

(** The calls a handler makes on the steps, in order. *)
Inductive stepCall : Type :=
| CallRun (i : Z)
| CallInjectTarget (i : Z)
| CallDecreaseLeftTargets (i : Z).

(** What a handler leaves behind: the target state, the successive values
    of (CurStep, CurPhase) it wrote (one entry per critical section that
    assigns them), the calls on the steps before the deferred function,
    [lastDecremented], and how it ended. *)
Record handlerOut : Type := mkHandlerOut {
  out_tgs : targetState;
  out_trace : list point;
  out_calls : list stepCall;
  out_lastDecremented : Z;
  out_ret : outcome (option error)
}.

Definition finish (tgs : targetState) (lastDec : Z) (r : outcome (option error))
  : handlerOut :=
  mkHandlerOut tgs [] [] lastDec r.

Definition logged (pts : list point) (calls : list stepCall) (o : handlerOut)
  : handlerOut :=
  mkHandlerOut (out_tgs o) (pts ++ out_trace o) (calls ++ out_calls o)
    (out_lastDecremented o) (out_ret o).

(** The [switch tgs.CurPhase] at the head of an iteration. *)
Inductive switchResult : Type :=
| SwContinue (tgs : targetState) (written : list point)
| SwBreak
| SwInvalid.

Definition phaseSwitch (tgs : targetState) : switchResult :=
  if decide (CurPhase tgs = targetStepPhaseInit) then
    let tgs' := set_CurPhase targetStepPhaseBegin tgs in
    SwContinue tgs' [pointOf tgs']
  else if decide (CurPhase tgs = targetStepPhaseBegin) then SwContinue tgs []
  else if decide (CurPhase tgs = targetStepPhaseRun) then SwContinue tgs []
  else if decide (CurPhase tgs = targetStepPhaseEnd) then SwBreak
  else SwInvalid.

(** Lines 387-394: make sure the step runs, then inject the target. *)
Definition startAndInject (it : iteration) (i : Z) : option error * list stepCall :=
  match stepRunErr it with
  | Some e => (Some e, [CallRun i])
  | None => (injectErr it, [CallRun i; CallInjectTarget i])
  end.

(** Lines 397-402: [if tgs.CurPhase == targetStepPhaseBegin
    { tgs.CurPhase = targetStepPhaseRun }]. *)
Definition markInjected (tgs : targetState) : targetState * list point :=
  if decide (CurPhase tgs = targetStepPhaseBegin)
  then let t := set_CurPhase targetStepPhaseRun tgs in (t, [pointOf t])
  else (tgs, []).

(** Lines 411-427: the [select] that awaits the result; the state it
    leaves, what it wrote, and [err].  [None]: it never wakes. *)
Definition awaitResult (it : iteration) (tgs : targetState)
  : option (targetState * list point * option error) :=
  match await it with
  | GotResult res =>
      let t := set_CurPhase targetStepPhaseEnd
                 (match res with
                  | Some e => set_Res (Some e) tgs   (* xjson.NewError(res) *)
                  | None => tgs
                  end) in
      Some (t, [pointOf t], None)
  | StepStopped e => Some (tgs, [], e)
  | CtxDone e => Some (tgs, [], Some e)
  | NeverWakes => None
  end.

(** Lines 445-449: [i++; if i < len(tr.steps) { tgs.CurStep = i;
    tgs.CurPhase = targetStepPhaseInit }], one critical section. *)
Definition nextStep (n i : Z) (tgs : targetState) : targetState * list point :=
  if decide (i + 1 < n)
  then let t := set_CurPhase targetStepPhaseInit (set_CurStep (i + 1) tgs) in
       (t, [pointOf t])
  else (tgs, []).

Section Handler.
Variable X : externals.
Variable steps : list stepState.       (* tr.steps *)
Variable sc : Z → iteration.           (* what this handler observes *)

(** The [for] loop.  [rem] is the number of steps from [i] to the end
    of the pipeline, so that [i = len(tr.steps) - rem] and the loop test
    [i < len(tr.steps)] is [rem ≠ 0]; the recursive call is the next
    round, after [i++]. *)
Fixpoint handleLoop (rem : nat) (tgs : targetState) (lastDec : Z) : handlerOut :=
  match rem with
  | O => finish tgs lastDec (Returned None)
  | S rem' =>
    let i := len steps - Z.of_nat (S rem') in
    match early (sc i) with
    | EarlyPaused | EarlyDone => finish tgs lastDec (Returned None)
    | EarlyNone =>
      match index steps i with
      | None => finish tgs lastDec (Panic indexOutOfRange)
      | Some _ =>
        match phaseSwitch tgs with
        | SwBreak => finish tgs lastDec (Returned None)
        | SwInvalid =>
            finish tgs lastDec
              (Returned (Some (ErrorString
                 (targetState_String X tgs +:+ ": invalid phase "
                  +:+ targetStepPhase_String (CurPhase tgs)))))
        | SwContinue tgs1 pts1 =>
          let '(err, calls0) := startAndInject (sc i) i in
          (* tr.steps[i].DecreaseLeftTargets(); lastDecremented = i *)
          let calls := calls0 ++ [CallDecreaseLeftTargets i] in
          match err with
          | Some e => logged pts1 calls (finish tgs1 i (Returned (Some e)))
          | None =>
            let '(tgs2, pts2) := markInjected tgs1 in
            match awaitResult (sc i) tgs2 with
            | None => logged (pts1 ++ pts2) calls (finish tgs2 i Blocked)
            | Some (tgs3, pts3, Some e) =>
                logged (pts1 ++ pts2 ++ pts3) calls
                  (finish tgs3 i (Returned (Some e)))
            | Some (tgs3, pts3, None) =>
                match Res tgs3 with
                | Some _ =>
                    (* if tgs.Res != nil { break } *)
                    logged (pts1 ++ pts2 ++ pts3) calls
                      (finish tgs3 i (Returned None))
                | None =>
                    let '(tgs4, pts4) := nextStep (len steps) i tgs3 in
                    logged (pts1 ++ pts2 ++ pts3 ++ pts4) calls
                      (handleLoop rem' tgs4 i)
                end
            end
          end
        end
      end
    end
  end.

(** The deferred function: [DecreaseLeftTargets] on every step after
    [lastDecremented]. *)
Definition deferredCalls (lastDec : Z) : outcome (list stepCall) :=
  if decide (lastDec + 1 < len steps) then
    if decide (0 ≤ lastDec + 1) then
      Returned ((λ k, CallDecreaseLeftTargets (lastDec + 1 + Z.of_nat k))
                  <$> seq 0 (Z.to_nat (len steps - (lastDec + 1))))
    else Panic indexOutOfRange
  else Returned [].

(** [func (tr *TestRunner) handleTarget(ctx, tgs) error] *)
Definition handleTarget (tgs : targetState) : handlerOut :=
  match tgt tgs with
  | None =>
      (* ctx.WithField("target", tgs.tgt.ID) *)
      finish tgs (CurStep tgs - 1) (Panic nilDereference)
  | Some _ =>
      let o := handleLoop (Z.to_nat (len steps - CurStep tgs)) tgs (CurStep tgs - 1) in
      match out_ret o with
      | Blocked => o
      | r =>
          (* the deferred function runs on return and on panic *)
          match deferredCalls (out_lastDecremented o) with
          | Returned cs =>
              mkHandlerOut (out_tgs o) (out_trace o) (out_calls o ++ cs)
                (out_lastDecremented o) r
          | _ =>
              mkHandlerOut (out_tgs o) (out_trace o) (out_calls o)
                (out_lastDecremented o) (Panic indexOutOfRange)
          end
      end
  end.
End Handler.

(** ** Run *)

#[global] Instance outcome_ret : MRet outcome := @Returned.
#[global] Instance outcome_bind : MBind outcome := λ A B f m,
  match m with
  | Returned a => f a
  | Panic msg => Panic msg
  | Blocked => Blocked
  end.
#[global] Instance outcome_fmap : FMap outcome := λ A B f m,
  match m with
  | Returned a => Returned (f a)
  | Panic msg => Panic msg
  | Blocked => Blocked
  end.

(** [type TestRunner struct]: the pipeline.  [shutdownTimeout] only
    decides what [WaitResults] answers, which the [world] gives. *)
Record TestRunner : Type := mkTestRunner { steps : list stepState }.

(** [NewTestRunner] and [NewTestRunnerWithTimeouts]. *)
Definition NewTestRunner : TestRunner := mkTestRunner [].

(** The three results of [Run], and the pipeline [tr.steps] as [Run]
    leaves it.  [targetsResults] is [None] for the [nil] map; in the map a
    key bound to [None] is a target whose result is the [nil] error. *)
Record runReturn : Type := mkRunReturn {
  ret_resumeState : RawMessage;
  ret_targetsResults : option (gmap string (option error));
  ret_err : option error;
  ret_steps : list stepState
}.

(** [return nil, nil, err] *)
Definition fatal (tr : list stepState) (e : error) : runReturn :=
  mkRunReturn nilRaw None (Some e) tr.

(** Lines 108-119: parse the state to resume, if there is one. *)
Definition parseResume (X : externals) (resumeState : RawMessage)
  : error + resumeStateStruct :=
  if decide (resumeState = "") then inr (mkResumeState 0 ∅ [])
  else
    match json_Unmarshal X resumeState with
    | inl msg => inl (ErrorString ("invalid resume state: " +:+ msg))
    | inr rs =>
        if decide (Version rs = resumeStateStructVersion) then inr rs
        else inl (ErrorString ("incompatible resume state version "
                               +:+ pretty (Version rs) +:+ " (want "
                               +:+ pretty resumeStateStructVersion +:+ ")"))
    end.

(** Lines 128-137: one state per target of the list, restored or new. *)
Definition seedTarget (m : gmap string (option targetState)) (t : Target)
  : gmap string (option targetState) :=
  let tgs := match m !! ID t with
             | Some (Some s) => s
             | _ => newTargetState
             end in
  <[ID t := Some (set_tgt (Some t) tgs)]> m.

Definition seedTargets (targets : list Target) (m : gmap string (option targetState))
  : gmap string (option targetState) :=
  foldl seedTarget m targets.

(** Lines 145-150.  Go ranges over the map in no fixed order; the model
    takes the order of [map_to_list].  [targetState.StepsVariables]
    dereferences the pointer. *)
Fixpoint initAllStepsVariables (X : externals) (l : list (string * option targetState))
  : outcome (option error) :=
  match l with
  | [] => Returned None
  | (_, None) :: _ => Panic nilDereference
  | (id, Some s) :: l' =>
      match initTargetStepsVariables X id (StepsVariables s) with
      | Some msg => Returned (Some (ErrorString msg))
      | None => initAllStepsVariables X l'
      end
  end.

(** Lines 161-172 for one step: the targets to hand over on resume.
    [*tgt.tgt] dereferences the live-target pointer. *)
Fixpoint collectResumeTargets (i : Z) (l : list (string * targetState))
  : outcome (list Target) :=
  match l with
  | [] => Returned []
  | (_, s) :: l' =>
      if decide (CurStep s = i ∧ CurPhase s = targetStepPhaseRun) then
        match tgt s with
        | None => Panic nilDereference
        | Some t => (t ::.) <$> collectResumeTargets i l'
        end
      else collectResumeTargets i l'
  end.

Definition stepTargetsCount (i : Z) (l : list (string * targetState)) : Z :=
  len (filter (λ p, CurStep p.2 ≤ i) l).

(** Modelled from the spec: [newStepState] of [step_state.go] makes a
    step that is not started and holds no error. *)
Definition newStepState (i : Z) (count : Z) (sb : TestStepBundle) (srs : RawMessage)
    (resumeTargets : list Target) : stepState :=
  mkStepState i (TestStepLabel sb) count false None srs resumeTargets false.

(** Lines 154-178: the pipeline is appended to [tr.steps]. *)
Fixpoint buildPipeline (rs : resumeStateStruct) (states : list (string * targetState))
    (i : Z) (bundles : list TestStepBundle) (trsteps : list stepState)
  : outcome (list stepState) :=
  match bundles with
  | [] => Returned trsteps
  | sb :: bundles' =>
      let srs :=
        match index (StepResumeState rs) i with
        | Some r => if decide (r = "null") then nilRaw else r
        | None => nilRaw
        end in
      resumeTargets ← collectResumeTargets i states;
      buildPipeline rs states (i + 1) bundles'
        (trsteps ++ [newStepState i (stepTargetsCount i states) sb srs resumeTargets])
  end.

(** Lines 180-193: every state of the map gets a handler. *)
Definition spawnHandlers (X : externals) (w : world) (trsteps : list stepState)
    (states : gmap string targetState) : gmap string handlerOut :=
  map_imap (λ id tgs, Some (handleTarget X trsteps (script w id) tgs)) states.

(** The panic of a handler, if one panics (the first in the order of
    [map_to_list], when several do). *)
Fixpoint firstPanic (l : list (string * handlerOut)) : option string :=
  match l with
  | [] => None
  | (_, o) :: l' =>
      match out_ret o with
      | Panic m => Some m
      | _ => firstPanic l'
      end
  end.

Definition blocked (o : handlerOut) : bool :=
  match out_ret o with
  | Blocked => true
  | _ => false
  end.

(** What the monitor takes from a channel: the result of a handler that
    returned, or a step error. *)
Definition received (hs : gmap string handlerOut) (a : arrival) : option (option error) :=
  match a with
  | FromTarget id =>
      match out_ret <$> hs !! id with
      | Some (Returned e) => Some e
      | _ => None
      end
  | FromStep e => Some (Some e)
  end.

(** Lines 195-218: the monitor loop; the end of the list is the moment
    [targetErrors] is found closed. *)
Fixpoint monitor (msgs : list (option error)) (resultErr : option error)
    (trsteps : list stepState) : option error * list stepState :=
  match msgs with
  | [] => (resultErr, trsteps)
  | runErr :: msgs' =>
      match runErr, resultErr with
      | Some e, None =>
          if isPaused e then monitor msgs' resultErr trsteps
          else monitor msgs' (Some e) (ForceStop <$> trsteps)
      | _, _ => monitor msgs' resultErr trsteps
      end
  end.

(** The steps as the runners, readers and handlers left them. *)
Definition observeSteps (w : world) (trsteps : list stepState) : list stepState :=
  imap (λ k ss, mkStepState (ssIndex ss) (ssLabel ss) (leftTargets ss)
                  (stepStarted w (Z.of_nat k)) (stepErr w (Z.of_nat k))
                  (initResumeState ss) (resumeStateTargets ss) (forceStopped ss))
       trsteps.

(** ** waitSteps *)

Record waitState : Type := mkWaitState {
  stepsNeverReturned : list string;
  resumeStates : list RawMessage;
  wResultErr : option error;
  wSteps : list stepState      (* the steps gone through, as left *)
}.

(** One round of the loop of [waitSteps], on the step at index [k]. *)
Definition waitStep (w : world) (k : Z) (ss : stepState) (a : waitState) : waitState :=
  if negb (Started ss) then
    mkWaitState (stepsNeverReturned a) (resumeStates a ++ [GetInitResumeState ss])
      (wResultErr a) (wSteps a ++ [ss])
  else
    let '(result, err) := waitResults w k in
    match err with
    | Some _ =>
        mkWaitState (stepsNeverReturned a ++ [GetTestStepLabel ss])
          (resumeStates a ++ [resResumeState result])
          (wResultErr a)
          (wSteps a ++ [ForceStop (SetError
             (Some (ErrTestStepsNeverReturned [GetTestStepLabel ss])) ss)])
    | None =>
        mkWaitState (stepsNeverReturned a)
          (resumeStates a ++ [resResumeState result])
          (match wResultErr a, resErr result with
           | None, Some e => if isPaused e then None else Some e
           | r, _ => r
           end)
          (wSteps a ++ [ss])
    end.

Fixpoint waitLoop (w : world) (k : Z) (todo : list stepState) (a : waitState) : waitState :=
  match todo with
  | [] => a
  | ss :: todo' => waitLoop w (k + 1) todo' (waitStep w k ss a)
  end.

(** [func (tr *TestRunner) waitSteps(ctx) ([]json.RawMessage, error)],
    with the pipeline as it leaves it. *)
Definition waitSteps (w : world) (trsteps : list stepState)
  : list RawMessage * option error * list stepState :=
  let a := waitLoop w 0 trsteps (mkWaitState [] [] None []) in
  let resultErr :=
    match stepsNeverReturned a, wResultErr a with
    | _ :: _, None => Some (ErrTestStepsNeverReturned (stepsNeverReturned a))
    | _, r => r
    end in
  (resumeStates a, resultErr, wSteps a).

(** ** The end of Run *)

(** Lines 241-261: the loop over [targets] that refreshes the step
    variables and decides whether the state can be resumed.  It ends
    early with the error of [getTargetStepsVariables], and panics on
    [tr.steps[tgs.CurStep]] out of range. *)
Record examined : Type := mkExamined {
  ex_states : gmap string targetState;
  ex_resumeOk : bool;
  ex_numInFlightTargets : Z
}.

Fixpoint examine (w : world) (trsteps : list stepState) (targets : list Target)
    (a : examined) : outcome (error + examined) :=
  match targets with
  | [] => Returned (inr a)
  | t :: targets' =>
      match ex_states a !! ID t with
      | None => Panic nilDereference
      | Some tgs =>
          let '(vars, err) := getTargetStepsVariables w (ID t) in
          let tgs' := set_StepsVariables vars tgs in
          match err with
          | Some msg => Returned (inl (ErrorString msg))
          | None =>
              match index trsteps (CurStep tgs') with
              | None => Panic indexOutOfRange
              | Some ss =>
                  let stepErr := GetError ss in
                  let inFlight := bool_decide (CurPhase tgs' = targetStepPhaseRun) in
                  (* if stepErr != xcontext.ErrPaused { resumeOk = false } *)
                  let ok1 :=
                    if inFlight
                    then match stepErr with
                         | Some e => if isPaused e then ex_resumeOk a else false
                         | None => false
                         end
                    else ex_resumeOk a in
                  (* if stepErr != nil && stepErr != xcontext.ErrPaused *)
                  let ok2 :=
                    match stepErr with
                    | Some e => if isPaused e then ok1 else false
                    | None => ok1
                    end in
                  examine w trsteps targets'
                    (mkExamined (<[ID t := tgs']> (ex_states a)) ok2
                       (if inFlight then ex_numInFlightTargets a + 1
                        else ex_numInFlightTargets a))
              end
          end
      end
  end.

(** Lines 295-302: the result of one target. *)
Definition targetResult (trsteps : list stepState) (state : targetState)
  : option (option error) :=
  match Res state with
  | Some e => Some (Some e)          (* state.Res.Unwrap() *)
  | None =>
      if decide (CurStep state = len trsteps - 1 ∧ CurPhase state = targetStepPhaseEnd)
      then Some None
      else None
  end.

Definition targetsResults (trsteps : list stepState) (states : gmap string targetState)
  : gmap string (option error) :=
  omap (targetResult trsteps) states.

(** Lines 268-303, once the state has been examined. *)
Definition conclude (X : externals) (w : world) (resumeState : RawMessage)
    (trsteps : list stepState) (stepResumeStates : list RawMessage)
    (runErr : option error) (a : examined) : runReturn :=
  match runErr with
  | Some e => fatal trsteps e
  | None =>
      let results := Some (targetsResults trsteps (ex_states a)) in
      if ctxPaused w then
        if ex_resumeOk a then
          match json_Marshal X (mkResumeState resumeStateStructVersion
                                  (Some <$> ex_states a) stepResumeStates) with
          | inl msg => fatal trsteps (ErrorString msg)
          | inr bytes => mkRunReturn bytes results (Some ErrPaused) trsteps
          end
        else mkRunReturn resumeState results None trsteps
      else mkRunReturn resumeState results None trsteps
  end.

(** Lines 222-224: [if err != nil && runErr == nil { runErr = err }] *)
Definition mergeErr (err runErr : option error) : option error :=
  match err, runErr with
  | Some e, None => Some e
  | _, _ => runErr
  end.

(** Lines 180-235: handlers, monitor, [waitSteps] and the cancellation
    check.  A handler that panics takes the process down; if no handler
    exists, or one never comes back, [targetErrors] is never closed and
    the monitor loop does not end. *)
Definition supervise (X : externals) (w : world) (trsteps : list stepState)
    (states : gmap string targetState)
  : outcome (gmap string targetState * list stepState * list RawMessage * option error) :=
  let hs := spawnHandlers X w trsteps states in
  match firstPanic (map_to_list hs) with
  | Some m => Panic m
  | None =>
    if bool_decide (map_to_list hs = []) then Blocked
    else if existsb (λ p, blocked p.2) (map_to_list hs) then Blocked
    else
    let '(runErr, trsteps1) :=
      monitor (omap (received hs) (arrivals w)) None (observeSteps w trsteps) in
    let '(stepResumeStates, err, trsteps2) := waitSteps w trsteps1 in
    let runErr1 := mergeErr err runErr in
    let runErr2 := if ctxDone w then Some ErrCanceled else runErr1 in
    Returned (out_tgs <$> hs, trsteps2, stepResumeStates, runErr2)
  end.

(** What [Run] has in hand at line 268: the pipeline, the resume states
    of the steps, the run error and the examined target states. *)
Record verdict : Type := mkVerdict {
  v_steps : list stepState;
  v_stepResumeStates : list RawMessage;
  v_runErr : option error;
  v_examined : examined
}.

(** [Run] up to line 267: it has returned already ([inl]), or it goes on
    to report ([inr]). *)
Definition runToVerdict (X : externals) (w : world) (tr : TestRunner)
    (bundles : list TestStepBundle) (targets : list Target)
    (resumeState : RawMessage) : outcome (runReturn + verdict) :=
  match parseResume X resumeState with
  | inl e => Returned (inl (fatal (steps tr) e))
  | inr rs =>
      let seeded := seedTargets targets (Targets rs) in
      match newTestStepsVariables X bundles with
      | Some msg => Returned (inl (fatal (steps tr) (ErrorString msg)))
      | None =>
          inited ← initAllStepsVariables X (map_to_list seeded);
          match inited with
          | Some e => Returned (inl (fatal (steps tr) e))
          | None =>
              let states : gmap string targetState := omap id seeded in
              trsteps ← buildPipeline rs (map_to_list states) 0 bundles (steps tr);
              '(states1, trsteps2, stepResumeStates, runErr) ←
                 supervise X w trsteps states;
              ex ← examine w trsteps2 targets
                     (mkExamined states1 (match runErr with None => true | Some _ => false end) 0);
              match ex with
              | inl e => Returned (inl (fatal trsteps2 e))
              | inr a => Returned (inr (mkVerdict trsteps2 stepResumeStates runErr a))
              end
          end
      end
  end.

(** [func (tr *TestRunner) Run(ctx, t, targets, emitterFactory, resumeState)
     (json.RawMessage, map[string]error, error)] *)
Definition Run (X : externals) (w : world) (tr : TestRunner)
    (bundles : list TestStepBundle) (targets : list Target)
    (resumeState : RawMessage) : outcome runReturn :=
  v ← runToVerdict X w tr bundles targets resumeState;
  match v with
  | inl r => Returned r
  | inr v =>
      Returned (conclude X w resumeState (v_steps v) (v_stepResumeStates v)
                  (v_runErr v) (v_examined v))
  end.

(** ** What the specification talks about *)

(** A target has reached a terminal state in a pipeline of [n] steps: it
    failed at a step ([Res] is set), or it finished the last step. *)
Definition terminal (n : Z) (s : targetState) : Prop :=
  is_Some (Res s) ∨ (CurStep s = n - 1 ∧ CurPhase s = targetStepPhaseEnd).

(** [strings.Contains(text, sub)] *)
Definition Contains (text sub : string) : Prop :=
  ∃ pre post, text = pre +:+ sub +:+ post.

(** A started step whose runner and reader did not come back in time:
    [WaitResults] answers an error. *)
Definition neverReturned (w : world) (k : Z) (ss : stepState) : bool :=
  Started ss && bool_decide (is_Some (waitResults w k).2).

(** The labels of the steps that did not return, in pipeline order, the
    first step being at index [k]. *)
Fixpoint labelsNeverReturned (w : world) (k : Z) (l : list stepState) : list string :=
  match l with
  | [] => []
  | ss :: l' =>
      (if neverReturned w k ss then [GetTestStepLabel ss] else [])
      ++ labelsNeverReturned w (k + 1) l'
  end.

(** A started step that came back with an error other than the pause. *)
Definition returnedFatal (w : world) (k : Z) (ss : stepState) : bool :=
  Started ss
  && bool_decide ((waitResults w k).2 = None)
  && match resErr (waitResults w k).1 with
     | Some e => negb (isPaused e)
     | None => false
     end.

Fixpoint anyReturnedFatal (w : world) (k : Z) (l : list stepState) : bool :=
  match l with
  | [] => false
  | ss :: l' => returnedFatal w k ss || anyReturnedFatal w (k + 1) l'
  end.

(** One write of the handler: the next phase of the same step, or the
    init of the next step, from the end of this one, or from run when the
    step stopped without an error and no result was taken. *)
Definition advance (p q : point) : Prop :=
  (q.1 = p.1
   ∧ ((p.2 = targetStepPhaseInit ∧ q.2 = targetStepPhaseBegin)
      ∨ (p.2 = targetStepPhaseBegin ∧ q.2 = targetStepPhaseRun)
      ∨ (p.2 = targetStepPhaseRun ∧ q.2 = targetStepPhaseEnd)))
  ∨ (q.1 = p.1 + 1 ∧ q.2 = targetStepPhaseInit
     ∧ (p.2 = targetStepPhaseEnd ∨ p.2 = targetStepPhaseRun)).

(** [ascends p pts q]: writing [pts] one after the other, from a state at
    [p], is a chain of such writes that ends at [q]. *)
Definition ascends (p : point) (pts : list point) (q : point) : Prop :=
  ∀ tail, Sorted advance (q :: tail) → Sorted advance (p :: pts ++ tail).

(** A point whose step is a step of the pipeline. *)
Definition inPipeline (trsteps : list stepState) (p : point) : Prop :=
  0 ≤ p.1 < len trsteps.

(** What the step at index [k] adds to the resume states, and how
    [waitSteps] leaves it. *)
Definition waitResume (w : world) (k : Z) (ss : stepState) : RawMessage :=
  if Started ss then resResumeState (waitResults w k).1 else GetInitResumeState ss.

Definition waitLeaves (w : world) (k : Z) (ss : stepState) : stepState :=
  if neverReturned w k ss
  then ForceStop (SetError (Some (ErrTestStepsNeverReturned [GetTestStepLabel ss])) ss)
  else ss.

Fixpoint zipIndex {B} (f : Z → stepState → B) (k : Z) (l : list stepState) : list B :=
  match l with
  | [] => []
  | ss :: l' => f k ss :: zipIndex f (k + 1) l'
  end.

(** ** Concrete runs *)

(** The double quote, and a quoted JSON string. *)
Definition dq : string := String "034"%char "".
Definition quoted (s : string) : string := dq +:+ s +:+ dq.

(** The snapshot [{"V":2,"T":{"T1":{"P":1}},"SRS":[null]}]: what a run of
    one step on target T1 serializes when it is paused before T1 is picked
    up. *)
Definition snapshotT1 : RawMessage :=
  "{" +:+ quoted "V" +:+ ":2," +:+ quoted "T" +:+ ":{" +:+ quoted "T1" +:+ ":{"
  +:+ quoted "P" +:+ ":1}}," +:+ quoted "SRS" +:+ ":[null]}".

(** The same with version 3. *)
Definition snapshotV3 : RawMessage :=
  "{" +:+ quoted "V" +:+ ":3," +:+ quoted "T" +:+ ":{" +:+ quoted "T1" +:+ ":{"
  +:+ quoted "P" +:+ ":1}}," +:+ quoted "SRS" +:+ ":[null]}".

(** [{"V":2,"T":{"X":{"P":3}}}]: a target X waiting for its result at
    step 0. *)
Definition snapshotX : RawMessage :=
  "{" +:+ quoted "V" +:+ ":2," +:+ quoted "T" +:+ ":{" +:+ quoted "X" +:+ ":{"
  +:+ quoted "P" +:+ ":3}}}".

Definition decodedState (phase : targetStepPhase) : targetState :=
  mkTargetState None 0 phase None ∅.

(** [encoding/json] on the byte strings above, anything else being
    malformed; [json.Marshal] is only asked for the state that serializes
    to [snapshotT1]; the step-variables container never fails. *)
Definition jsonExternals : externals :=
  mkExternals
    (λ b, if decide (b = snapshotT1) then
            inr (mkResumeState 2 {[ "T1" := Some (decodedState targetStepPhaseInit) ]} ["null"])
          else if decide (b = snapshotV3) then
            inr (mkResumeState 3 {[ "T1" := Some (decodedState targetStepPhaseInit) ]} ["null"])
          else if decide (b = snapshotX) then
            inr (mkResumeState 2 {[ "X" := Some (decodedState targetStepPhaseRun) ]} [])
          else inl "invalid character 'F' looking for beginning of value")
    (λ _, inr snapshotT1)
    (λ _, None) (λ _ _, None) (λ _, "tgs").

(** A step lets the target through. *)
Definition passing : iteration := mkIteration EarlyNone None None (GotResult None).

(** A step fails the target. *)
Definition failing : iteration :=
  mkIteration EarlyNone None None (GotResult (Some (ErrorString "target failed"))).

(** The step stops under the target with a fatal error of its own. *)
Definition crashing : iteration :=
  mkIteration EarlyNone None None (StepStopped (Some (ErrorString "step Step1 paniced"))).

(** A quiet world: every step lets every target through and returns in
    time, nobody pauses or cancels. *)
Definition quietWorld (ids : list string) : world :=
  mkWorld (λ _ _, passing) (FromTarget <$> ids) (λ _, true) (λ _, None)
    (λ _, (mkStepResult None "", None)) false false (λ _, (∅, None)).

(** T1 fails at the step; the step then panics under T2. *)
Definition crashWorld : world :=
  mkWorld (λ id _, if decide (id = "T1") then failing else crashing)
    [FromTarget "T1"; FromStep (ErrorString "step Step1 paniced"); FromTarget "T2"]
    (λ _, true) (λ _, Some (ErrorString "step Step1 paniced"))
    (λ _, (mkStepResult (Some (ErrorString "step Step1 paniced")) "", None))
    false false (λ _, (∅, None)).

(** The same, with the outer context paused and canceled as well. *)
Definition canceledWorld : world :=
  mkWorld (script crashWorld) (arrivals crashWorld) (stepStarted crashWorld)
    (stepErr crashWorld) (waitResults crashWorld) true true
    (getTargetStepsVariables crashWorld).

(** The only step never returns: the target got its result, but
    [WaitResults] times out. *)
Definition hangingWorld : world :=
  mkWorld (λ _ _, passing) [FromTarget "T1"] (λ _, true) (λ _, None)
    (λ _, (mkStepResult None "", Some (ErrorString "context deadline exceeded")))
    false false (λ _, (∅, None)).

(** A target is a key of the results map that [Run] returned. *)
Definition present (id : string) (r : runReturn) : Prop :=
  ∃ m, ret_targetsResults r = Some m ∧ is_Some (m !! id).

(** The pause comes before T1 is picked up; no step is started. *)
Definition pausedWorld : world :=
  mkWorld (λ _ _, mkIteration EarlyPaused None None NeverWakes) [FromTarget "T1"]
    (λ _, false) (λ _, None) (λ _, (mkStepResult None "", None))
    false true (λ _, (∅, None)).

Definition Step1 : TestStepBundle := mkBundle "Step1".
Definition T1 : Target := mkTarget "T1".
Definition T2 : Target := mkTarget "T2".

(** ** What a handler asks of the steps *)

(** The steps on which a handler called [DecreaseLeftTargets], [Run] and
    [InjectTarget], in the order of the calls. *)
Definition decreased (calls : list stepCall) : list Z :=
  omap (λ c, match c with CallDecreaseLeftTargets i => Some i | _ => None end) calls.

Definition ranSteps (calls : list stepCall) : list Z :=
  omap (λ c, match c with CallRun i => Some i | _ => None end) calls.

Definition injectedSteps (calls : list stepCall) : list Z :=
  omap (λ c, match c with CallInjectTarget i => Some i | _ => None end) calls.

(** ** What the monitor and waitSteps report *)

(** The first error of a sequence that is neither nil nor the pause. *)
Fixpoint firstFatal (msgs : list (option error)) : option error :=
  match msgs with
  | [] => None
  | Some e :: msgs' => if isPaused e then firstFatal msgs' else Some e
  | None :: msgs' => firstFatal msgs'
  end.

(** The error of the first started step that came back, in pipeline
    order, with an error other than the pause. *)
Fixpoint firstReturnedFatal (w : world) (k : Z) (l : list stepState) : option error :=
  match l with
  | [] => None
  | ss :: l' =>
      if returnedFatal w k ss then resErr (waitResults w k).1
      else firstReturnedFatal w (k + 1) l'
  end.

(** The state of a target lets the run be resumed: the step it is at holds
    no error but possibly the pause, and if the target is in flight (phase
    run) the step does hold the pause. *)
Definition allowsResume (trsteps : list stepState) (o : option targetState) : bool :=
  match o with
  | None => false
  | Some tgs =>
      match index trsteps (CurStep tgs) with
      | None => false
      | Some ss =>
          match GetError ss with
          | Some e => isPaused e
          | None => negb (bool_decide (CurPhase tgs = targetStepPhaseRun))
          end
      end
  end.

(** ** How often a step is decremented *)

(** The number of [DecreaseLeftTargets] calls of one handler on the step
    at index [i], and of all the handlers of a run. *)
Definition decrementsOf (i : Z) (o : handlerOut) : nat :=
  length (filter (λ j, j = i) (decreased (out_calls o))).

Definition decrementsAt (i : Z) (hs : gmap string handlerOut) : Z :=
  Z.of_nat (sum_list_with (λ p, decrementsOf i p.2) (map_to_list hs)).

(** ** More concrete runs *)

(** A pipeline of two steps, as [Run] builds it for one new target. *)
Definition twoSteps : list stepState :=
  [newStepState 0 1 Step1 "" []; newStepState 1 1 (mkBundle "Step2") "" []].

(** The steps let the target through, but the pause is seen at the head
    of the second step. *)
Definition pausedAtSecond (i : Z) : iteration :=
  mkIteration (if decide (i = 1) then EarlyPaused else EarlyNone) None None
    (GotResult None).

(** T1 as [Run] seeds it when there is nothing to resume. *)
Definition freshT1 : targetState := set_tgt (Some T1) newTargetState.

(** One step that has reported a fatal error, and T1 waiting at it. *)
Definition brokenStep : stepState :=
  mkStepState 0 "Step1" 1 true (Some (ErrorString "step Step1 paniced")) "" [] true.

Definition waitingT1 : examined :=
  mkExamined {[ "T1" := set_CurPhase targetStepPhaseRun freshT1 ]} true 0.

(** ** The writes of a handler, one by one *)





(** * Properties *)

(** ** The target handler *)

Ltac phases :=
  unfold targetStepPhaseInit, targetStepPhaseBegin, targetStepPhaseRun,
    targetStepPhaseEnd, targetStepPhaseInvalid, targetStepPhaseObsolete in *.

#[global] Instance point_lt_trans : Transitive point_lt.
Proof. intros [a b] [c d] [e f]; unfold point_lt; simpl; lia. Qed.

Lemma ascends_nil p : ascends p [] p.
Proof. intros tail H. exact H. Qed.

Lemma advance_lt p q : advance p q → point_lt p q.
Proof. destruct p, q. unfold advance, point_lt. simpl. phases. lia. Qed.

Lemma Sorted_advance_lt l : Sorted advance l → Sorted point_lt l.
Proof.
  induction 1 as [|p l Hl IH Hhd]; constructor; [exact IH|].
  destruct Hhd; constructor. apply advance_lt. assumption.
Qed.

Lemma ascends_one p q : advance p q → ascends p [q] q.
Proof. intros H tail Hs. simpl. constructor; [exact Hs | constructor; exact H]. Qed.

Lemma ascends_app p l1 q l2 r :
  ascends p l1 q → ascends q l2 r → ascends p (l1 ++ l2) r.
Proof. intros H1 H2 tail Hs. rewrite <- app_assoc. apply H1, H2, Hs. Qed.

Lemma phaseSwitch_continue tgs tgs1 pts1 :
  phaseSwitch tgs = SwContinue tgs1 pts1 →
  ascends (pointOf tgs) pts1 (pointOf tgs1)
  ∧ CurStep tgs1 = CurStep tgs
  ∧ (CurPhase tgs1 = targetStepPhaseBegin ∨ CurPhase tgs1 = targetStepPhaseRun)
  ∧ Forall (λ p, p.1 = CurStep tgs) pts1.
Proof.
  unfold phaseSwitch. destruct tgs as [t cs cp r v]; simpl.
  repeat case_decide; intros Hq; inversion Hq; subst; clear Hq; simpl.
  - split; [|auto]. apply ascends_one. unfold advance, pointOf; simpl. phases. lia.
  - split; [apply ascends_nil | auto].
  - split; [apply ascends_nil | auto].
Qed.

Lemma markInjected_spec tgs1 tgs2 pts2 :
  CurPhase tgs1 = targetStepPhaseBegin ∨ CurPhase tgs1 = targetStepPhaseRun →
  markInjected tgs1 = (tgs2, pts2) →
  ascends (pointOf tgs1) pts2 (pointOf tgs2)
  ∧ CurStep tgs2 = CurStep tgs1
  ∧ CurPhase tgs2 = targetStepPhaseRun
  ∧ Forall (λ p, p.1 = CurStep tgs1) pts2.
Proof.
  unfold markInjected. destruct tgs1 as [t cs cp r v]; simpl.
  intros Hp. case_decide; intros Hq; inversion Hq; subst; clear Hq; simpl.
  - split; [|auto]. apply ascends_one. unfold advance, pointOf; simpl. phases. lia.
  - split; [apply ascends_nil|]. split; [done|]. split; [|done].
    destruct Hp; congruence.
Qed.

Lemma awaitResult_spec it tgs2 tgs3 pts3 e :
  CurPhase tgs2 = targetStepPhaseRun →
  awaitResult it tgs2 = Some (tgs3, pts3, e) →
  ascends (pointOf tgs2) pts3 (pointOf tgs3)
  ∧ CurStep tgs3 = CurStep tgs2
  ∧ (CurPhase tgs3 = targetStepPhaseEnd ∨ CurPhase tgs3 = targetStepPhaseRun)
  ∧ Forall (λ p, p.1 = CurStep tgs2) pts3.
Proof.
  unfold awaitResult. destruct tgs2 as [t cs cp r v]; simpl. intros ->.
  destruct (await it) as [res|se|ce|]; intros Hq; inversion Hq; subst; clear Hq.
  - split; [|destruct res; simpl; auto].
    apply ascends_one. destruct res; unfold advance, pointOf; simpl; phases; lia.
  - split; [apply ascends_nil | simpl; auto].
  - split; [apply ascends_nil | simpl; auto].
Qed.

Lemma nextStep_spec n i tgs3 tgs4 pts4 :
  CurStep tgs3 = i →
  CurPhase tgs3 = targetStepPhaseEnd ∨ CurPhase tgs3 = targetStepPhaseRun →
  nextStep n i tgs3 = (tgs4, pts4) →
  ascends (pointOf tgs3) pts4 (pointOf tgs4)
  ∧ (i + 1 < n → CurStep tgs4 = i + 1)
  ∧ (¬ i + 1 < n → tgs4 = tgs3)
  ∧ Forall (λ p, p.1 = i + 1 ∧ i + 1 < n) pts4.
Proof.
  unfold nextStep. destruct tgs3 as [t cs cp r v]; simpl. intros -> Hcp.
  case_decide; intros Hq; inversion Hq; subst; clear Hq; simpl.
  - split; [|split; [done|split; [lia|auto]]].
    apply ascends_one. unfold advance, pointOf; simpl. phases. lia.
  - split; [apply ascends_nil|]. split; [lia | auto].
Qed.

Lemma ascends_end p pts q : ascends p pts q → Sorted advance (p :: pts).
Proof.
  intros H. rewrite <- (app_nil_r pts). apply H. repeat constructor.
Qed.

Lemma out_trace_logged pts calls o : out_trace (logged pts calls o) = pts ++ out_trace o.
Proof. reflexivity. Qed.

Section HandlerFacts.
Variable X : externals.
Variable trsteps : list stepState.
Variable sc : Z → iteration.

Lemma sorted_single (p : point) : Sorted advance [p].
Proof. repeat constructor. Qed.

(** The writes of the loop, from a state at the loop's step. *)
Lemma handleLoop_sorted rem : ∀ tgs lastDec,
  (rem ≠ O → CurStep tgs = len trsteps - Z.of_nat rem) →
  Sorted advance
    (pointOf tgs :: out_trace (handleLoop X trsteps sc rem tgs lastDec)).
Proof.
  induction rem as [|rem IH]; intros tgs lastDec Hi.
  { apply sorted_single. }
  specialize (Hi ltac:(done)).
  cbn [handleLoop].
  set (i := len trsteps - Z.of_nat (S rem)) in *.
  destruct (early (sc i)); try apply sorted_single.
  destruct (index trsteps i); [|apply sorted_single].
  destruct (phaseSwitch tgs) as [tgs1 pts1| |] eqn:Hsw; try apply sorted_single.
  apply phaseSwitch_continue in Hsw as (A1 & S1 & P1 & _).
  destruct (startAndInject (sc i) i) as [err calls0].
  destruct err as [e|].
  { rewrite out_trace_logged; cbn [out_trace finish]; rewrite app_nil_r.
    eapply ascends_end, A1. }
  destruct (markInjected tgs1) as [tgs2 pts2] eqn:Hm.
  apply markInjected_spec in Hm as (A2 & S2 & P2 & _); [|exact P1].
  pose proof (ascends_app _ _ _ _ _ A1 A2) as A12.
  destruct (awaitResult (sc i) tgs2) as [[[tgs3 pts3] err]|] eqn:Haw.
  2:{ rewrite out_trace_logged; cbn [out_trace finish]; rewrite app_nil_r.
      eapply ascends_end, A12. }
  apply awaitResult_spec in Haw as (A3 & S3 & P3 & _); [|exact P2].
  pose proof (ascends_app _ _ _ _ _ A12 A3) as A123.
  rewrite <- app_assoc in A123.
  destruct err as [e|].
  { rewrite out_trace_logged; cbn [out_trace finish]; rewrite app_nil_r.
    eapply ascends_end, A123. }
  destruct (Res tgs3).
  { rewrite out_trace_logged; cbn [out_trace finish]; rewrite app_nil_r.
    eapply ascends_end, A123. }
  destruct (nextStep (len trsteps) i tgs3) as [tgs4 pts4] eqn:Hn.
  apply nextStep_spec in Hn as (A4 & S4 & _ & _); [|congruence|exact P3].
  pose proof (ascends_app _ _ _ _ _ A123 A4) as A1234.
  rewrite <- !app_assoc in A1234.
  rewrite out_trace_logged. apply A1234, IH.
  intros Hrem. rewrite S4; subst i; [lia|].
  destruct rem; [done|]. lia.
Qed.

Lemma out_trace_handleTarget tgs :
  out_trace (handleTarget X trsteps sc tgs) = [] ∨
  out_trace (handleTarget X trsteps sc tgs)
  = out_trace (handleLoop X trsteps sc (Z.to_nat (len trsteps - CurStep tgs)) tgs
                 (CurStep tgs - 1)).
Proof.
  unfold handleTarget. destruct (tgt tgs); [|left; reflexivity].
  right. destruct (out_ret _); try reflexivity; destruct (deferredCalls _ _); reflexivity.
Qed.
End HandlerFacts.

(** Every write of a handler is the next phase of the same step, or the
    init of the next step. *)
Lemma handleTarget_writes (X : externals) (trsteps : list stepState)
    (sc : Z → iteration) (tgs : targetState) :
  Sorted advance (pointOf tgs :: out_trace (handleTarget X trsteps sc tgs)).
Proof.
  destruct (out_trace_handleTarget X trsteps sc tgs) as [-> | ->].
  - repeat constructor.
  - apply handleLoop_sorted. intros Hrem. lia.
Qed.

(** The successive values of (CurStep, CurPhase) that a target handler
    writes, starting from the value it found, are strictly increasing in
    the order init, begin, run, end within a step and step by step across
    the pipeline. *)
Lemma handleTarget_phase_monotone (X : externals) (trsteps : list stepState)
    (sc : Z → iteration) (tgs : targetState) :
  StronglySorted point_lt
    (pointOf tgs :: out_trace (handleTarget X trsteps sc tgs)).
Proof.
  apply Sorted_StronglySorted; [apply point_lt_trans|].
  apply Sorted_advance_lt, handleTarget_writes.
Qed.

Lemma out_tgs_logged pts calls o : out_tgs (logged pts calls o) = out_tgs o.
Proof. reflexivity. Qed.

Lemma out_ret_logged pts calls o : out_ret (logged pts calls o) = out_ret o.
Proof. reflexivity. Qed.

Lemma out_lastDecremented_logged pts calls o :
  out_lastDecremented (logged pts calls o) = out_lastDecremented o.
Proof. reflexivity. Qed.

Lemma index_is_Some {A} (l : list A) (i : Z) : 0 ≤ i < len l → is_Some (index l i).
Proof.
  intros H. unfold index, len in *. case_decide; [|lia].
  apply lookup_lt_is_Some. lia.
Qed.

Lemma index_nil {A} (i : Z) : index (@nil A) i = None.
Proof. unfold index. case_decide; [apply lookup_nil | reflexivity]. Qed.

Section HandlerBounds.
Variable X : externals.
Variable trsteps : list stepState.
Variable sc : Z → iteration.

Lemma Forall_inside_eq (c : Z) (pts : list point) :
  0 ≤ c < len trsteps → Forall (λ p, p.1 = c) pts → Forall (inPipeline trsteps) pts.
Proof.
  intros Hc HF. eapply Forall_impl; [exact HF|]. intros p Hp.
  unfold inPipeline. rewrite Hp. exact Hc.
Qed.

(** From a step inside the pipeline, the loop writes only steps inside
    the pipeline and leaves one. *)
Lemma handleLoop_bounds rem : ∀ tgs lastDec,
  (rem ≠ O → CurStep tgs = len trsteps - Z.of_nat rem) →
  0 ≤ CurStep tgs < len trsteps →
  Forall (inPipeline trsteps) (out_trace (handleLoop X trsteps sc rem tgs lastDec))
  ∧ 0 ≤ CurStep (out_tgs (handleLoop X trsteps sc rem tgs lastDec)) < len trsteps.
Proof.
  induction rem as [|rem IH]; intros tgs lastDec Hi Hb.
  { simpl. auto. }
  specialize (Hi ltac:(done)).
  cbn [handleLoop].
  set (i := len trsteps - Z.of_nat (S rem)) in *.
  destruct (early (sc i)); try (simpl; auto; fail).
  destruct (index trsteps i); [|simpl; auto].
  destruct (phaseSwitch tgs) as [tgs1 pts1| |] eqn:Hsw; try (simpl; auto; fail).
  apply phaseSwitch_continue in Hsw as (_ & S1 & P1 & F1).
  apply Forall_inside_eq in F1; [|exact Hb].
  destruct (startAndInject (sc i) i) as [err calls0].
  destruct err as [e|].
  { rewrite out_trace_logged, out_tgs_logged; cbn [out_trace out_tgs finish].
    rewrite app_nil_r. split; [exact F1 | lia]. }
  destruct (markInjected tgs1) as [tgs2 pts2] eqn:Hm.
  apply markInjected_spec in Hm as (_ & S2 & P2 & F2); [|exact P1].
  apply Forall_inside_eq in F2; [|lia].
  destruct (awaitResult (sc i) tgs2) as [[[tgs3 pts3] err]|] eqn:Haw.
  2:{ rewrite out_trace_logged, out_tgs_logged; cbn [out_trace out_tgs finish].
      rewrite app_nil_r, Forall_app. split; [auto | lia]. }
  apply awaitResult_spec in Haw as (_ & S3 & P3 & F3); [|exact P2].
  apply Forall_inside_eq in F3; [|lia].
  destruct err as [e|].
  { rewrite out_trace_logged, out_tgs_logged; cbn [out_trace out_tgs finish].
    rewrite app_nil_r, !Forall_app. split; [auto | lia]. }
  destruct (Res tgs3).
  { rewrite out_trace_logged, out_tgs_logged; cbn [out_trace out_tgs finish].
    rewrite app_nil_r, !Forall_app. split; [auto | lia]. }
  destruct (nextStep (len trsteps) i tgs3) as [tgs4 pts4] eqn:Hn.
  apply nextStep_spec in Hn as (_ & S4 & E4 & F4); [|congruence|exact P3].
  assert (Forall (inPipeline trsteps) pts4) as F4'.
  { eapply Forall_impl; [exact F4|]. intros p [Hp1 Hp2]. unfold inPipeline. lia. }
  rewrite out_trace_logged, out_tgs_logged.
  destruct (IH tgs4 i) as [IH1 IH2].
  - intros Hrem. rewrite S4; subst i; [lia|]. destruct rem; [done|]. lia.
  - destruct (decide (i + 1 < len trsteps)) as [Hlt|Hge].
    + rewrite S4 by exact Hlt. lia.
    + rewrite (E4 Hge). lia.
  - rewrite !Forall_app. split; [tauto | exact IH2].
Qed.

(** When every step lets the target through, the loop ends at the last
    step, in phase end, without error. *)
Lemma handleLoop_passing rem : ∀ tgs lastDec,
  rem ≠ O →
  CurStep tgs = len trsteps - Z.of_nat rem →
  0 ≤ CurStep tgs →
  CurPhase tgs = targetStepPhaseInit ∨ CurPhase tgs = targetStepPhaseBegin
    ∨ CurPhase tgs = targetStepPhaseRun →
  Res tgs = None →
  (∀ i, early (sc i) = EarlyNone ∧ stepRunErr (sc i) = None
        ∧ injectErr (sc i) = None ∧ await (sc i) = GotResult None) →
  let o := handleLoop X trsteps sc rem tgs lastDec in
  out_ret o = Returned None
  ∧ pointOf (out_tgs o) = (len trsteps - 1, targetStepPhaseEnd)
  ∧ out_lastDecremented o = len trsteps - 1.
Proof.
  induction rem as [|rem IH]; intros tgs lastDec Hrem Hi Hnn Hph Hres Hsc; [done|].
  cbn zeta. cbn [handleLoop].
  set (i := len trsteps - Z.of_nat (S rem)) in *.
  destruct (Hsc i) as (He & Hr & Hj & Ha). rewrite He.
  destruct (index_is_Some trsteps i) as [ss ->]; [unfold len in *; lia|].
  destruct tgs as [t cs cp r v]; simpl in *. subst r cs.
  assert (∃ tgs1 pts1, phaseSwitch (mkTargetState t i cp None v) = SwContinue tgs1 pts1
            ∧ (tgs1 = mkTargetState t i targetStepPhaseBegin None v
               ∨ tgs1 = mkTargetState t i targetStepPhaseRun None v))
    as (tgs1 & pts1 & -> & Ht1).
  { unfold phaseSwitch; simpl. destruct Hph as [->| [->| ->]]; phases;
      repeat case_decide; try lia; eauto. }
  unfold startAndInject. rewrite Hr, Hj.
  assert (markInjected tgs1 = (mkTargetState t i targetStepPhaseRun None v,
                               if decide (CurPhase tgs1 = targetStepPhaseBegin)
                               then [(i, targetStepPhaseRun)] else [])) as ->.
  { unfold markInjected. destruct Ht1 as [-> | ->]; simpl; phases;
      repeat case_decide; try lia; reflexivity. }
  unfold awaitResult. rewrite Ha. cbn [Res set_CurPhase].
  unfold nextStep. case_decide as Hlt.
  - rewrite out_ret_logged, out_tgs_logged, out_lastDecremented_logged.
    apply IH; simpl; auto; try lia.
  - assert (rem = O) as -> by lia.
    rewrite out_ret_logged, out_tgs_logged, out_lastDecremented_logged.
    simpl. unfold pointOf; simpl. repeat split; f_equal; lia.
Qed.
End HandlerBounds.

(** C5, as the code has it.  In a pipeline of N steps, a handler that
    starts from a state with CurStep in [0, N) (a new target starts at 0)
    writes only values of CurStep in [0, N-1] and leaves one: CurStep is
    never N.  A target that every step lets through leaves the pipeline
    with CurStep = N-1, in phase end, and the handler returns nil. *)
Theorem handleTarget_CurStep_below_N (X : externals) (trsteps : list stepState)
    (sc : Z → iteration) (tgs : targetState) :
  0 ≤ CurStep tgs < len trsteps →
  let o := handleTarget X trsteps sc tgs in
  Forall (inPipeline trsteps) (out_trace o)
  ∧ 0 ≤ CurStep (out_tgs o) < len trsteps
  ∧ (is_Some (tgt tgs) →
     CurPhase tgs = targetStepPhaseInit →
     Res tgs = None →
     (∀ i, early (sc i) = EarlyNone ∧ stepRunErr (sc i) = None
           ∧ injectErr (sc i) = None ∧ await (sc i) = GotResult None) →
     out_ret o = Returned None
     ∧ pointOf (out_tgs o) = (len trsteps - 1, targetStepPhaseEnd)).
Proof.
  intros Hb. cbn zeta. unfold handleTarget.
  destruct (tgt tgs) as [t|] eqn:Ht.
  2:{ simpl. split; [constructor|]. split; [lia|]. intros [? ?]; discriminate. }
  set (rem := Z.to_nat (len trsteps - CurStep tgs)).
  assert (rem ≠ O) as Hrem by (subst rem; lia).
  assert (CurStep tgs = len trsteps - Z.of_nat rem) as Hi by (subst rem; lia).
  destruct (handleLoop_bounds X trsteps sc rem tgs (CurStep tgs - 1)) as [B1 B2];
    [auto | exact Hb |].
  set (o := handleLoop X trsteps sc rem tgs (CurStep tgs - 1)) in *.
  assert (∀ o', out_trace o' = out_trace o → out_tgs o' = out_tgs o →
                Forall (inPipeline trsteps) (out_trace o')
                ∧ 0 ≤ CurStep (out_tgs o') < len trsteps) as Hsame.
  { intros o' -> ->. auto. }
  split; [|split].
  - destruct (out_ret o); [destruct (deferredCalls _ _)..|]; apply Hsame; reflexivity.
  - destruct (out_ret o); [destruct (deferredCalls _ _)..|]; apply Hsame; reflexivity.
  - intros _ Hph Hres Hsc.
    destruct (handleLoop_passing X trsteps sc rem tgs (CurStep tgs - 1))
      as (R1 & R2 & R3); auto; try lia.
    fold o in R1, R2, R3. rewrite R1, R3.
    unfold deferredCalls. case_decide; [lia|]. simpl. auto.
Qed.

(** ** The monitor and waitSteps *)

Lemma monitor_not_paused msgs : ∀ resultErr trsteps,
  resultErr ≠ Some ErrPaused →
  (monitor msgs resultErr trsteps).1 ≠ Some ErrPaused.
Proof.
  induction msgs as [|m msgs IH]; intros resultErr trsteps Hr; simpl; [exact Hr|].
  destruct m as [e|], resultErr as [r|]; try (apply IH; exact Hr).
  destruct (isPaused e) eqn:He; apply IH; [done|].
  intros [= ->]. discriminate.
Qed.

Lemma monitor_length msgs : ∀ resultErr trsteps,
  length (monitor msgs resultErr trsteps).2 = length trsteps.
Proof.
  induction msgs as [|m msgs IH]; intros resultErr trsteps; simpl; [reflexivity|].
  destruct m as [e|], resultErr as [r|]; try apply IH.
  destruct (isPaused e); rewrite IH; [reflexivity | apply length_fmap].
Qed.

Section WaitSteps.
Variable w : world.

Lemma zipIndex_lookup {B} (f : Z → stepState → B) l : ∀ k j ss,
  l !! j = Some ss → zipIndex f k l !! j = Some (f (k + Z.of_nat j) ss).
Proof.
  induction l as [|x l IH]; intros k j ss Hj; [done|].
  destruct j as [|j]; simpl in *.
  - injection Hj as ->. f_equal. f_equal. lia.
  - rewrite (IH (k + 1) j ss Hj). f_equal. f_equal. lia.
Qed.

Lemma zipIndex_length {B} (f : Z → stepState → B) l : ∀ k,
  length (zipIndex f k l) = length l.
Proof. induction l as [|x l IH]; intros k; simpl; [done | by rewrite IH]. Qed.

Lemma waitStep_fields k ss a :
  stepsNeverReturned (waitStep w k ss a)
    = stepsNeverReturned a
      ++ (if neverReturned w k ss then [GetTestStepLabel ss] else [])
  ∧ resumeStates (waitStep w k ss a) = resumeStates a ++ [waitResume w k ss]
  ∧ wSteps (waitStep w k ss a) = wSteps a ++ [waitLeaves w k ss]
  ∧ wResultErr (waitStep w k ss a)
    = match wResultErr a with
      | Some e => Some e
      | None => if returnedFatal w k ss then resErr (waitResults w k).1 else None
      end.
Proof.
  unfold waitStep, waitResume, waitLeaves, neverReturned, returnedFatal.
  destruct (Started ss); simpl.
  2:{ rewrite app_nil_r. destruct (wResultErr a); done. }
  destruct (waitResults w k) as [result [err|]]; simpl.
  - destruct (wResultErr a); done.
  - rewrite app_nil_r.
    destruct (wResultErr a) as [r|], (resErr result) as [e|]; try done.
    destruct (isPaused e); done.
Qed.

Lemma waitLoop_fields todo : ∀ k a,
  stepsNeverReturned (waitLoop w k todo a)
    = stepsNeverReturned a ++ labelsNeverReturned w k todo
  ∧ resumeStates (waitLoop w k todo a) = resumeStates a ++ zipIndex (waitResume w) k todo
  ∧ wSteps (waitLoop w k todo a) = wSteps a ++ zipIndex (waitLeaves w) k todo
  ∧ (wResultErr a = None → anyReturnedFatal w k todo = false →
     wResultErr (waitLoop w k todo a) = None)
  ∧ (wResultErr (waitLoop w k todo a) ≠ Some ErrPaused ∨ wResultErr a = Some ErrPaused).
Proof.
  induction todo as [|ss todo IH]; intros k a; simpl.
  { rewrite !app_nil_r. repeat split; auto.
    destruct (wResultErr a) as [[]|]; auto; left; done. }
  destruct (IH (k + 1) (waitStep w k ss a)) as (I1 & I2 & I3 & I4 & I5).
  destruct (waitStep_fields k ss a) as (F1 & F2 & F3 & F4).
  rewrite I1, I2, I3, F1, F2, F3, <- !app_assoc. repeat split; try done.
  - intros Ha Hf. apply orb_false_iff in Hf as [Hf1 Hf2].
    apply I4; [|exact Hf2]. rewrite F4, Ha, Hf1. done.
  - destruct I5 as [I5|I5]; [left; exact I5|].
    rewrite F4 in I5. destruct (wResultErr a) as [e|]; [right; exact I5|].
    unfold returnedFatal in I5.
    destruct (Started ss), (bool_decide _), (resErr (waitResults w k).1) as [e'|];
      simpl in I5; try discriminate.
    destruct (isPaused e') eqn:He; simpl in I5; [discriminate|].
    injection I5 as ->. discriminate.
Qed.

Lemma waitSteps_not_paused trsteps : (waitSteps w trsteps).1.2 ≠ Some ErrPaused.
Proof.
  unfold waitSteps. simpl.
  destruct (waitLoop_fields trsteps 0 (mkWaitState [] [] None [])) as (_ & _ & _ & _ & H).
  destruct H as [H|H]; [|discriminate].
  destruct (stepsNeverReturned _), (wResultErr _); done.
Qed.

Lemma waitSteps_length trsteps : length (waitSteps w trsteps).2 = length trsteps.
Proof.
  unfold waitSteps. simpl.
  destruct (waitLoop_fields trsteps 0 (mkWaitState [] [] None [])) as (_ & _ & -> & _).
  simpl. apply zipIndex_length.
Qed.
End WaitSteps.

(** [waitSteps] on a pipeline: every step that was never started adds its
    initial resume state, as it is, at its place in the collected resume
    states, and is left untouched; every started step for which
    [WaitResults] fails is given the NeverReturned error naming its own
    label through [SetError] (which sticks when the step holds no error
    yet) and is force-stopped; the labels gathered are exactly those of
    the steps that did not return, in order, and when at least one step
    did not return and no step came back with a fatal error, the error of
    [waitSteps] is NeverReturned with exactly these labels. *)
Lemma waitSteps_never_returned (w : world) (trsteps : list stepState) :
  let '(resumeStates, err, pipeline) := waitSteps w trsteps in
  length resumeStates = length trsteps
  ∧ (∀ k ss, trsteps !! k = Some ss → Started ss = false →
       resumeStates !! k = Some (GetInitResumeState ss) ∧ pipeline !! k = Some ss)
  ∧ (∀ k ss, trsteps !! k = Some ss → neverReturned w (Z.of_nat k) ss = true →
       ∃ ss', pipeline !! k = Some ss'
         ∧ ss' = ForceStop (SetError
                   (Some (ErrTestStepsNeverReturned [GetTestStepLabel ss])) ss)
         ∧ forceStopped ss' = true
         ∧ (GetError ss = None →
            GetError ss' = Some (ErrTestStepsNeverReturned [GetTestStepLabel ss])))
  ∧ (labelsNeverReturned w 0 trsteps ≠ [] →
     anyReturnedFatal w 0 trsteps = false →
     err = Some (ErrTestStepsNeverReturned (labelsNeverReturned w 0 trsteps))
     ∧ mergeErr err None
       = Some (ErrTestStepsNeverReturned (labelsNeverReturned w 0 trsteps))).
Proof.
  unfold waitSteps.
  destruct (waitLoop_fields w trsteps 0 (mkWaitState [] [] None []))
    as (N & R & L & E & _).
  simpl in N, R, L, E. rewrite N, R, L.
  split; [apply zipIndex_length|]. split; [|split].
  - intros k ss Hk Hs. rewrite !(zipIndex_lookup _ _ _ _ _ Hk).
    unfold waitResume, waitLeaves, neverReturned. rewrite Hs. done.
  - intros k ss Hk Hn. rewrite (zipIndex_lookup _ _ _ _ _ Hk).
    unfold waitLeaves. rewrite Z.add_0_l, Hn.
    eexists; split; [reflexivity|]. split; [reflexivity|]. split; [reflexivity|].
    unfold GetError, SetError. intros ->. reflexivity.
  - intros Hne Hf. rewrite (E eq_refl Hf).
    destruct (labelsNeverReturned w 0 trsteps); done.
Qed.

(** ** Run: how it can end *)

Lemma bind_Returned {A B} (m : outcome A) (f : A → outcome B) (b : B) :
  m ≫= f = Returned b → ∃ a, m = Returned a ∧ f a = Returned b.
Proof. destruct m as [a| |]; simpl; intros H; try discriminate. eauto. Qed.

Lemma initAllStepsVariables_error X l e :
  initAllStepsVariables X l = Returned (Some e) → ∃ text, e = ErrorString text.
Proof.
  induction l as [|[id [s|]] l IH]; simpl; try discriminate.
  destruct (initTargetStepsVariables X id (StepsVariables s)) as [msg|].
  - intros [= <-]. eauto.
  - exact IH.
Qed.

Lemma parseResume_error X resumeState e :
  parseResume X resumeState = inl e → ∃ text, e = ErrorString text.
Proof.
  unfold parseResume. case_decide; [discriminate|].
  destruct (json_Unmarshal X resumeState) as [msg|rs].
  - intros [= <-]. eauto.
  - case_decide; [discriminate|]. intros [= <-]. eauto.
Qed.

Lemma examine_error w trsteps targets : ∀ a e,
  examine w trsteps targets a = Returned (inl e) → ∃ text, e = ErrorString text.
Proof.
  induction targets as [|t targets IH]; intros a e; simpl; [discriminate|].
  destruct (ex_states a !! ID t) as [tgs|]; [|discriminate].
  destruct (getTargetStepsVariables w (ID t)) as [vars [msg|]].
  - intros [= <-]. eauto.
  - destruct (index trsteps _); [|discriminate]. apply IH.
Qed.

Lemma supervise_runErr X w trsteps states states1 trsteps2 srs runErr :
  supervise X w trsteps states = Returned (states1, trsteps2, srs, runErr) →
  runErr ≠ Some ErrPaused ∧ (ctxDone w = true → runErr = Some ErrCanceled).
Proof.
  unfold supervise. destruct (firstPanic _); [discriminate|].
  destruct (bool_decide _); [discriminate|].
  destruct (existsb _ _); [discriminate|].
  pose proof (monitor_not_paused
                (omap (received (spawnHandlers X w trsteps states)) (arrivals w))
                None (observeSteps w trsteps)) as Hm.
  destruct (monitor _ _ _) as [mErr trsteps1].
  pose proof (waitSteps_not_paused w trsteps1) as Hw.
  destruct (waitSteps w trsteps1) as [[rs err] ts2]. simpl in Hm, Hw.
  intros [= <- <- <- <-]. split.
  - destruct (ctxDone w); [done|].
    unfold mergeErr. destruct err, mErr; auto.
  - intros ->. reflexivity.
Qed.

Section RunEnds.
Variable X : externals.
Variable w : world.
Variable tr : TestRunner.
Variable bundles : list TestStepBundle.
Variable targets : list Target.
Variable resumeState : RawMessage.

(** An early return carries an ordinary error, nil results and a nil
    snapshot. *)
Lemma runToVerdict_early r :
  runToVerdict X w tr bundles targets resumeState = Returned (inl r) →
  ∃ text, r = fatal (ret_steps r) (ErrorString text).
Proof.
  unfold runToVerdict.
  destruct (parseResume X resumeState) as [e|rs] eqn:Hp.
  { intros [= <-]. apply parseResume_error in Hp as [text ->]. eauto. }
  destruct (newTestStepsVariables X bundles) as [msg|].
  { intros [= <-]. eauto. }
  intros H. apply bind_Returned in H as (inited & Hi & H).
  destruct inited as [e|].
  { injection H as <-. apply initAllStepsVariables_error in Hi as [text ->]. eauto. }
  apply bind_Returned in H as (trsteps & _ & H).
  apply bind_Returned in H as ([[[states1 trsteps2] srs] runErr] & _ & H).
  apply bind_Returned in H as (ex & He & H).
  destruct ex as [e|a]; [|discriminate].
  injection H as <-. apply examine_error in He as [text ->]. eauto.
Qed.

(** The run error that reaches line 268 is never the pause, and is
    Canceled when the outer context is found canceled. *)
Lemma runToVerdict_runErr v :
  runToVerdict X w tr bundles targets resumeState = Returned (inr v) →
  v_runErr v ≠ Some ErrPaused ∧ (ctxDone w = true → v_runErr v = Some ErrCanceled).
Proof.
  unfold runToVerdict.
  destruct (parseResume X resumeState) as [e|rs]; [discriminate|].
  destruct (newTestStepsVariables X bundles); [discriminate|].
  intros H. apply bind_Returned in H as (inited & _ & H).
  destruct inited; [discriminate|].
  apply bind_Returned in H as (trsteps & _ & H).
  apply bind_Returned in H as ([[[states1 trsteps2] srs] runErr] & Hs & H).
  apply bind_Returned in H as (ex & _ & H).
  destruct ex as [e|a]; [discriminate|].
  injection H as <-. simpl. eapply supervise_runErr, Hs.
Qed.

Lemma Run_cases r :
  Run X w tr bundles targets resumeState = Returned r →
  runToVerdict X w tr bundles targets resumeState = Returned (inl r)
  ∨ ∃ v, runToVerdict X w tr bundles targets resumeState = Returned (inr v)
         ∧ r = conclude X w resumeState (v_steps v) (v_stepResumeStates v)
                 (v_runErr v) (v_examined v).
Proof.
  unfold Run. intros H. apply bind_Returned in H as ([r'|v] & Hv & H);
    injection H as <-; eauto.
Qed.

(** The four ways [conclude] ends. *)
Lemma conclude_cases trsteps srs runErr a :
  let r := conclude X w resumeState trsteps srs runErr a in
  (∃ e, runErr = Some e ∧ r = fatal trsteps e)
  ∨ (runErr = None ∧ ∃ text, r = fatal trsteps (ErrorString text))
  ∨ (runErr = None ∧ ctxPaused w = true ∧ ex_resumeOk a = true
     ∧ ret_err r = Some ErrPaused
     ∧ ret_targetsResults r = Some (targetsResults trsteps (ex_states a)))
  ∨ (runErr = None ∧ ret_err r = None ∧ ret_resumeState r = resumeState
     ∧ ret_targetsResults r = Some (targetsResults trsteps (ex_states a))).
Proof.
  cbn zeta. unfold conclude. destruct runErr as [e|]; [left; eauto|].
  right. destruct (ctxPaused w); [|right; right; done].
  destruct (ex_resumeOk a); [|right; right; done].
  destruct (json_Marshal X _) as [msg|bytes]; [left; eauto | right; left; done].
Qed.

(** Supporting C1: a fatal run error comes with a nil snapshot and nil
    results. *)
Lemma Run_fatal_nil r e :
  Run X w tr bundles targets resumeState = Returned r →
  ret_err r = Some e → e ≠ ErrPaused →
  ret_resumeState r = nilRaw ∧ ret_targetsResults r = None.
Proof.
  intros H He Hne. apply Run_cases in H as [H | (v & Hv & ->)].
  - apply runToVerdict_early in H as [text ->]. done.
  - destruct (conclude_cases (v_steps v) (v_stepResumeStates v) (v_runErr v)
                (v_examined v)) as [(e' & _ & Hr) | [(_ & text & Hr)
                | [(_ & _ & _ & Hr & _) | (_ & Hr & _)]]];
      cbn zeta in Hr; rewrite Hr in *; try done.
    congruence.
Qed.

(** Supporting C1: where a snapshot that is not empty comes from.  It is
    the one serialized on a pause that can be resumed, or it is the
    argument of [Run], handed back with a nil error. *)
Lemma Run_snapshot_origin r :
  Run X w tr bundles targets resumeState = Returned r →
  ret_resumeState r ≠ nilRaw →
  (ret_err r = Some ErrPaused ∧ ctxPaused w = true)
  ∨ (ret_err r = None ∧ ret_resumeState r = resumeState).
Proof.
  intros H Hne. apply Run_cases in H as [H | (v & Hv & ->)].
  - apply runToVerdict_early in H as [text Hr]. rewrite Hr in Hne. done.
  - destruct (conclude_cases (v_steps v) (v_stepResumeStates v) (v_runErr v)
                (v_examined v)) as [(e' & _ & Hr) | [(_ & text & Hr)
                | [(_ & Hp & _ & Hr & _) | (_ & Hr & Hs & _)]]];
      cbn zeta in *; auto.
    + rewrite Hr in Hne. done.
    + rewrite Hr in Hne. done.
Qed.
End RunEnds.

(** ** Run: the results *)

Lemma examine_present w trsteps targets : ∀ a a',
  examine w trsteps targets a = Returned (inr a') →
  (∀ id, is_Some (ex_states a !! id) → is_Some (ex_states a' !! id))
  ∧ (∀ t, t ∈ targets → is_Some (ex_states a' !! ID t)).
Proof.
  induction targets as [|t targets IH]; intros a a'; simpl.
  { intros [= <-]. split; [auto|]. intros t Ht. inversion Ht. }
  destruct (ex_states a !! ID t) as [tgs|] eqn:Ht; [|discriminate].
  destruct (getTargetStepsVariables w (ID t)) as [vars [msg|]]; [discriminate|].
  destruct (index trsteps _); [|discriminate].
  intros H. apply IH in H as [H1 H2]. simpl in H1.
  assert (∀ id, is_Some (ex_states a !! id) → is_Some (ex_states a' !! id)) as H3.
  { intros id Hid. apply H1. destruct (decide (ID t = id)) as [->|Hne].
    - rewrite lookup_insert_eq. eauto.
    - rewrite lookup_insert_ne by exact Hne. exact Hid. }
  split; [exact H3|].
  intros t' [->|Ht']%elem_of_cons; [|auto].
  apply H3. rewrite Ht. eauto.
Qed.

(** A run error that is nil or Paused comes with the results computed
    from the target states at line 295. *)
Lemma Run_nonfatal (X : externals) (w : world) (tr : TestRunner)
    (bundles : list TestStepBundle) (targets : list Target)
    (resumeState : RawMessage) (r : runReturn) :
  Run X w tr bundles targets resumeState = Returned r →
  ret_err r = None ∨ ret_err r = Some ErrPaused →
  ∃ v,
    runToVerdict X w tr bundles targets resumeState = Returned (inr v)
    ∧ ret_targetsResults r
      = Some (targetsResults (v_steps v) (ex_states (v_examined v))).
Proof.
  intros H He. apply Run_cases in H as [H | (v & Hv & ->)].
  { apply runToVerdict_early in H as [text Hr]. rewrite Hr in He.
    destruct He; discriminate. }
  pose proof (runToVerdict_runErr _ _ _ _ _ _ _ Hv) as [Hnp _].
  exists v. split; [exact Hv|].
  destruct (conclude_cases X w resumeState (v_steps v) (v_stepResumeStates v)
              (v_runErr v) (v_examined v))
    as [(e' & Hr & Hc) | [(_ & text & Hc) | [(_ & _ & _ & _ & Hc) | (_ & _ & _ & Hc)]]];
    cbn zeta in Hc; try exact Hc.
  - rewrite Hc in He. destruct He as [He|He]; [discriminate|].
    injection He as ->. contradiction.
  - rewrite Hc in He. destruct He; discriminate.
Qed.

(** C3.  When [Run] returns with a nil or Paused run error, the results
    map holds, for every target state of the run: the error of [Res] if
    [Res] is set; else nil if the state is at the last step of the
    pipeline in phase end; else no entry. *)
Theorem Run_results_computation (X : externals) (w : world) (tr : TestRunner)
    (bundles : list TestStepBundle) (targets : list Target)
    (resumeState : RawMessage) (r : runReturn) :
  Run X w tr bundles targets resumeState = Returned r →
  ret_err r = None ∨ ret_err r = Some ErrPaused →
  ∃ v m,
    runToVerdict X w tr bundles targets resumeState = Returned (inr v)
    ∧ ret_targetsResults r = Some m
    ∧ ∀ id,
        m !! id =
        match ex_states (v_examined v) !! id with
        | None => None
        | Some state =>
            match Res state with
            | Some e => Some (Some e)
            | None =>
                if decide (CurStep state = len (v_steps v) - 1
                           ∧ CurPhase state = targetStepPhaseEnd)
                then Some None
                else None
            end
        end.
Proof.
  intros H He. destruct (Run_nonfatal _ _ _ _ _ _ _ H He) as (v & Hv & Hm).
  exists v, (targetsResults (v_steps v) (ex_states (v_examined v))).
  split; [exact Hv|]. split; [exact Hm|].
  intros id. unfold targetsResults. rewrite lookup_omap.
  destruct (ex_states (v_examined v) !! id) as [state|]; reflexivity.
Qed.

(** C2, as the code has it.  When [Run] returns a nil or Paused run
    error, a target of the list is a key of the results map if and only if
    it reached a terminal state: it failed ([Res] set) or it finished the
    last step.  When [Run] returns a fatal run error the results map is
    nil: no target is in it, whatever state it reached. *)
Theorem Run_results_presence (X : externals) (w : world) (tr : TestRunner)
    (bundles : list TestStepBundle) (targets : list Target)
    (resumeState : RawMessage) (r : runReturn) :
  Run X w tr bundles targets resumeState = Returned r →
  (∀ e, ret_err r = Some e → e ≠ ErrPaused → ret_targetsResults r = None)
  ∧ (ret_err r = None ∨ ret_err r = Some ErrPaused →
     ∃ v m,
       runToVerdict X w tr bundles targets resumeState = Returned (inr v)
       ∧ ret_targetsResults r = Some m
       ∧ ∀ t, t ∈ targets →
           ∃ s, ex_states (v_examined v) !! ID t = Some s
                ∧ (is_Some (m !! ID t) ↔ terminal (len (v_steps v)) s)).
Proof.
  intros H. split.
  { intros e He Hne. eapply Run_fatal_nil; eauto. }
  intros He.
  destruct (Run_nonfatal _ _ _ _ _ _ _ H He) as (v & Hv & Hm).
  exists v, (targetsResults (v_steps v) (ex_states (v_examined v))).
  split; [exact Hv|]. split; [exact Hm|].
  intros t Ht.
  assert (is_Some (ex_states (v_examined v) !! ID t)) as [s Hs].
  { revert Hv. unfold runToVerdict.
    destruct (parseResume X resumeState) as [e|rs]; [discriminate|].
    destruct (newTestStepsVariables X bundles); [discriminate|].
    intros Hb. apply bind_Returned in Hb as (inited & _ & Hb).
    destruct inited; [discriminate|].
    apply bind_Returned in Hb as (trsteps & _ & Hb).
    apply bind_Returned in Hb as ([[[states1 trsteps2] srs] runErr] & _ & Hb).
    apply bind_Returned in Hb as (ex & Hex & Hb).
    destruct ex as [e|a]; [discriminate|]. injection Hb as <-. simpl.
    apply examine_present in Hex as [_ Hex]. auto. }
  exists s. split; [exact Hs|].
  unfold targetsResults. rewrite lookup_omap, Hs. unfold terminal, targetResult. simpl.
  destruct (Res s) as [e|].
  - split; eauto.
  - case_decide as Hd.
    + split; eauto.
    + split; [intros [? ?]; discriminate|]. intros [[? ?]|Hd']; [discriminate|contradiction].
Qed.

(** C7, as the code has it.  When the outer context is found canceled at
    the cancellation check, [Run] returns Canceled (with a nil snapshot and
    nil results), whatever fatal step error, pause or step that did not
    return the run has seen, unless [Run] returns an error of its own
    set-up or read-back: an invalid or incompatible resume state, or an
    error of the step-variables container. *)
Theorem Run_canceled (X : externals) (w : world) (tr : TestRunner)
    (bundles : list TestStepBundle) (targets : list Target)
    (resumeState : RawMessage) (r : runReturn) :
  ctxDone w = true →
  Run X w tr bundles targets resumeState = Returned r →
  r = fatal (ret_steps r) ErrCanceled
  ∨ (runToVerdict X w tr bundles targets resumeState = Returned (inl r)
     ∧ ∃ text, r = fatal (ret_steps r) (ErrorString text)).
Proof.
  intros Hc H. apply Run_cases in H as [H | (v & Hv & ->)].
  { right. split; [exact H|]. eapply runToVerdict_early, H. }
  left. pose proof (runToVerdict_runErr _ _ _ _ _ _ _ Hv) as [_ Hd].
  rewrite (Hd Hc). reflexivity.
Qed.

(** C6.  With a resume state that is not empty: if it does not decode,
    [Run] returns a nil snapshot, nil results and an error whose text
    contains "invalid resume state"; if it decodes to a version other than
    2, [Run] returns a nil snapshot, nil results and an error whose text
    contains "incompatible resume state".  In both cases the pipeline of
    the runner is as it was before the call (no step state is made, none
    is started), and the answer is the same in every world: no handler
    has run. *)
Theorem Run_rejects_resume_state (X : externals) (w : world) (tr : TestRunner)
    (bundles : list TestStepBundle) (targets : list Target)
    (resumeState : RawMessage) :
  resumeState ≠ "" →
  (∀ msg, json_Unmarshal X resumeState = inl msg →
     ∃ text,
       Run X w tr bundles targets resumeState
       = Returned (mkRunReturn nilRaw None (Some (ErrorString text)) (steps tr))
       ∧ Contains text "invalid resume state")
  ∧ (∀ rs, json_Unmarshal X resumeState = inr rs →
     Version rs ≠ resumeStateStructVersion →
     ∃ text,
       Run X w tr bundles targets resumeState
       = Returned (mkRunReturn nilRaw None (Some (ErrorString text)) (steps tr))
       ∧ Contains text "incompatible resume state").
Proof.
  intros Hne. split.
  - intros msg Hu. eexists. split.
    + unfold Run, runToVerdict, parseResume.
      case_decide; [contradiction|]. rewrite Hu. reflexivity.
    + exists "", (": " +:+ msg). reflexivity.
  - intros rs Hu Hv. eexists. split.
    + unfold Run, runToVerdict, parseResume.
      case_decide; [contradiction|]. rewrite Hu.
      case_decide; [contradiction|]. reflexivity.
    + exists "", (" version " +:+ pretty (Version rs) +:+ " (want "
                  +:+ pretty resumeStateStructVersion +:+ ")"). reflexivity.
Qed.

(** ** Run: seeding the target states *)

Lemma seedTargets_snoc targets t m :
  seedTargets (targets ++ [t]) m = seedTarget (seedTargets targets m) t.
Proof. unfold seedTargets. rewrite foldl_app. reflexivity. Qed.

(** A state whose ID is not in the list is left as the snapshot has it. *)
Lemma seedTargets_other targets m id :
  id ∉ (ID <$> targets) → seedTargets targets m !! id = m !! id.
Proof.
  induction targets as [|t targets IH] using rev_ind; intros Hid; [done|].
  rewrite seedTargets_snoc. unfold seedTarget.
  rewrite fmap_app, elem_of_app in Hid. simpl in Hid.
  rewrite lookup_insert_ne.
  - apply IH. tauto.
  - intros Heq. apply Hid. right. rewrite Heq. apply list_elem_of_singleton. done.
Qed.

(** Every target of the list gets a state with a live-target pointer. *)
Lemma seedTargets_listed targets m t :
  t ∈ targets →
  ∃ s, seedTargets targets m !! ID t = Some (Some s) ∧ is_Some (tgt s).
Proof.
  induction targets as [|t' targets IH] using rev_ind; intros Ht.
  { inversion Ht. }
  rewrite seedTargets_snoc. unfold seedTarget.
  destruct (decide (ID t' = ID t)) as [Heq|Hne].
  - rewrite Heq, lookup_insert_eq. eexists. split; [reflexivity|]. simpl. eauto.
  - rewrite lookup_insert_ne by exact Hne. apply IH.
    apply elem_of_app in Ht as [Ht|Ht]; [exact Ht|].
    apply list_elem_of_singleton in Ht. congruence.
Qed.

Lemma seedTargets_lookup targets m id v :
  seedTargets targets m !! id = Some v →
  (∃ s, v = Some s ∧ is_Some (tgt s)) ∨ ((id ∉ (ID <$> targets)) ∧ m !! id = Some v).
Proof.
  intros Hv. destruct (decide (id ∈ (ID <$> targets))) as [Hin|Hnin].
  - left. apply list_elem_of_fmap in Hin as (t & -> & Ht).
    destruct (seedTargets_listed targets m t Ht) as (s & Hs & Htgt).
    rewrite Hs in Hv. injection Hv as <-. eauto.
  - right. split; [exact Hnin|]. rewrite <- Hv. symmetry.
    apply seedTargets_other, Hnin.
Qed.

Lemma initAllStepsVariables_cases X l :
  (∀ id v, initTargetStepsVariables X id v = None) →
  initAllStepsVariables X l = Panic nilDereference
  ∨ (initAllStepsVariables X l = Returned None ∧ Forall (λ p, is_Some p.2) l).
Proof.
  intros Hinit. induction l as [|[id [s|]] l IH]; simpl.
  - right. split; [reflexivity | constructor].
  - rewrite Hinit. destruct IH as [IH|[IH1 IH2]]; [left; exact IH|].
    right. split; [exact IH1|]. constructor; [simpl; eauto | exact IH2].
  - left. reflexivity.
Qed.

Lemma initAllStepsVariables_ok X l :
  (∀ id v, initTargetStepsVariables X id v = None) →
  Forall (λ p, is_Some p.2) l →
  initAllStepsVariables X l = Returned None.
Proof.
  intros Hinit Hl. induction Hl as [|[id v] l [s Hs] Hl IH]; simpl; [reflexivity|].
  simpl in Hs. subst v. rewrite Hinit. exact IH.
Qed.

(** ** Run: building the pipeline *)

Lemma collectResumeTargets_cases i l :
  collectResumeTargets i l = Panic nilDereference
  ∨ ∃ ts, collectResumeTargets i l = Returned ts.
Proof.
  induction l as [|[id s] l IH]; simpl; [right; eauto|].
  case_decide; [|exact IH].
  destruct (tgt s); [|left; reflexivity].
  destruct IH as [-> | [ts ->]]; [left; reflexivity | right; simpl; eauto].
Qed.

Lemma collectResumeTargets_nil_target i l id s :
  (id, s) ∈ l → CurStep s = i → CurPhase s = targetStepPhaseRun → tgt s = None →
  collectResumeTargets i l = Panic nilDereference.
Proof.
  intros Hin Hi Hp Ht. induction l as [|[id' s'] l IH]; [inversion Hin|].
  simpl. apply elem_of_cons in Hin as [[= <- <-]|Hin].
  - rewrite decide_True by done. rewrite Ht. reflexivity.
  - specialize (IH Hin). case_decide; [|exact IH].
    destruct (tgt s'); [|reflexivity]. rewrite IH. reflexivity.
Qed.

Lemma buildPipeline_cases rs states bundles : ∀ i trsteps,
  buildPipeline rs states i bundles trsteps = Panic nilDereference
  ∨ ∃ trsteps', buildPipeline rs states i bundles trsteps = Returned trsteps'
                ∧ len trsteps' = len trsteps + len bundles.
Proof.
  induction bundles as [|sb bundles IH]; intros i trsteps; simpl.
  { right. eexists. split; [reflexivity|]. unfold len. simpl. lia. }
  destruct (collectResumeTargets_cases i states) as [-> | [ts ->]]; [left; reflexivity|].
  simpl. destruct (IH (i + 1) (trsteps ++ [newStepState i (stepTargetsCount i states)
                                             sb
                                             match index (StepResumeState rs) i with
                                             | Some r => if decide (r = "null") then nilRaw else r
                                             | None => nilRaw
                                             end ts])) as [H | (t' & H & Hl)].
  - left. exact H.
  - right. exists t'. split; [exact H|]. rewrite Hl. unfold len.
    rewrite length_app. simpl. lia.
Qed.

(** A state of the snapshot that waits for its result at a step of the
    pipeline, and has no live target, stops [Run] while it builds the
    pipeline. *)
Lemma buildPipeline_nil_target rs states id s bundles : ∀ i trsteps,
  (id, s) ∈ states → CurPhase s = targetStepPhaseRun → tgt s = None →
  i ≤ CurStep s < i + len bundles →
  buildPipeline rs states i bundles trsteps = Panic nilDereference.
Proof.
  intros i trsteps Hin Hp Ht. revert i trsteps.
  induction bundles as [|sb bundles IH]; intros i trsteps Hi.
  { unfold len in Hi. simpl in Hi. lia. }
  simpl. destruct (decide (CurStep s = i)) as [Heq|Hne].
  - rewrite (collectResumeTargets_nil_target i states id s Hin Heq Hp Ht). reflexivity.
  - destruct (collectResumeTargets_cases i states) as [-> | [ts ->]]; [reflexivity|].
    simpl. apply IH. unfold len in *. simpl in Hi. lia.
Qed.

(** ** Run: the handlers *)

Lemma firstPanic_elem l id o m :
  (id, o) ∈ l → out_ret o = Panic m → is_Some (firstPanic l).
Proof.
  intros Hin Ho. induction l as [|[id' o'] l IH]; [inversion Hin|].
  simpl. apply elem_of_cons in Hin as [[= <- <-]|Hin].
  - rewrite Ho. eauto.
  - destruct (out_ret o'); eauto.
Qed.

Lemma firstPanic_only m0 l :
  Forall (λ p, out_ret p.2 = Returned None ∨ out_ret p.2 = Panic m0) l →
  firstPanic l = Some m0
  ∨ (firstPanic l = None ∧ existsb (λ p, blocked p.2) l = false).
Proof.
  induction 1 as [|[id o] l [Ho|Ho] Hl IH]; simpl in *.
  - right. done.
  - unfold blocked. rewrite Ho. simpl. exact IH.
  - rewrite Ho. left. reflexivity.
Qed.

Lemma spawnHandlers_lookup X w trsteps states id :
  spawnHandlers X w trsteps states !! id
  = handleTarget X trsteps (script w id) <$> states !! id.
Proof.
  unfold spawnHandlers. rewrite map_lookup_imap.
  destruct (states !! id); reflexivity.
Qed.

(** With no step at all, a handler returns at once, or panics on the
    index of a step before the first. *)
Lemma handleTarget_no_steps X sc tgs :
  is_Some (tgt tgs) →
  out_tgs (handleTarget X [] sc tgs) = tgs
  ∧ (out_ret (handleTarget X [] sc tgs) = Returned None
     ∨ out_ret (handleTarget X [] sc tgs) = Panic indexOutOfRange)
  ∧ (0 ≤ CurStep tgs → out_ret (handleTarget X [] sc tgs) = Returned None).
Proof.
  intros [t Ht]. unfold handleTarget. rewrite Ht.
  destruct (Z.to_nat (len [] - CurStep tgs)) as [|rem] eqn:Hrem.
  - simpl. unfold deferredCalls.
    assert (0 ≤ CurStep tgs) by (unfold len in Hrem; simpl in Hrem; lia).
    rewrite decide_False by (unfold len; simpl; lia). simpl. auto.
  - cbn [handleLoop]. rewrite index_nil.
    assert (CurStep tgs < 0) by (unfold len in Hrem; simpl in Hrem; lia).
    assert (deferredCalls (@nil stepState) (CurStep tgs - 1) = Panic indexOutOfRange) as Hd.
    { unfold deferredCalls. rewrite decide_True by (unfold len; simpl; lia).
      rewrite decide_False by lia. reflexivity. }
    destruct (early _); simpl; rewrite ?Hd; simpl; repeat split; auto; lia.
Qed.

Lemma firstPanic_none l :
  Forall (λ p, out_ret p.2 = Returned None) l →
  firstPanic l = None ∧ existsb (λ p, blocked p.2) l = false.
Proof.
  induction 1 as [|[id o] l Ho Hl IH]; simpl in *; [done|].
  unfold blocked. rewrite Ho. simpl. exact IH.
Qed.

(** The states seeded from a snapshot without negative CurStep have
    none. *)
Lemma seedTargets_CurStep targets m :
  (∀ id s, m !! id = Some (Some s) → 0 ≤ CurStep s) →
  ∀ id s, seedTargets targets m !! id = Some (Some s) → 0 ≤ CurStep s.
Proof.
  intros Hm. induction targets as [|t targets IH] using rev_ind; [exact Hm|].
  intros id s. rewrite seedTargets_snoc. unfold seedTarget.
  destruct (decide (ID t = id)) as [<-|Hne].
  - rewrite lookup_insert_eq. intros [= <-]. simpl.
    destruct (seedTargets targets m !! ID t) as [[s'|]|] eqn:Hs; simpl; try lia.
    exact (IH _ _ Hs).
  - rewrite lookup_insert_ne by exact Hne. apply IH.
Qed.

(** With no step and no negative CurStep, every handler returns at once
    and leaves its state as it found it. *)
Lemma supervise_no_steps X w (states : gmap string targetState) sid :
  is_Some (states !! sid) →
  (∀ id s, states !! id = Some s → is_Some (tgt s) ∧ 0 ≤ CurStep s) →
  ∃ srs runErr, supervise X w [] states = Returned (states, [], srs, runErr).
Proof.
  intros [s0 Hs0] Hall. unfold supervise.
  set (hs := spawnHandlers X w [] states).
  assert (Forall (λ p, out_ret p.2 = Returned None) (map_to_list hs)) as Hret.
  { apply Forall_forall. intros [id o] Hin. apply elem_of_map_to_list in Hin.
    unfold hs in Hin. rewrite spawnHandlers_lookup in Hin.
    destruct (states !! id) as [s|] eqn:Hs; [|discriminate].
    injection Hin as <-. simpl. destruct (Hall id s Hs) as [Ht Hc].
    apply handleTarget_no_steps; assumption. }
  destruct (firstPanic_none _ Hret) as [-> Hb].
  rewrite bool_decide_eq_false_2.
  2:{ intros Hnil.
      assert ((sid, handleTarget X [] (script w sid) s0) ∈ map_to_list hs) as Hin.
      { apply elem_of_map_to_list. unfold hs. rewrite spawnHandlers_lookup, Hs0. done. }
      rewrite Hnil in Hin. inversion Hin. }
  rewrite Hb.
  pose proof (monitor_length (omap (received hs) (arrivals w)) None (observeSteps w []))
    as Hlen.
  destruct (monitor _ _ _) as [mErr trsteps1].
  simpl in Hlen. destruct trsteps1; [|discriminate]. simpl.
  assert (out_tgs <$> hs = states) as ->.
  { apply map_eq. intros id. unfold hs. rewrite lookup_fmap, spawnHandlers_lookup.
    destruct (states !! id) as [s|] eqn:Hs; [|reflexivity]. simpl.
    destruct (Hall id s Hs) as [Ht _].
    destruct (handleTarget_no_steps X (script w id) s Ht) as [-> _]. reflexivity. }
  eauto.
Qed.

(** Line 250 with an empty pipeline. *)
Lemma examine_no_steps w t rest a :
  is_Some (ex_states a !! ID t) →
  (getTargetStepsVariables w (ID t)).2 = None →
  examine w [] (t :: rest) a = Panic indexOutOfRange.
Proof.
  intros [s Hs] Hget. simpl. rewrite Hs.
  destruct (getTargetStepsVariables w (ID t)) as [vars err]. simpl in Hget. subst err.
  rewrite index_nil. reflexivity.
Qed.

(** C9.  A new runner called with an empty step list and at least one
    target ends in an index-out-of-range panic instead of returning:
    nothing checks that the pipeline is not empty before [tr.steps] is
    indexed with the CurStep of a target.  When no state has a negative
    CurStep (a new target has CurStep 0), every handler returns and it is
    the examination of the states, at line 250, that panics.  (The resume
    state, if any, decodes and names only targets of the list; the
    step-variables container does not fail.) *)
Theorem Run_empty_pipeline_panics (X : externals) (w : world)
    (t : Target) (rest : list Target) (resumeState : RawMessage)
    (rs : resumeStateStruct) :
  parseResume X resumeState = inr rs →
  (∀ id, is_Some (Targets rs !! id) → id ∈ (ID <$> t :: rest)) →
  newTestStepsVariables X [] = None →
  (∀ id v, initTargetStepsVariables X id v = None) →
  (getTargetStepsVariables w (ID t)).2 = None →
  Run X w NewTestRunner [] (t :: rest) resumeState = Panic indexOutOfRange
  ∧ ((∀ id s, Targets rs !! id = Some (Some s) → 0 ≤ CurStep s) →
     ∃ states srs runErr,
       supervise X w [] (omap id (seedTargets (t :: rest) (Targets rs)))
       = Returned (states, [], srs, runErr)
       ∧ ∀ ok, examine w [] (t :: rest) (mkExamined states ok 0)
               = Panic indexOutOfRange).
Proof.
  intros Hp Hdom Hnew Hinit Hget.
  set (targets := t :: rest) in *.
  set (seeded := seedTargets targets (Targets rs)).
  assert (∀ id v, seeded !! id = Some v → ∃ s, v = Some s ∧ is_Some (tgt s)) as Hseed.
  { intros id v Hv. apply seedTargets_lookup in Hv as [Hv | [Hnin Hv]]; [exact Hv|].
    exfalso. apply Hnin, Hdom. rewrite Hv. eauto. }
  set (states := omap id seeded : gmap string targetState).
  assert (∀ id s, states !! id = Some s → seeded !! id = Some (Some s)) as Hback.
  { intros id s. unfold states. rewrite lookup_omap.
    destruct (seeded !! id) as [[s'|]|]; simpl; congruence. }
  assert (∀ id s, states !! id = Some s → is_Some (tgt s)) as Hstates.
  { intros id s Hs. destruct (Hseed id _ (Hback id s Hs)) as (s' & [= <-] & Htgt).
    exact Htgt. }
  assert (is_Some (states !! ID t)) as [s0 Hs0].
  { destruct (seedTargets_listed targets (Targets rs) t) as (s & Hs & _).
    - subst targets. left.
    - unfold states. rewrite lookup_omap. fold seeded in Hs. rewrite Hs. simpl. eauto. }
  split.
  - unfold Run, runToVerdict. rewrite Hp, Hnew. fold targets seeded.
    rewrite (initAllStepsVariables_ok X (map_to_list seeded) Hinit).
    2:{ apply Forall_forall. intros [id v] Hin. apply elem_of_map_to_list in Hin.
        destruct (Hseed id v Hin) as (s & -> & _). simpl. eauto. }
    simpl. fold states.
    unfold supervise.
    set (hs := spawnHandlers X w [] states).
    assert (Forall (λ p, out_ret p.2 = Returned None
                         ∨ out_ret p.2 = Panic indexOutOfRange)
              (map_to_list hs)) as Hall.
    { apply Forall_forall. intros [id o] Hin. apply elem_of_map_to_list in Hin.
      unfold hs in Hin. rewrite spawnHandlers_lookup in Hin.
      destruct (states !! id) as [s|] eqn:Hs; [|discriminate].
      injection Hin as <-. simpl. apply handleTarget_no_steps. eauto. }
    destruct (firstPanic_only _ _ Hall) as [-> | [-> Hb]]; [reflexivity|].
    assert (hs !! ID t = Some (handleTarget X [] (script w (ID t)) s0)) as Hh.
    { unfold hs. rewrite spawnHandlers_lookup, Hs0. reflexivity. }
    rewrite bool_decide_eq_false_2.
    2:{ intros Hnil. apply elem_of_map_to_list in Hh. rewrite Hnil in Hh. inversion Hh. }
    rewrite Hb.
    pose proof (monitor_length (omap (received hs) (arrivals w)) None (observeSteps w []))
      as Hlen.
    destruct (monitor _ _ _) as [mErr trsteps1].
    simpl in Hlen. destruct trsteps1; [|discriminate]. simpl.
    rewrite lookup_fmap, Hh. simpl.
    destruct (getTargetStepsVariables w (ID t)) as [vars err]. simpl in Hget. subst err.
    rewrite index_nil. reflexivity.
  - intros Hpos.
    destruct (supervise_no_steps X w states (ID t)) as (srs & runErr & Hsup); [eauto| |].
    { intros id s Hs. split; [eapply Hstates, Hs|].
      eapply (seedTargets_CurStep targets (Targets rs) Hpos), Hback, Hs. }
    exists states, srs, runErr. split; [exact Hsup|].
    intros ok. apply examine_no_steps; [simpl; eauto | exact Hget].
Qed.

Lemma collectResumeTargets_returns i l :
  (∀ id s, (id, s) ∈ l → CurStep s = i → CurPhase s = targetStepPhaseRun →
           is_Some (tgt s)) →
  ∃ ts, collectResumeTargets i l = Returned ts.
Proof.
  induction l as [|[id s] l IH]; intros Hl; simpl; [eauto|].
  destruct IH as [ts IH].
  { intros id' s' Hin. apply (Hl id' s'). right. exact Hin. }
  case_decide as Hd; [|eauto].
  destruct (Hl id s) as [t Ht]; [left | tauto | tauto |].
  rewrite Ht, IH. simpl. eauto.
Qed.

(** The pipeline gets built when no state with a nil target pointer waits
    for its result at one of its steps. *)
Lemma buildPipeline_returns rs states bundles : ∀ i trsteps,
  (∀ id s, (id, s) ∈ states → CurPhase s = targetStepPhaseRun →
           i ≤ CurStep s < i + len bundles → is_Some (tgt s)) →
  ∃ trsteps', buildPipeline rs states i bundles trsteps = Returned trsteps'.
Proof.
  induction bundles as [|sb bundles IH]; intros i trsteps Hl; simpl; [eauto|].
  destruct (collectResumeTargets_returns i states) as [ts ->].
  { intros id s Hin Hc Hp. apply (Hl id s Hin Hp).
    unfold len. simpl. lia. }
  simpl. apply IH. intros id s Hin Hp Hc. apply (Hl id s Hin Hp).
  unfold len in *. simpl. lia.
Qed.

(** C10, as the code has it.  Let the resume snapshot hold a target state
    whose ID is not in the targets list (decoding leaves its live-target
    pointer nil, the field not being exported), and let the step-variables
    container not fail.  Then [Run] leaves that state as it is, pointer
    nil: it does not check that the targets of the snapshot are among the
    targets given.  [Run] never returns: it panics.  Unless a state of
    the snapshot that is not in the list waits for its result (phase run)
    at a step of the pipeline, or is null, [Run] builds the pipeline and
    spawns a handler for the state, the handler dereferences the nil
    pointer, and [Run] ends with the panic of a handler.  If the state
    itself waits for its result at a step of the pipeline, [Run]
    dereferences a nil pointer on its own, before any handler is spawned:
    at the latest while it builds the pipeline. *)
Theorem Run_snapshot_target_not_listed (X : externals) (w : world) (tr : TestRunner)
    (bundles : list TestStepBundle) (targets : list Target)
    (resumeState : RawMessage) (rs : resumeStateStruct)
    (sid : string) (s : targetState) :
  parseResume X resumeState = inr rs →
  Targets rs !! sid = Some (Some s) →
  tgt s = None →
  sid ∉ (ID <$> targets) →
  newTestStepsVariables X bundles = None →
  (∀ id v, initTargetStepsVariables X id v = None) →
  let seeded := seedTargets targets (Targets rs) in
  let states : gmap string targetState := omap id seeded in
  seeded !! sid = Some (Some s)
  ∧ (∃ m, Run X w tr bundles targets resumeState = Panic m)
  ∧ ((∀ id', Targets rs !! id' = Some None → id' ∈ (ID <$> targets)) →
     (∀ id' s', Targets rs !! id' = Some (Some s') → id' ∉ (ID <$> targets) →
                tgt s' = None →
                ¬ (CurPhase s' = targetStepPhaseRun ∧ 0 ≤ CurStep s' < len bundles)) →
     ∃ trsteps m,
       buildPipeline rs (map_to_list states) 0 bundles (steps tr) = Returned trsteps
       ∧ (∃ o, spawnHandlers X w trsteps states !! sid = Some o
               ∧ out_ret o = Panic nilDereference)
       ∧ supervise X w trsteps states = Panic m
       ∧ Run X w tr bundles targets resumeState = Panic m)
  ∧ (CurPhase s = targetStepPhaseRun → 0 ≤ CurStep s < len bundles →
     buildPipeline rs (map_to_list states) 0 bundles (steps tr) = Panic nilDereference
     ∧ Run X w tr bundles targets resumeState = Panic nilDereference).
Proof.
  intros Hp Hs Ht Hnin Hnew Hinit seeded states.
  assert (seeded !! sid = Some (Some s)) as Hseed.
  { unfold seeded. rewrite seedTargets_other by exact Hnin. exact Hs. }
  assert (states !! sid = Some s) as Hst.
  { unfold states. rewrite lookup_omap, Hseed. reflexivity. }
  assert (∀ trsteps, ∃ o, spawnHandlers X w trsteps states !! sid = Some o
                          ∧ out_ret o = Panic nilDereference) as Hspawn.
  { intros trsteps. rewrite spawnHandlers_lookup, Hst. simpl.
    eexists. split; [reflexivity|]. unfold handleTarget. rewrite Ht. reflexivity. }
  assert (∀ trsteps, ∃ m, supervise X w trsteps states = Panic m) as Hsup.
  { intros trsteps. unfold supervise.
    destruct (Hspawn trsteps) as (o & Ho & Hret).
    apply elem_of_map_to_list in Ho.
    destruct (firstPanic_elem _ _ _ _ Ho Hret) as [m ->]. eauto. }
  split; [exact Hseed|]. split; [|split].
  - unfold Run, runToVerdict. rewrite Hp, Hnew. fold seeded.
    destruct (initAllStepsVariables_cases X (map_to_list seeded) Hinit) as [-> | [-> _]];
      [simpl; eauto|].
    simpl.
    change (omap id seeded) with states.
    destruct (buildPipeline_cases rs (map_to_list states) bundles 0 (steps tr))
      as [-> | (trsteps & -> & _)]; [simpl; eauto|].
    simpl. destruct (Hsup trsteps) as [m ->]. simpl. eauto.
  - intros Hnull Hrun.
    assert (initAllStepsVariables X (map_to_list seeded) = Returned None) as Hia.
    { apply initAllStepsVariables_ok; [exact Hinit|].
      apply Forall_forall. intros [id' v] Hin. apply elem_of_map_to_list in Hin.
      simpl. unfold seeded in Hin.
      apply seedTargets_lookup in Hin as [(s' & -> & _) | [Hn Hv]]; [eauto|].
      destruct v as [s'|]; [eauto|]. destruct (Hn (Hnull id' Hv)). }
    destruct (buildPipeline_returns rs (map_to_list states) bundles 0 (steps tr))
      as [trsteps Hb].
    { intros id' s' Hin Hph Hc. apply elem_of_map_to_list in Hin.
      unfold states in Hin. rewrite lookup_omap in Hin.
      destruct (seeded !! id') as [[s2|]|] eqn:Hs2; simpl in Hin; try discriminate.
      injection Hin as ->. unfold seeded in Hs2.
      apply seedTargets_lookup in Hs2 as [(s2 & [= <-] & Htgt) | [Hn Hv]];
        [exact Htgt|].
      destruct (tgt s') as [t'|] eqn:Ht'; [eauto|].
      destruct (Hrun id' s' Hv Hn Ht'). split; [exact Hph | lia]. }
    destruct (Hsup trsteps) as [m Hm].
    exists trsteps, m. split; [exact Hb|]. split; [apply Hspawn|]. split; [exact Hm|].
    unfold Run, runToVerdict. rewrite Hp, Hnew. fold seeded. rewrite Hia. simpl.
    change (omap id seeded) with states. rewrite Hb. simpl. rewrite Hm. reflexivity.
  - intros Hph Hcs.
    assert (buildPipeline rs (map_to_list states) 0 bundles (steps tr)
            = Panic nilDereference) as Hb.
    { apply (buildPipeline_nil_target rs (map_to_list states) sid s bundles 0 (steps tr));
        [apply elem_of_map_to_list; exact Hst | exact Hph | exact Ht | lia]. }
    split; [exact Hb|].
    unfold Run, runToVerdict. rewrite Hp, Hnew. fold seeded.
    destruct (initAllStepsVariables_cases X (map_to_list seeded) Hinit) as [-> | [-> _]];
      [reflexivity|].
    simpl. change (omap id seeded) with states. rewrite Hb. reflexivity.
Qed.

(** ** Run: the wait for the steps *)

(** C8.  The wait-for-steps phase of [Run] (lines 220-224), which
    [supervise] goes through after the monitor loop: [waitSteps] is called
    on the pipeline as the monitor loop left it, and what [Run] goes on
    with are the resume states and the pipeline [waitSteps] hands back.
    Every step that was never started adds its initial resume state, as it
    is, at its place in the collected resume states, and is left
    untouched.  Every started step for which [WaitResults] fails is given
    the NeverReturned error naming its own label (through [SetError],
    which sticks when the step holds no error yet) and is force-stopped.
    When at least one step did not return, no step came back with a fatal
    error and the monitor loop had recorded none, the run error becomes,
    at line 223, NeverReturned with exactly the labels of the steps that
    did not return, in pipeline order.  That run error is the one [Run]
    goes on with, unless the cancellation check that follows (lines
    230-235) finds the outer context canceled and replaces it. *)
Theorem supervise_never_returned (X : externals) (w : world)
    (trsteps : list stepState) (states : gmap string targetState)
    (states1 : gmap string targetState) (trsteps2 : list stepState)
    (srs : list RawMessage) (runErr : option error) :
  supervise X w trsteps states = Returned (states1, trsteps2, srs, runErr) →
  let monitored :=
    monitor (omap (received (spawnHandlers X w trsteps states)) (arrivals w)) None
      (observeSteps w trsteps) in
  let pipeline1 := monitored.2 in
  let waited := waitSteps w pipeline1 in
  let runErr1 := mergeErr waited.1.2 monitored.1 in
  srs = waited.1.1
  ∧ trsteps2 = waited.2
  ∧ runErr = (if ctxDone w then Some ErrCanceled else runErr1)
  ∧ length srs = length pipeline1
  ∧ (∀ k ss, pipeline1 !! k = Some ss → Started ss = false →
       srs !! k = Some (GetInitResumeState ss) ∧ trsteps2 !! k = Some ss)
  ∧ (∀ k ss, pipeline1 !! k = Some ss → neverReturned w (Z.of_nat k) ss = true →
       ∃ ss', trsteps2 !! k = Some ss'
         ∧ ss' = ForceStop (SetError
                   (Some (ErrTestStepsNeverReturned [GetTestStepLabel ss])) ss)
         ∧ forceStopped ss' = true
         ∧ (GetError ss = None →
            GetError ss' = Some (ErrTestStepsNeverReturned [GetTestStepLabel ss])))
  ∧ (labelsNeverReturned w 0 pipeline1 ≠ [] →
     anyReturnedFatal w 0 pipeline1 = false →
     monitored.1 = None →
     runErr1 = Some (ErrTestStepsNeverReturned (labelsNeverReturned w 0 pipeline1))).
Proof.
  unfold supervise. destruct (firstPanic _); [discriminate|].
  destruct (bool_decide _); [discriminate|].
  destruct (existsb _ _); [discriminate|].
  cbn zeta.
  destruct (monitor _ None (observeSteps w trsteps)) as [mErr trsteps1].
  cbn [fst snd].
  pose proof (waitSteps_never_returned w trsteps1) as Hw.
  destruct (waitSteps w trsteps1) as [[rs err] ts2].
  intros [= <- <- <- <-]. simpl.
  destruct Hw as (H1 & H2 & H3 & H4).
  split; [reflexivity|]. split; [reflexivity|]. split; [reflexivity|].
  split; [exact H1|]. split; [exact H2|]. split; [exact H3|].
  intros Hne Hf ->. destruct (H4 Hne Hf) as [_ H]. exact H.
Qed.

(** ** Run: the states it reports on are those the handlers left *)

Lemma handlers_returned l :
  firstPanic l = None → existsb (λ p, blocked p.2) l = false →
  Forall (λ p, ∃ e, out_ret p.2 = Returned e) l.
Proof.
  induction l as [|[id o] l IH]; simpl; intros Hp Hb; [constructor|].
  unfold blocked in Hb at 1. simpl in Hb.
  destruct (out_ret o) as [e|m|] eqn:Ho; try discriminate.
  constructor; [simpl; eauto | apply IH; assumption].
Qed.

Lemma supervise_Returned X w trsteps states states1 trsteps2 srs runErr :
  supervise X w trsteps states = Returned (states1, trsteps2, srs, runErr) →
  states1 = out_tgs <$> spawnHandlers X w trsteps states
  ∧ len trsteps2 = len trsteps
  ∧ ∀ id o, spawnHandlers X w trsteps states !! id = Some o →
            ∃ e, out_ret o = Returned e.
Proof.
  unfold supervise. destruct (firstPanic _) eqn:Hp; [discriminate|].
  destruct (bool_decide _); [discriminate|].
  destruct (existsb _ _) eqn:Hb; [discriminate|].
  pose proof (monitor_length
                (omap (received (spawnHandlers X w trsteps states)) (arrivals w))
                None (observeSteps w trsteps)) as Hm.
  destruct (monitor _ _ _) as [mErr trsteps1].
  pose proof (waitSteps_length w trsteps1) as Hw.
  destruct (waitSteps w trsteps1) as [[rs err] ts2]. simpl in Hm, Hw.
  intros [= <- <- <- <-]. split; [reflexivity|]. split.
  - unfold len. rewrite Hw, Hm. unfold observeSteps. rewrite length_imap. reflexivity.
  - intros id o Ho. apply elem_of_map_to_list in Ho.
    pose proof (handlers_returned _ Hp Hb) as Hall.
    rewrite Forall_forall in Hall. apply (Hall (id, o) Ho).
Qed.

Lemma examine_keeps w trsteps targets : ∀ a a',
  examine w trsteps targets a = Returned (inr a') →
  ∀ id, (λ s, (pointOf s, Res s)) <$> ex_states a' !! id
        = (λ s, (pointOf s, Res s)) <$> ex_states a !! id.
Proof.
  induction targets as [|t targets IH]; intros a a'; simpl.
  { intros [= <-] id. reflexivity. }
  destruct (ex_states a !! ID t) as [tgs|] eqn:Ht; [|discriminate].
  destruct (getTargetStepsVariables w (ID t)) as [vars [msg|]]; [discriminate|].
  destruct (index trsteps _); [|discriminate].
  intros H id. rewrite (IH _ _ H id). simpl.
  destruct (decide (ID t = id)) as [<-|Hne].
  - rewrite lookup_insert_eq, Ht. reflexivity.
  - rewrite lookup_insert_ne by exact Hne. reflexivity.
Qed.

(** Every state [Run] reports on at line 295 is the state a handler left
    when it returned, up to the step variables read back: same CurStep,
    CurPhase and Res. *)
Lemma runToVerdict_states (X : externals) (w : world) (tr : TestRunner)
    (bundles : list TestStepBundle) (targets : list Target)
    (resumeState : RawMessage) (v : verdict) :
  runToVerdict X w tr bundles targets resumeState = Returned (inr v) →
  ∃ rs trsteps,
    parseResume X resumeState = inr rs
    ∧ buildPipeline rs (map_to_list (omap id (seedTargets targets (Targets rs))))
        0 bundles (steps tr) = Returned trsteps
    ∧ len (v_steps v) = len trsteps
    ∧ ∀ sid s, ex_states (v_examined v) !! sid = Some s →
        ∃ tgs0 e,
          omap id (seedTargets targets (Targets rs)) !! sid = Some tgs0
          ∧ out_ret (handleTarget X trsteps (script w sid) tgs0) = Returned e
          ∧ pointOf s = pointOf (out_tgs (handleTarget X trsteps (script w sid) tgs0))
          ∧ Res s = Res (out_tgs (handleTarget X trsteps (script w sid) tgs0)).
Proof.
  unfold runToVerdict.
  destruct (parseResume X resumeState) as [e|rs]; [discriminate|].
  destruct (newTestStepsVariables X bundles); [discriminate|].
  intros H. apply bind_Returned in H as (inited & _ & H).
  destruct inited; [discriminate|].
  apply bind_Returned in H as (trsteps & Hb & H).
  apply bind_Returned in H as ([[[states1 trsteps2] srs] runErr] & Hs & H).
  apply bind_Returned in H as (ex & Hex & H).
  destruct ex as [e|a]; [discriminate|]. injection H as <-. simpl.
  apply supervise_Returned in Hs as (-> & Hlen & Hret).
  exists rs, trsteps. split; [reflexivity|]. split; [exact Hb|]. split; [exact Hlen|].
  intros sid s Hsid.
  pose proof (examine_keeps _ _ _ _ _ Hex sid) as Hk. simpl in Hk.
  rewrite Hsid, lookup_fmap, spawnHandlers_lookup in Hk.
  destruct (omap id (seedTargets targets (Targets rs)) !! sid) as [tgs0|] eqn:H0;
    [|discriminate].
  simpl in Hk. injection Hk as Hstep Hphase Hres.
  destruct (Hret sid (handleTarget X trsteps (script w sid) tgs0)) as [e He].
  { rewrite spawnHandlers_lookup, H0. reflexivity. }
  exists tgs0, e. repeat split; try assumption.
  unfold pointOf. rewrite Hstep, Hphase. reflexivity.
Qed.

(** * Concrete runs *)

(** Scenario A of the specification ([Test1Step1Success]). *)
Example Run_one_step_success :
  ∃ r, Run jsonExternals (quietWorld ["T1"]) NewTestRunner [Step1] [T1] "" = Returned r
       ∧ ret_err r = None
       ∧ ret_targetsResults r = Some {[ "T1" := None ]}
       ∧ ret_resumeState r = nilRaw.
Proof.
  eexists. split; [vm_compute; reflexivity|].
  split; [reflexivity|]. split; [vm_compute; reflexivity | reflexivity].
Qed.

(** Scenario B ([Test1Step1Fail]): the failure of the target is its
    result, not a run error. *)
Example Run_one_step_fail :
  ∃ r, Run jsonExternals
         (mkWorld (λ _ _, failing) [FromTarget "T1"] (λ _, true) (λ _, None)
            (λ _, (mkStepResult None "", None)) false false (λ _, (∅, None)))
         NewTestRunner [Step1] [T1] "" = Returned r
       ∧ ret_err r = None
       ∧ ret_targetsResults r = Some {[ "T1" := Some (ErrorString "target failed") ]}.
Proof.
  eexists. split; [vm_compute; reflexivity|].
  split; [reflexivity | vm_compute; reflexivity].
Qed.

(** Scenario E ([TestNoReturnStepWithCorrectTargetForwarding]). *)
Example Run_step_never_returns :
  ∃ r, Run jsonExternals hangingWorld NewTestRunner [Step1] [T1] "" = Returned r
       ∧ ret_err r = Some (ErrTestStepsNeverReturned ["Step1"])
       ∧ ret_targetsResults r = None
       ∧ ret_resumeState r = nilRaw.
Proof. eexists. split; [vm_compute; reflexivity|]. repeat split. Qed.

(** The first half of scenario G on one target: paused before T1 is
    picked up, [Run] returns Paused with the snapshot. *)
Example Run_paused_returns_snapshot :
  ∃ r, Run jsonExternals pausedWorld NewTestRunner [Step1] [T1] "" = Returned r
       ∧ ret_err r = Some ErrPaused
       ∧ ret_resumeState r = snapshotT1
       ∧ ret_targetsResults r = Some ∅.
Proof. eexists. split; [vm_compute; reflexivity|]. repeat split. Qed.

(** C1.  The run resumed from that snapshot, in which T1 goes through the
    only step and nothing is paused, returns a nil run error, the result
    of T1, and the bytes it was given as the snapshot: they are not
    empty. *)
Theorem Run_resumed_hands_back_snapshot :
  ∃ r, Run jsonExternals (quietWorld ["T1"]) NewTestRunner [Step1] [T1] snapshotT1
       = Returned r
       ∧ ret_err r = None
       ∧ ret_targetsResults r = Some {[ "T1" := None ]}
       ∧ ret_resumeState r = snapshotT1
       ∧ ret_resumeState r ≠ nilRaw.
Proof.
  eexists. split; [vm_compute; reflexivity|].
  split; [reflexivity|]. split; [vm_compute; reflexivity|].
  split; [reflexivity|]. discriminate.
Qed.

(** C2 fails as stated: T1 fails at Step1 (a terminal state), then the
    step dies under T2; [Run] returns the fatal error of the step and a nil
    results map, in which T1 is not. *)
Lemma fatal_run_drops_terminated_target :
  ∃ v r s,
    runToVerdict jsonExternals crashWorld NewTestRunner [Step1] [T1; T2] ""
    = Returned (inr v)
    ∧ Run jsonExternals crashWorld NewTestRunner [Step1] [T1; T2] "" = Returned r
    ∧ T1 ∈ [T1; T2]
    ∧ ex_states (v_examined v) !! ID T1 = Some s
    ∧ Res s = Some (ErrorString "target failed")
    ∧ terminal (len (v_steps v)) s
    ∧ ret_err r = Some (ErrorString "step Step1 paniced")
    ∧ ¬ present (ID T1) r.
Proof.
  do 3 eexists.
  split; [vm_compute; reflexivity|].
  split; [vm_compute; reflexivity|].
  split; [left|].
  split; [vm_compute; reflexivity|].
  split; [reflexivity|].
  split; [left; simpl; eauto|].
  split; [reflexivity|].
  intros (m & Hm & _). discriminate Hm.
Qed.

Lemma Run_results_presence_witness :
  ∃ r, Run jsonExternals (quietWorld ["T1"]) NewTestRunner [Step1] [T1] "" = Returned r
       ∧ (∀ e, ret_err r = Some e → e ≠ ErrPaused → ret_targetsResults r = None)
       ∧ (ret_err r = None ∨ ret_err r = Some ErrPaused →
          ∃ v m,
            runToVerdict jsonExternals (quietWorld ["T1"]) NewTestRunner [Step1] [T1] ""
            = Returned (inr v)
            ∧ ret_targetsResults r = Some m
            ∧ ∀ t, t ∈ [T1] →
                ∃ s, ex_states (v_examined v) !! ID t = Some s
                     ∧ (is_Some (m !! ID t) ↔ terminal (len (v_steps v)) s)).
Proof.
  eexists. split; [vm_compute; reflexivity|].
  apply (Run_results_presence jsonExternals (quietWorld ["T1"]) NewTestRunner
           [Step1] [T1] "").
  vm_compute; reflexivity.
Defined.

Lemma Run_results_computation_witness :
  ∃ r v m,
    Run jsonExternals (quietWorld ["T1"]) NewTestRunner [Step1] [T1] "" = Returned r
    ∧ runToVerdict jsonExternals (quietWorld ["T1"]) NewTestRunner [Step1] [T1] ""
      = Returned (inr v)
    ∧ ret_targetsResults r = Some m
    ∧ m !! "T1" = Some None.
Proof.
  eexists.
  edestruct (Run_results_computation jsonExternals (quietWorld ["T1"]) NewTestRunner
               [Step1] [T1] "") as (v & m & Hv & Hm & Hl).
  - vm_compute; reflexivity.
  - left; reflexivity.
  - exists v, m. split; [vm_compute; reflexivity|].
    split; [exact Hv|]. split; [exact Hm|].
    rewrite Hl. vm_compute in Hv. injection Hv as <-. vm_compute. reflexivity.
Defined.

(** C5 fails as stated: with one step, T1 goes through it and its handler
    returns nil; T1 has left the pipeline, and CurStep is 0, not 1. *)
Lemma passed_target_stays_below_N :
  let pipeline := [newStepState 0 1 Step1 "" []] in
  let o := handleTarget jsonExternals pipeline (λ _, passing)
             (set_tgt (Some T1) newTargetState) in
  out_ret o = Returned None
  ∧ out_trace o = [(0, targetStepPhaseBegin); (0, targetStepPhaseRun);
                   (0, targetStepPhaseEnd)]
  ∧ out_calls o = [CallRun 0; CallInjectTarget 0; CallDecreaseLeftTargets 0]
  ∧ CurStep (out_tgs o) = 0
  ∧ CurStep (out_tgs o) ≠ len pipeline.
Proof. cbn zeta. repeat split; try reflexivity. vm_compute. discriminate. Qed.

Lemma handleTarget_CurStep_below_N_witness :
  let pipeline := [newStepState 0 2 Step1 "" []; newStepState 1 2 (mkBundle "Step2") "" []] in
  let o := handleTarget jsonExternals pipeline (λ _, passing)
             (set_tgt (Some T1) newTargetState) in
  Forall (inPipeline pipeline) (out_trace o)
  ∧ 0 ≤ CurStep (out_tgs o) < len pipeline
  ∧ out_ret o = Returned None
  ∧ pointOf (out_tgs o) = (1, targetStepPhaseEnd).
Proof.
  cbn zeta.
  destruct (handleTarget_CurStep_below_N jsonExternals
              [newStepState 0 2 Step1 "" []; newStepState 1 2 (mkBundle "Step2") "" []]
              (λ _, passing) (set_tgt (Some T1) newTargetState))
    as (H1 & H2 & H3).
  - vm_compute. split; [discriminate | reflexivity].
  - split; [exact H1|]. split; [exact H2|].
    apply H3; [simpl; eauto | reflexivity | reflexivity |].
    intros i. repeat split.
Defined.

Lemma Run_rejects_resume_state_witness :
  (∃ text,
     Run jsonExternals (quietWorld ["T1"]) NewTestRunner [Step1] [T1] "FOO"
     = Returned (mkRunReturn nilRaw None (Some (ErrorString text)) [])
     ∧ Contains text "invalid resume state")
  ∧ (∃ text,
       Run jsonExternals (quietWorld ["T1"]) NewTestRunner [Step1] [T1] snapshotV3
       = Returned (mkRunReturn nilRaw None (Some (ErrorString text)) [])
       ∧ Contains text "incompatible resume state").
Proof.
  split.
  - apply (proj1 (Run_rejects_resume_state jsonExternals (quietWorld ["T1"])
                     NewTestRunner [Step1] [T1] "FOO" ltac:(discriminate))
             "invalid character 'F' looking for beginning of value").
    vm_compute; reflexivity.
  - apply (proj2 (Run_rejects_resume_state jsonExternals (quietWorld ["T1"])
                     NewTestRunner [Step1] [T1] snapshotV3 ltac:(discriminate))
             (mkResumeState 3 {[ "T1" := Some (decodedState targetStepPhaseInit) ]}
                ["null"])).
    + vm_compute; reflexivity.
    + vm_compute. discriminate.
Defined.

(** C7 fails as stated: the outer context is canceled, and [Run], given
    bytes that do not decode, returns the error of the resume state. *)
Lemma canceled_run_reports_resume_error :
  ctxDone canceledWorld = true
  ∧ ∃ r, Run jsonExternals canceledWorld NewTestRunner [Step1] [T1; T2] "FOO"
         = Returned r
         ∧ ret_err r = Some (ErrorString
             "invalid resume state: invalid character 'F' looking for beginning of value")
         ∧ ret_err r ≠ Some ErrCanceled.
Proof.
  split; [reflexivity|]. eexists. split; [vm_compute; reflexivity|].
  split; [reflexivity | discriminate].
Qed.

(** In the canceled world a step has died, T1 has failed and a pause is
    pending; the run error is Canceled all the same. *)
Lemma Run_canceled_witness :
  ∃ r, Run jsonExternals canceledWorld NewTestRunner [Step1] [T1; T2] "" = Returned r
       ∧ ret_err r = Some ErrCanceled
       ∧ (r = fatal (ret_steps r) ErrCanceled
          ∨ (runToVerdict jsonExternals canceledWorld NewTestRunner [Step1] [T1; T2] ""
             = Returned (inl r)
             ∧ ∃ text, r = fatal (ret_steps r) (ErrorString text))).
Proof.
  eexists. split; [vm_compute; reflexivity|]. split; [reflexivity|].
  apply (Run_canceled jsonExternals canceledWorld NewTestRunner [Step1] [T1; T2] "").
  - reflexivity.
  - vm_compute; reflexivity.
Defined.

(** Scenario E: the only step does not return. *)
Lemma supervise_never_returned_witness :
  ∃ states1 trsteps2 srs,
    supervise jsonExternals hangingWorld [newStepState 0 1 Step1 "" []]
      {[ "T1" := set_tgt (Some T1) newTargetState ]}
    = Returned (states1, trsteps2, srs, Some (ErrTestStepsNeverReturned ["Step1"]))
    ∧ trsteps2
      = [mkStepState 0 "Step1" 1 true (Some (ErrTestStepsNeverReturned ["Step1"]))
           "" [] true]
    ∧ srs = [""].
Proof.
  destruct (supervise jsonExternals hangingWorld [newStepState 0 1 Step1 "" []]
              {[ "T1" := set_tgt (Some T1) newTargetState ]})
    as [[[[s1 t2] srs] runErr]| |] eqn:Hs; [|vm_compute in Hs; discriminate..].
  destruct (supervise_never_returned _ _ _ _ _ _ _ _ Hs)
    as (H1 & H2 & H3 & _ & _ & _ & H7).
  cbn zeta in *.
  exists s1, t2, srs. split; [|split].
  - do 2 f_equal. rewrite H3. change (ctxDone hangingWorld) with false. cbn iota.
    rewrite H7; [reflexivity | vm_compute; discriminate | reflexivity | reflexivity].
  - rewrite H2. vm_compute. reflexivity.
  - rewrite H1. vm_compute. reflexivity.
Defined.

(** The same on [waitSteps] alone. *)
Lemma waitSteps_never_returned_witness :
  let pipeline := [mkStepState 0 "Step1" 1 true None "" [] false] in
  waitSteps hangingWorld pipeline
  = ([""], Some (ErrTestStepsNeverReturned ["Step1"]),
     [mkStepState 0 "Step1" 1 true (Some (ErrTestStepsNeverReturned ["Step1"])) "" [] true])
  ∧ mergeErr (waitSteps hangingWorld pipeline).1.2 None
    = Some (ErrTestStepsNeverReturned ["Step1"]).
Proof.
  cbn zeta.
  pose proof (waitSteps_never_returned hangingWorld
                [mkStepState 0 "Step1" 1 true None "" [] false]) as H.
  destruct (waitSteps hangingWorld _) as [[rs err] left] eqn:Hw.
  destruct H as (_ & _ & _ & H).
  destruct H as [H1 H2]; [vm_compute; discriminate | reflexivity |].
  vm_compute in Hw. injection Hw as <- <- <-.
  split; [reflexivity | exact H2].
Defined.

Lemma Run_empty_pipeline_panics_witness :
  Run jsonExternals (quietWorld ["T1"]) NewTestRunner [] [T1] "" = Panic indexOutOfRange.
Proof.
  apply (Run_empty_pipeline_panics jsonExternals (quietWorld ["T1"]) T1 [] ""
           (mkResumeState 0 ∅ [])).
  - reflexivity.
  - intros id [x Hx]. simpl in Hx. rewrite lookup_empty in Hx. discriminate.
  - reflexivity.
  - reflexivity.
  - reflexivity.
Defined.

(** C10 fails as stated: X is in the snapshot, waiting for its result at
    step 0, and not among the targets; [Run] dereferences its nil pointer
    while it builds the pipeline, and no handler is spawned. *)
Lemma snapshot_target_in_flight_stops_Run_itself :
  ∃ rs s,
    parseResume jsonExternals snapshotX = inr rs
    ∧ Targets rs !! "X" = Some (Some s)
    ∧ ("X" ∉ (ID <$> [T1]))
    ∧ buildPipeline rs (map_to_list (omap id (seedTargets [T1] (Targets rs)))) 0
        [Step1] (steps NewTestRunner)
      = Panic nilDereference
    ∧ Run jsonExternals (quietWorld ["T1"; "X"]) NewTestRunner [Step1] [T1] snapshotX
      = Panic nilDereference.
Proof.
  do 2 eexists.
  split; [vm_compute; reflexivity|].
  split; [vm_compute; reflexivity|].
  split; [intros H; apply list_elem_of_singleton in H; discriminate|].
  split; vm_compute; reflexivity.
Qed.

(** T1 is in the snapshot, in phase init at step 0, and the run is for
    T2 alone, with one step: the pipeline is built, the handler of T1 is
    spawned and dereferences the nil pointer. *)
Lemma Run_snapshot_target_not_listed_witness :
  ∃ trsteps,
    buildPipeline (mkResumeState 2 {[ "T1" := Some (decodedState targetStepPhaseInit) ]}
                     ["null"])
      (map_to_list (omap id (seedTargets [T2]
                               {[ "T1" := Some (decodedState targetStepPhaseInit) ]})))
      0 [Step1] (steps NewTestRunner)
    = Returned trsteps
    ∧ len trsteps = 1
    ∧ (∃ o, spawnHandlers jsonExternals (quietWorld ["T1"; "T2"]) trsteps
              (omap id (seedTargets [T2]
                          {[ "T1" := Some (decodedState targetStepPhaseInit) ]}))
              !! "T1" = Some o
            ∧ out_ret o = Panic nilDereference)
    ∧ Run jsonExternals (quietWorld ["T1"; "T2"]) NewTestRunner [Step1] [T2] snapshotT1
      = Panic nilDereference.
Proof.
  destruct (Run_snapshot_target_not_listed jsonExternals (quietWorld ["T1"; "T2"])
              NewTestRunner [Step1] [T2] snapshotT1
              (mkResumeState 2 {[ "T1" := Some (decodedState targetStepPhaseInit) ]}
                 ["null"])
              "T1" (decodedState targetStepPhaseInit))
    as (_ & _ & H3 & _).
  - vm_compute; reflexivity.
  - vm_compute; reflexivity.
  - reflexivity.
  - intros H; apply list_elem_of_singleton in H; discriminate.
  - reflexivity.
  - reflexivity.
  - cbn zeta in H3. destruct H3 as (trsteps & m & Hb & Ho & _ & Hm).
    + intros id' Hnull. simpl in Hnull.
      destruct (decide (id' = "T1")) as [->|Hne].
      * rewrite lookup_singleton_eq in Hnull. discriminate.
      * rewrite lookup_singleton_ne in Hnull by congruence. discriminate.
    + intros id' s' Hs' _ _ [Hph _]. simpl in Hs'.
      destruct (decide (id' = "T1")) as [->|Hne].
      * rewrite lookup_singleton_eq in Hs'. injection Hs' as <-. discriminate.
      * rewrite lookup_singleton_ne in Hs' by congruence. discriminate.
    + exists trsteps. split; [exact Hb|].
      split; [vm_compute in Hb; injection Hb as <-; reflexivity|].
      split; [exact Ho|].
      rewrite Hm. vm_compute in Hm. injection Hm as <-. reflexivity.
Defined.

Lemma decreased_app l1 l2 : decreased (l1 ++ l2) = decreased l1 ++ decreased l2.
Proof. apply omap_app. Qed.
Lemma ranSteps_app l1 l2 : ranSteps (l1 ++ l2) = ranSteps l1 ++ ranSteps l2.
Proof. apply omap_app. Qed.
Lemma injectedSteps_app l1 l2 :
  injectedSteps (l1 ++ l2) = injectedSteps l1 ++ injectedSteps l2.
Proof. apply omap_app. Qed.

Lemma out_calls_logged pts calls o : out_calls (logged pts calls o) = calls ++ out_calls o.
Proof. reflexivity. Qed.

Lemma startAndInject_calls it i err calls0 :
  startAndInject it i = (err, calls0) →
  decreased calls0 = []
  ∧ ranSteps calls0 = [i]
  ∧ (injectedSteps calls0 = [i]
     ∨ (injectedSteps calls0 = [] ∧ is_Some err ∧ is_Some (stepRunErr it))).
Proof.
  unfold startAndInject. destruct (stepRunErr it) as [e|]; intros [= <- <-]; simpl.
  - split; [reflexivity|]. split; [reflexivity|]. right. eauto.
  - split; [reflexivity|]. split; [reflexivity|]. left. reflexivity.
Qed.

Lemma decreased_deferred (n : nat) (a : Z) :
  decreased ((λ k, CallDecreaseLeftTargets (a + Z.of_nat k)) <$> seq 0 n)
  = seqZ a (Z.of_nat n).
Proof.
  unfold seqZ. rewrite Nat2Z.id. generalize 0%nat.
  induction n as [|n IH]; intros s; simpl; [reflexivity|].
  unfold decreased in *. simpl. rewrite IH. f_equal. lia.
Qed.


Section HandlerCalls.
Variable X : externals.
Variable trsteps : list stepState.
Variable sc : Z → iteration.

(** The loop that enters round [i] with [lastDecremented = i - 1] has
    decremented, when it ends, the steps from [i] to [lastDecremented], each
    once and in order; it has run the same steps, or one more; it has
    injected the target where it ran the step, but at the last one if
    [Run] failed there. *)
Lemma handleLoop_calls rem : ∀ tgs,
  let o := handleLoop X trsteps sc rem tgs (len trsteps - Z.of_nat rem - 1) in
  ∃ k r : nat,
    (k ≤ rem)%nat
    ∧ out_lastDecremented o = len trsteps - Z.of_nat rem - 1 + Z.of_nat k
    ∧ decreased (out_calls o) = seqZ (len trsteps - Z.of_nat rem) (Z.of_nat k)
    ∧ ranSteps (out_calls o) = seqZ (len trsteps - Z.of_nat rem) (Z.of_nat k)
    ∧ (r = k
       ∨ (S r = k
          ∧ is_Some (stepRunErr (sc (len trsteps - Z.of_nat rem + Z.of_nat r)))))
    ∧ injectedSteps (out_calls o) = seqZ (len trsteps - Z.of_nat rem) (Z.of_nat r).
Proof.
  induction rem as [|rem IH]; intros tgs; cbn zeta.
  { exists O, O. simpl. rewrite Z.add_0_r. repeat split; auto. }
  assert (∀ t r0, ∃ k r : nat,
            (k ≤ S rem)%nat
            ∧ out_lastDecremented (finish t (len trsteps - Z.of_nat (S rem) - 1) r0)
              = len trsteps - Z.of_nat (S rem) - 1 + Z.of_nat k
            ∧ decreased (out_calls (finish t (len trsteps - Z.of_nat (S rem) - 1) r0))
              = seqZ (len trsteps - Z.of_nat (S rem)) (Z.of_nat k)
            ∧ ranSteps (out_calls (finish t (len trsteps - Z.of_nat (S rem) - 1) r0))
              = seqZ (len trsteps - Z.of_nat (S rem)) (Z.of_nat k)
            ∧ (r = k
               ∨ (S r = k
                  ∧ is_Some (stepRunErr
                               (sc (len trsteps - Z.of_nat (S rem) + Z.of_nat r)))))
            ∧ injectedSteps (out_calls (finish t (len trsteps - Z.of_nat (S rem) - 1) r0))
              = seqZ (len trsteps - Z.of_nat (S rem)) (Z.of_nat r)) as Hfin.
  { intros t r0. exists O, O. simpl. rewrite Z.add_0_r. repeat split; auto with lia. }
  cbn [handleLoop].
  set (i := len trsteps - Z.of_nat (S rem)) in *.
  destruct (early (sc i)); try apply Hfin.
  destruct (index trsteps i); [|apply Hfin].
  destruct (phaseSwitch tgs) as [tgs1 pts1| |]; try apply Hfin.
  destruct (startAndInject (sc i) i) as [err calls0] eqn:Hsi.
  apply startAndInject_calls in Hsi as (D0 & R0 & I0).
  assert (∀ t r0 pts,
            let o := logged pts (calls0 ++ [CallDecreaseLeftTargets i]) (finish t i r0) in
            (injectedSteps calls0 = [i]
             ∨ (injectedSteps calls0 = [] ∧ is_Some (stepRunErr (sc i)))) →
            ∃ k r : nat,
              (k ≤ S rem)%nat
              ∧ out_lastDecremented o = i - 1 + Z.of_nat k
              ∧ decreased (out_calls o) = seqZ i (Z.of_nat k)
              ∧ ranSteps (out_calls o) = seqZ i (Z.of_nat k)
              ∧ (r = k ∨ (S r = k ∧ is_Some (stepRunErr (sc (i + Z.of_nat r)))))
              ∧ injectedSteps (out_calls o) = seqZ i (Z.of_nat r)) as Hone.
  { intros t r0 pts o HI. subst o. rewrite out_calls_logged. simpl.
    rewrite app_nil_r, decreased_app, ranSteps_app, injectedSteps_app, D0, R0. simpl.
    destruct HI as [HI|[HI Hrun]]; rewrite HI.
    - exists 1%nat, 1%nat. repeat split; auto with lia.
    - exists 1%nat, 0%nat. split; [lia|]. split; [lia|].
      split; [reflexivity|]. split; [reflexivity|]. split; [|reflexivity].
      right. split; [reflexivity|]. rewrite Z.add_0_r. exact Hrun. }
  destruct err as [e|].
  { apply Hone. destruct I0 as [I0|(I0 & _ & Hrun)]; auto. }
  destruct I0 as [I0|(_ & [? ?] & _)]; [|discriminate].
  destruct (markInjected tgs1) as [tgs2 pts2].
  destruct (awaitResult (sc i) tgs2) as [[[tgs3 pts3] err]|]; [|apply Hone; auto].
  destruct err as [e|]; [apply Hone; auto|].
  destruct (Res tgs3); [apply Hone; auto|].
  destruct (nextStep (len trsteps) i tgs3) as [tgs4 pts4].
  assert (len trsteps - Z.of_nat rem - 1 = i) as Hi by (subst i; lia).
  assert (len trsteps - Z.of_nat rem = Z.succ i) as Hi' by (subst i; lia).
  destruct (IH tgs4) as (k & r & Hk & HL & HD & HR & Hr & HI).
  cbn zeta in HL, HD, HR, HI. rewrite Hi in HL, HD, HR, HI. rewrite Hi' in HD, HR, HI, Hr.
  rewrite out_calls_logged, out_lastDecremented_logged.
  rewrite !decreased_app, !ranSteps_app, !injectedSteps_app, D0, R0, I0, HL, HD, HR, HI.
  simpl.
  exists (S k), (S r). split; [lia|]. split; [lia|].
  rewrite !(seqZ_cons i (Z.of_nat (S _))) by lia.
  replace (Z.pred (Z.of_nat (S k))) with (Z.of_nat k) by lia.
  replace (Z.pred (Z.of_nat (S r))) with (Z.of_nat r) by lia.
  split; [reflexivity|]. split; [reflexivity|]. split; [|reflexivity].
  destruct Hr as [Hr|[Hr Hrun]]; [left; lia|]. right. split; [lia|].
  replace (i + Z.of_nat (S r)) with (Z.succ i + Z.of_nat r) by lia. exact Hrun.
Qed.
End HandlerCalls.

Lemma handleTarget_loop X trsteps sc tgs e :
  out_ret (handleTarget X trsteps sc tgs) = Returned e →
  let o := handleLoop X trsteps sc (Z.to_nat (len trsteps - CurStep tgs)) tgs
             (CurStep tgs - 1) in
  is_Some (tgt tgs)
  ∧ out_ret o = Returned e
  ∧ out_tgs (handleTarget X trsteps sc tgs) = out_tgs o
  ∧ ∃ cs, deferredCalls trsteps (out_lastDecremented o) = Returned cs
          ∧ out_calls (handleTarget X trsteps sc tgs) = out_calls o ++ cs.
Proof.
  unfold handleTarget. destruct (tgt tgs) as [t|]; [|discriminate]. cbn zeta.
  destruct (out_ret (handleLoop _ _ _ _ _ _)) as [e'|m|] eqn:Hr;
    [| |rewrite Hr; discriminate];
    destruct (deferredCalls _ _) as [cs|m'|]; simpl; try discriminate.
  intros [= ->]. eauto 10.
Qed.

(** The steps a returning handler has decremented: the loop takes those
    it reached, the deferred function the rest. *)
Lemma handleTarget_decreased X trsteps sc tgs e :
  out_ret (handleTarget X trsteps sc tgs) = Returned e →
  decreased (out_calls (handleTarget X trsteps sc tgs))
  = seqZ (CurStep tgs) (len trsteps - CurStep tgs).
Proof.
  intros H. apply handleTarget_loop in H as (_ & Hret & _ & cs & Hd & ->).
  cbn zeta in *. rewrite decreased_app.
  destruct (decide (len trsteps < CurStep tgs)) as [Hgt|Hle].
  - replace (Z.to_nat (len trsteps - CurStep tgs)) with O in * by lia.
    simpl in *. unfold deferredCalls in Hd.
    rewrite decide_False in Hd by lia. injection Hd as <-.
    rewrite seqZ_nil by lia. reflexivity.
  - set (rem := Z.to_nat (len trsteps - CurStep tgs)) in *.
    assert (CurStep tgs - 1 = len trsteps - Z.of_nat rem - 1) as Hl by (subst rem; lia).
    rewrite Hl in *.
    destruct (handleLoop_calls X trsteps sc rem tgs) as (k & r & Hk & HL & HD & _).
    cbn zeta in HL, HD. rewrite HL in Hd. rewrite HD.
    replace (len trsteps - Z.of_nat rem) with (CurStep tgs) in * by (subst rem; lia).
    unfold deferredCalls in Hd.
    replace (CurStep tgs - 1 + Z.of_nat k + 1) with (CurStep tgs + Z.of_nat k) in Hd by lia.
    case_decide as Hlt.
    + case_decide as Hpos; [|discriminate]. injection Hd as <-.
      rewrite decreased_deferred, Z2Nat.id by lia.
      replace (len trsteps - CurStep tgs)
        with (Z.of_nat k + (len trsteps - (CurStep tgs + Z.of_nat k))) by lia.
      rewrite seqZ_app by lia. reflexivity.
    + injection Hd as <-. simpl. rewrite app_nil_r. f_equal. subst rem. lia.
Qed.

(** X1.  A handler that returns, with or without error, has called
    [DecreaseLeftTargets] exactly once on every step from the CurStep it
    started at to the end of the pipeline, in pipeline order, and on no
    other step: in the loop for the steps it reached, in the deferred
    function for the rest. *)
Theorem handleTarget_decrements_once (X : externals) (trsteps : list stepState)
    (sc : Z → iteration) (tgs : targetState) (e : option error) :
  out_ret (handleTarget X trsteps sc tgs) = Returned e →
  decreased (out_calls (handleTarget X trsteps sc tgs))
  = seqZ (CurStep tgs) (len trsteps - CurStep tgs).
Proof. apply handleTarget_decreased. Qed.


Lemma phaseSwitch_inv tgs :
  match phaseSwitch tgs with
  | SwContinue tgs1 _ =>
      Res tgs1 = Res tgs ∧ CurStep tgs1 = CurStep tgs
      ∧ (CurPhase tgs1 = targetStepPhaseBegin ∨ CurPhase tgs1 = targetStepPhaseRun)
  | SwBreak => CurPhase tgs = targetStepPhaseEnd
  | SwInvalid =>
      CurPhase tgs ≠ targetStepPhaseInit ∧ CurPhase tgs ≠ targetStepPhaseBegin
      ∧ CurPhase tgs ≠ targetStepPhaseRun ∧ CurPhase tgs ≠ targetStepPhaseEnd
  end.
Proof.
  unfold phaseSwitch. destruct tgs as [t cs cp r v]; simpl.
  repeat case_decide; simpl; auto.
Qed.

Lemma markInjected_inv tgs1 :
  CurPhase tgs1 = targetStepPhaseBegin ∨ CurPhase tgs1 = targetStepPhaseRun →
  Res (markInjected tgs1).1 = Res tgs1
  ∧ CurStep (markInjected tgs1).1 = CurStep tgs1
  ∧ CurPhase (markInjected tgs1).1 = targetStepPhaseRun.
Proof.
  unfold markInjected. destruct tgs1 as [t cs cp r v]; simpl.
  intros [->| ->]; phases; case_decide; simpl; repeat split; auto; lia.
Qed.

Lemma awaitResult_inv it tgs2 tgs3 pts3 err :
  awaitResult it tgs2 = Some (tgs3, pts3, err) →
  CurStep tgs3 = CurStep tgs2
  ∧ ((∃ res, await it = GotResult res ∧ err = None
             ∧ CurPhase tgs3 = targetStepPhaseEnd
             ∧ Res tgs3 = match res with Some e => Some e | None => Res tgs2 end)
     ∨ (tgs3 = tgs2 ∧ (await it = StepStopped err
                       ∨ ∃ ce, await it = CtxDone ce ∧ err = Some ce))).
Proof.
  unfold awaitResult. destruct (await it) as [res|se|ce|]; intros [= <- <- <-].
  - split; [destruct res; reflexivity|]. left. exists res. destruct res; auto.
  - auto.
  - split; [reflexivity|]. right. eauto.
Qed.

Lemma nextStep_inv n i tgs3 :
  Res (nextStep n i tgs3).1 = Res tgs3
  ∧ (i + 1 < n → CurStep (nextStep n i tgs3).1 = i + 1
                 ∧ CurPhase (nextStep n i tgs3).1 = targetStepPhaseInit).
Proof. unfold nextStep. case_decide; simpl; auto. split; [done|]. intros; lia. Qed.

Section HandlerEnds.
Variable X : externals.
Variable trsteps : list stepState.
Variable sc : Z → iteration.

(** A loop that ends with an error leaves the result of the target as it
    was, in phase begin or run, or, on an invalid phase, the state as it
    was. *)
Lemma handleLoop_error rem : ∀ tgs lastDec e,
  out_ret (handleLoop X trsteps sc rem tgs lastDec) = Returned (Some e) →
  let s := out_tgs (handleLoop X trsteps sc rem tgs lastDec) in
  Res s = Res tgs
  ∧ (CurPhase s = targetStepPhaseBegin ∨ CurPhase s = targetStepPhaseRun
     ∨ (s = tgs
        ∧ CurPhase tgs ≠ targetStepPhaseInit ∧ CurPhase tgs ≠ targetStepPhaseBegin
        ∧ CurPhase tgs ≠ targetStepPhaseRun ∧ CurPhase tgs ≠ targetStepPhaseEnd)).
Proof.
  induction rem as [|rem IH]; intros tgs lastDec e; cbn zeta; [discriminate|].
  cbn [handleLoop].
  set (i := len trsteps - Z.of_nat (S rem)).
  destruct (early (sc i)); try discriminate.
  destruct (index trsteps i); [|discriminate].
  pose proof (phaseSwitch_inv tgs) as Hsw.
  destruct (phaseSwitch tgs) as [tgs1 pts1| |]; [|discriminate|].
  2:{ simpl. intros _. split; [reflexivity|]. right. right. auto. }
  destruct Hsw as (R1 & S1 & P1).
  destruct (startAndInject (sc i) i) as [err calls0].
  destruct err as [e'|].
  { rewrite out_ret_logged, out_tgs_logged. simpl. intros _. split; [exact R1|].
    destruct P1; auto. }
  pose proof (markInjected_inv tgs1 P1) as (R2 & S2 & P2).
  destruct (markInjected tgs1) as [tgs2 pts2]. simpl in R2, S2, P2.
  destruct (awaitResult (sc i) tgs2) as [[[tgs3 pts3] err]|] eqn:Haw; [|discriminate].
  apply awaitResult_inv in Haw as (S3 & Haw).
  destruct err as [e'|].
  { rewrite out_ret_logged, out_tgs_logged. simpl. intros _.
    destruct Haw as [(res & _ & ? & _)|[-> _]]; [discriminate|].
    split; [congruence | auto]. }
  destruct (Res tgs3) eqn:R3; [discriminate|].
  pose proof (nextStep_inv (len trsteps) i tgs3) as (R4 & N4).
  destruct (nextStep (len trsteps) i tgs3) as [tgs4 pts4]. simpl in R4, N4.
  rewrite out_ret_logged, out_tgs_logged. intros Hret.
  destruct rem as [|rem']; [discriminate|].
  destruct N4 as [_ P4]; [subst i; lia|].
  destruct (IH _ _ _ Hret) as (IH1 & IH2). cbn zeta in IH1, IH2.
  assert (Res tgs = None) as Htgs.
  { destruct Haw as [(res & _ & _ & _ & Hres)|[-> _]]; [|congruence].
    destruct res; [discriminate|congruence]. }
  split; [congruence|].
  destruct IH2 as [IH2|[IH2|(_ & Hn1 & _)]]; auto. contradiction.
Qed.

(** A loop that finds a target without result and leaves it with one has
    taken that result from the step the target is left at, has put the
    target in phase end, and returns nil. *)
Lemma handleLoop_failure rem : ∀ tgs lastDec r,
  (rem ≠ O → CurStep tgs = len trsteps - Z.of_nat rem) →
  Res tgs = None →
  let o := handleLoop X trsteps sc rem tgs lastDec in
  Res (out_tgs o) = Some r →
  out_ret o = Returned None
  ∧ CurPhase (out_tgs o) = targetStepPhaseEnd
  ∧ await (sc (CurStep (out_tgs o))) = GotResult (Some r)
  ∧ 0 ≤ out_lastDecremented o.
Proof.
  induction rem as [|rem IH]; intros tgs lastDec r Hi Hnone; cbn zeta.
  { simpl. congruence. }
  specialize (Hi ltac:(done)).
  cbn [handleLoop].
  set (i := len trsteps - Z.of_nat (S rem)) in *.
  destruct (early (sc i)); try (simpl; congruence).
  destruct (index trsteps i) as [ss|] eqn:Hidx; [|simpl; congruence].
  assert (0 ≤ i) as Hpos.
  { unfold index in Hidx. case_decide; [assumption|discriminate]. }
  pose proof (phaseSwitch_inv tgs) as Hsw.
  destruct (phaseSwitch tgs) as [tgs1 pts1| |]; try (simpl; congruence).
  destruct Hsw as (R1 & S1 & P1).
  destruct (startAndInject (sc i) i) as [err calls0].
  destruct err as [e'|].
  { rewrite out_tgs_logged. simpl. congruence. }
  pose proof (markInjected_inv tgs1 P1) as (R2 & S2 & P2).
  destruct (markInjected tgs1) as [tgs2 pts2]. simpl in R2, S2, P2.
  destruct (awaitResult (sc i) tgs2) as [[[tgs3 pts3] err]|] eqn:Haw.
  2:{ rewrite out_tgs_logged. simpl. congruence. }
  apply awaitResult_inv in Haw as (S3 & Haw).
  destruct err as [e'|].
  { rewrite out_tgs_logged. simpl.
    destruct Haw as [(res & _ & ? & _)|[-> _]]; [discriminate|congruence]. }
  destruct (Res tgs3) as [r3|] eqn:R3.
  { rewrite out_ret_logged, out_tgs_logged, out_lastDecremented_logged. simpl.
    rewrite R3. intros [= ->].
    destruct Haw as [(res & Hres & _ & P3 & Hr)|[-> _]]; [|congruence].
    assert (CurStep tgs3 = i) as -> by congruence.
    destruct res as [e'|]; [|congruence]. injection Hr as ->. auto. }
  pose proof (nextStep_inv (len trsteps) i tgs3) as (R4 & N4).
  destruct (nextStep (len trsteps) i tgs3) as [tgs4 pts4]. simpl in R4, N4.
  rewrite out_ret_logged, out_tgs_logged, out_lastDecremented_logged.
  apply IH; [|congruence].
  intros Hrem. destruct N4 as [-> _]; subst i; lia.
Qed.
End HandlerEnds.

(** X3.  The failure of a target is final and is not an error of the
    handler: when a handler finds a target without result and leaves it
    with one, that result is the error the step at which the target is left
    delivered for it, the target is in phase end, and the handler returns
    nil. *)
Theorem handleTarget_failure_is_result (X : externals) (trsteps : list stepState)
    (sc : Z → iteration) (tgs : targetState) (r : error) :
  Res tgs = None →
  let o := handleTarget X trsteps sc tgs in
  Res (out_tgs o) = Some r →
  out_ret o = Returned None
  ∧ CurPhase (out_tgs o) = targetStepPhaseEnd
  ∧ await (sc (CurStep (out_tgs o))) = GotResult (Some r).
Proof.
  intros Hnone. cbn zeta. unfold handleTarget.
  destruct (tgt tgs) as [t|]; [|simpl; congruence].
  set (rem := Z.to_nat (len trsteps - CurStep tgs)).
  pose proof (handleLoop_failure X trsteps sc rem tgs (CurStep tgs - 1) r) as HL.
  cbn zeta in HL.
  set (o := handleLoop X trsteps sc rem tgs (CurStep tgs - 1)) in *.
  intros Hres.
  assert (Res (out_tgs o) = Some r) as Hres'.
  { destruct (out_ret o); [destruct (deferredCalls _ _)..|]; exact Hres. }
  destruct HL as (H1 & H2 & H3 & H4); [subst rem; lia | exact Hnone | exact Hres' |].
  rewrite H1. unfold deferredCalls.
  case_decide; [rewrite decide_True by lia|]; simpl; auto.
Qed.

(** X4.  A handler that returns an error leaves the result of the target
    as it found it and the target in phase begin or run, never in init or
    end; on the error of an invalid phase it leaves the whole state as it
    found it. *)
Theorem handleTarget_error_keeps_target (X : externals) (trsteps : list stepState)
    (sc : Z → iteration) (tgs : targetState) (e : error) :
  out_ret (handleTarget X trsteps sc tgs) = Returned (Some e) →
  let s := out_tgs (handleTarget X trsteps sc tgs) in
  Res s = Res tgs
  ∧ (CurPhase s = targetStepPhaseBegin ∨ CurPhase s = targetStepPhaseRun
     ∨ (s = tgs
        ∧ CurPhase tgs ≠ targetStepPhaseInit ∧ CurPhase tgs ≠ targetStepPhaseBegin
        ∧ CurPhase tgs ≠ targetStepPhaseRun ∧ CurPhase tgs ≠ targetStepPhaseEnd)).
Proof.
  intros H. apply handleTarget_loop in H as (_ & Hret & -> & _).
  cbn zeta in *. exact (handleLoop_error X trsteps sc _ _ _ _ Hret).
Qed.

(** * More on the monitor, waitSteps and the examination *)

Lemma monitor_recorded msgs : ∀ e trsteps,
  monitor msgs (Some e) trsteps = (Some e, trsteps).
Proof.
  induction msgs as [|m msgs IH]; intros e trsteps; simpl; [reflexivity|].
  destruct m; apply IH.
Qed.

(** The monitor loop, entered without error. *)
Lemma monitor_firstFatal msgs trsteps :
  monitor msgs None trsteps
  = (firstFatal msgs,
     match firstFatal msgs with
     | Some _ => ForceStop <$> trsteps
     | None => trsteps
     end).
Proof.
  induction msgs as [|m msgs IH]; simpl; [reflexivity|].
  destruct m as [e|]; [|exact IH].
  destruct (isPaused e); [exact IH|]. apply monitor_recorded.
Qed.

(** X5.  First fatal wins: the monitor loop, entered without error, ends
    with the first error received that is neither nil nor the pause, and
    with nil when there is none.  When it ends with an error every step of
    the pipeline has been force-stopped; when it ends with nil the
    pipeline is untouched. *)
Theorem monitor_first_fatal (msgs : list (option error)) (trsteps : list stepState) :
  monitor msgs None trsteps
  = (firstFatal msgs,
     match firstFatal msgs with
     | Some _ => ForceStop <$> trsteps
     | None => trsteps
     end).
Proof. apply monitor_firstFatal. Qed.

Lemma waitLoop_resultErr w todo : ∀ k a,
  wResultErr (waitLoop w k todo a)
  = match wResultErr a with
    | Some e => Some e
    | None => firstReturnedFatal w k todo
    end.
Proof.
  induction todo as [|ss todo IH]; intros k a; simpl.
  { destruct (wResultErr a); reflexivity. }
  rewrite IH. destruct (waitStep_fields w k ss a) as (_ & _ & _ & ->).
  destruct (wResultErr a) as [e|]; [reflexivity|].
  unfold returnedFatal.
  destruct (Started ss), (bool_decide _), (resErr (waitResults w k).1) as [e|];
    simpl; try reflexivity.
  destruct (isPaused e); reflexivity.
Qed.

(** X6.  The error of [waitSteps]: the error of the first started step, in
    pipeline order, that came back with an error other than the pause;
    failing that, NeverReturned with the labels of the steps that did not
    come back, if there are any; else nil.  So an error a step came back
    with hides the steps that did not return, and [waitSteps] returns nil
    exactly when every started step came back in time without a fatal
    error. *)
Theorem waitSteps_error (w : world) (trsteps : list stepState) :
  (waitSteps w trsteps).1.2
  = match firstReturnedFatal w 0 trsteps with
    | Some e => Some e
    | None =>
        match labelsNeverReturned w 0 trsteps with
        | [] => None
        | _ :: _ => Some (ErrTestStepsNeverReturned (labelsNeverReturned w 0 trsteps))
        end
    end.
Proof.
  unfold waitSteps. simpl.
  destruct (waitLoop_fields w trsteps 0 (mkWaitState [] [] None [])) as (-> & _).
  rewrite waitLoop_resultErr. simpl.
  destruct (firstReturnedFatal w 0 trsteps), (labelsNeverReturned w 0 trsteps);
    reflexivity.
Qed.

Lemma allowsResume_point trsteps s s' :
  pointOf s = pointOf s' →
  allowsResume trsteps (Some s) = allowsResume trsteps (Some s').
Proof. unfold pointOf, allowsResume. intros [= -> ->]. reflexivity. Qed.

(** X7.  When the examination of the states goes through, the run can be
    resumed, as far as it could before, exactly when every target of the
    list allows it: the step it is at holds no error, or the pause, and
    holds the pause if the target is in phase run.  Steps at which no
    target of the list is are not looked at. *)
Theorem examine_resumeOk (w : world) (trsteps : list stepState)
    (targets : list Target) (a a' : examined) :
  examine w trsteps targets a = Returned (inr a') →
  ex_resumeOk a'
  = ex_resumeOk a
    && forallb (λ t, allowsResume trsteps (ex_states a' !! ID t)) targets.
Proof.
  revert a. induction targets as [|t targets IH]; intros a; simpl.
  { intros [= <-]. rewrite andb_true_r. reflexivity. }
  destruct (ex_states a !! ID t) as [tgs|] eqn:Ht; [|discriminate].
  destruct (getTargetStepsVariables w (ID t)) as [vars [msg|]]; [discriminate|].
  destruct (index trsteps (CurStep tgs)) as [ss|] eqn:Hidx; [|discriminate].
  intros H. rewrite (IH _ H). simpl.
  pose proof (examine_keeps _ _ _ _ _ H (ID t)) as Hk. simpl in Hk.
  rewrite lookup_insert_eq in Hk. simpl in Hk.
  destruct (ex_states a' !! ID t) as [s'|] eqn:Hs'; [|discriminate].
  assert (pointOf s' = pointOf (set_StepsVariables vars tgs)) as Hpt
    by (simpl in Hk; congruence).
  rewrite (allowsResume_point _ _ _ Hpt).
  assert (allowsResume trsteps (Some (set_StepsVariables vars tgs))
          = match GetError ss with
            | Some e => isPaused e
            | None => negb (bool_decide (CurPhase tgs = targetStepPhaseRun))
            end) as ->.
  { unfold allowsResume. simpl. rewrite Hidx. reflexivity. }
  rewrite andb_assoc. f_equal.
  destruct (GetError ss) as [e|], (bool_decide _), (ex_resumeOk a); simpl;
    try reflexivity; destruct (isPaused e); reflexivity.
Qed.

(** X8.  The examination changes nothing of a state but its step
    variables: every target of the list ends with the variables read back
    from the container for it, every state keeps its CurStep, CurPhase
    and Res, and the states of other IDs are left as they were. *)
Theorem examine_refreshes_variables (w : world) (trsteps : list stepState)
    (targets : list Target) (a a' : examined) :
  examine w trsteps targets a = Returned (inr a') →
  (∀ t, t ∈ targets →
     ∃ s, ex_states a' !! ID t = Some s
          ∧ StepsVariables s = (getTargetStepsVariables w (ID t)).1)
  ∧ (∀ id, (λ s, (tgt s, CurStep s, CurPhase s, Res s)) <$> ex_states a' !! id
           = (λ s, (tgt s, CurStep s, CurPhase s, Res s)) <$> ex_states a !! id)
  ∧ (∀ id, id ∉ (ID <$> targets) → ex_states a' !! id = ex_states a !! id).
Proof.
  revert a. induction targets as [|t targets IH]; intros a; simpl.
  { intros [= <-]. repeat split; auto. intros t Ht. inversion Ht. }
  destruct (ex_states a !! ID t) as [tgs|] eqn:Ht; [|discriminate].
  destruct (getTargetStepsVariables w (ID t)) as [vars [msg|]] eqn:Hg; [discriminate|].
  destruct (index trsteps _); [|discriminate].
  intros H. destruct (IH _ H) as (I1 & I2 & I3). simpl in I2, I3.
  split; [|split].
  - intros t' [->|Ht']%elem_of_cons; [|auto].
    destruct (decide (ID t ∈ (ID <$> targets))) as [Hin|Hnin].
    + apply list_elem_of_fmap in Hin as (t2 & Hid & Ht2).
      destruct (I1 t2 Ht2) as (s2 & Hs & Hv). rewrite <- Hid in Hs, Hv. eauto.
    + rewrite (I3 _ Hnin), lookup_insert_eq. eexists. split; [reflexivity|].
      rewrite Hg. reflexivity.
  - intros id. rewrite I2. destruct (decide (ID t = id)) as [<-|Hne].
    + rewrite lookup_insert_eq, Ht. reflexivity.
    + rewrite lookup_insert_ne by exact Hne. reflexivity.
  - intros id Hid. rewrite not_elem_of_cons in Hid. destruct Hid as [Hne Hid].
    rewrite (I3 _ Hid), lookup_insert_ne by congruence. reflexivity.
Qed.

(** * More on Run *)

Lemma set_tgt_set_tgt t t' s : set_tgt t (set_tgt t' s) = set_tgt t s.
Proof. reflexivity. Qed.

(** X9.  Seeding keeps the progress recorded in the snapshot.  The state
    of a target of the list is the state the snapshot has under its ID,
    with every field as decoded (CurStep, CurPhase, Res, step variables),
    or a new state at step 0 in phase init when the snapshot has none
    there or has null; only the live-target pointer is set, to a target
    of the list with that ID. *)
Theorem seedTargets_restores (targets : list Target)
    (m : gmap string (option targetState)) (t : Target) :
  t ∈ targets →
  ∃ t', t' ∈ targets ∧ ID t' = ID t
        ∧ seedTargets targets m !! ID t
          = Some (Some (set_tgt (Some t')
                          match m !! ID t with
                          | Some (Some s) => s
                          | _ => newTargetState
                          end)).
Proof.
  revert t. induction targets as [|t0 targets IH] using rev_ind; intros t Ht.
  { inversion Ht. }
  rewrite seedTargets_snoc. unfold seedTarget.
  destruct (decide (ID t0 = ID t)) as [Heq|Hne].
  - exists t0. split; [apply elem_of_app; right; apply list_elem_of_singleton; done|].
    split; [exact Heq|]. rewrite Heq, lookup_insert_eq.
    destruct (decide (ID t ∈ (ID <$> targets))) as [Hin|Hnin].
    + apply list_elem_of_fmap in Hin as (t1 & Hid & Ht1).
      destruct (IH t1 Ht1) as (t' & _ & _ & Hs). rewrite <- Hid in Hs.
      rewrite Hs. reflexivity.
    + rewrite (seedTargets_other _ _ _ Hnin). reflexivity.
  - apply elem_of_app in Ht as [Ht|Ht].
    2:{ apply list_elem_of_singleton in Ht. congruence. }
    destruct (IH t Ht) as (t' & Ht' & Hid & Hs).
    exists t'. split; [apply elem_of_app; left; exact Ht'|].
    split; [exact Hid|]. rewrite lookup_insert_ne by exact Hne. exact Hs.
Qed.

Lemma buildPipeline_no_states rs bundles : ∀ i trsteps,
  ∃ trsteps', buildPipeline rs [] i bundles trsteps = Returned trsteps'.
Proof.
  induction bundles as [|sb bundles IH]; intros i trsteps; simpl; [eauto|].
  apply IH.
Qed.

(** X10.  A run without any target state never returns.  With an empty
    target list and no state in the snapshot no handler is spawned, so
    nobody closes the channel of the target errors and the monitor loop
    waits forever, whatever the context does.  (The resume state, if
    any, is accepted; the step-variables container can be made.) *)
Theorem Run_without_targets_blocks (X : externals) (w : world) (tr : TestRunner)
    (bundles : list TestStepBundle) (resumeState : RawMessage)
    (rs : resumeStateStruct) :
  parseResume X resumeState = inr rs →
  Targets rs = ∅ →
  newTestStepsVariables X bundles = None →
  Run X w tr bundles [] resumeState = Blocked.
Proof.
  intros Hp Ht Hn. unfold Run, runToVerdict. rewrite Hp, Hn, Ht.
  unfold seedTargets. simpl. rewrite map_to_list_empty. simpl.
  rewrite omap_empty, map_to_list_empty.
  destruct (buildPipeline_no_states rs bundles 0 (steps tr)) as [trsteps ->].
  simpl. unfold supervise, spawnHandlers. rewrite map_imap_empty, map_to_list_empty.
  reflexivity.
Qed.

Lemma waitSteps_resumeStates_length w trsteps :
  length (waitSteps w trsteps).1.1 = length trsteps.
Proof.
  unfold waitSteps. simpl.
  destruct (waitLoop_fields w trsteps 0 (mkWaitState [] [] None [])) as (_ & -> & _).
  simpl. apply zipIndex_length.
Qed.

Lemma supervise_resumeStates X w trsteps states states1 trsteps2 srs runErr :
  supervise X w trsteps states = Returned (states1, trsteps2, srs, runErr) →
  length srs = length trsteps2.
Proof.
  unfold supervise. destruct (firstPanic _); [discriminate|].
  destruct (bool_decide _); [discriminate|].
  destruct (existsb _ _); [discriminate|].
  destruct (monitor _ _ _) as [mErr trsteps1].
  pose proof (waitSteps_length w trsteps1) as Hw.
  pose proof (waitSteps_resumeStates_length w trsteps1) as Hr.
  destruct (waitSteps w trsteps1) as [[rs err] ts2]. simpl in Hw, Hr.
  intros [= <- <- <- <-]. congruence.
Qed.

(** X11.  What a paused run hands back.  When [Run] returns Paused, the
    outer context was paused and the snapshot is what [json.Marshal] gave
    for a resume state of the current version, with one step resume state
    per step of the pipeline and a state, not null, for every target of
    the list; the results map is there as well. *)
Theorem Run_paused_snapshot (X : externals) (w : world) (tr : TestRunner)
    (bundles : list TestStepBundle) (targets : list Target)
    (resumeState : RawMessage) (r : runReturn) :
  Run X w tr bundles targets resumeState = Returned r →
  ret_err r = Some ErrPaused →
  ctxPaused w = true
  ∧ is_Some (ret_targetsResults r)
  ∧ ∃ rs, json_Marshal X rs = inr (ret_resumeState r)
          ∧ Version rs = resumeStateStructVersion
          ∧ length (StepResumeState rs) = length (ret_steps r)
          ∧ ∀ t, t ∈ targets → ∃ s, Targets rs !! ID t = Some (Some s).
Proof.
  intros H He. apply Run_cases in H as [H | (v & Hv & ->)].
  { apply runToVerdict_early in H as [text Hr]. rewrite Hr in He. discriminate. }
  pose proof (runToVerdict_runErr _ _ _ _ _ _ _ Hv) as [Hnp _].
  revert Hv. unfold runToVerdict.
  destruct (parseResume X resumeState) as [e|rs0]; [discriminate|].
  destruct (newTestStepsVariables X bundles); [discriminate|].
  intros H. apply bind_Returned in H as (inited & _ & H).
  destruct inited; [discriminate|].
  apply bind_Returned in H as (trsteps & _ & H).
  apply bind_Returned in H as ([[[states1 trsteps2] srs] runErr] & Hs & H).
  apply bind_Returned in H as (ex & Hex & H).
  destruct ex as [e|a]; [discriminate|]. injection H as <-.
  simpl in *. apply supervise_resumeStates in Hs.
  apply examine_present in Hex as [_ Hpres].
  unfold conclude in *. destruct runErr as [e|].
  { simpl in He. congruence. }
  destruct (ctxPaused w); [|discriminate].
  destruct (ex_resumeOk a); [|discriminate].
  destruct (json_Marshal X _) as [msg|bytes] eqn:Hm; [discriminate|].
  simpl. split; [reflexivity|]. split; [eauto|].
  eexists. split; [exact Hm|]. simpl. split; [reflexivity|]. split; [exact Hs|].
  intros t Ht. destruct (Hpres t Ht) as [s Hs']. exists s.
  rewrite lookup_fmap, Hs'. reflexivity.
Qed.

(** * Handlers and the left-targets count of the steps *)

Section HandlerNil.
Variable X : externals.
Variable trsteps : list stepState.
Variable sc : Z → iteration.

(** A loop that returns nil on a target that has no result, and was not
    stopped at the head of a step, has gone through the last step. *)
Lemma handleLoop_nil rem : ∀ tgs lastDec,
  rem ≠ O →
  CurStep tgs = len trsteps - Z.of_nat rem →
  CurPhase tgs ≠ targetStepPhaseEnd →
  let o := handleLoop X trsteps sc rem tgs lastDec in
  out_ret o = Returned None →
  Res (out_tgs o) = None →
  early (sc (CurStep (out_tgs o))) = EarlyNone →
  CurStep (out_tgs o) = len trsteps - 1
  ∧ (CurPhase (out_tgs o) = targetStepPhaseEnd
     ∨ (CurPhase (out_tgs o) = targetStepPhaseRun
        ∧ await (sc (len trsteps - 1)) = StepStopped None)).
Proof.
  induction rem as [|rem IH]; intros tgs lastDec Hrem Hi Hph; cbn zeta; [done|].
  cbn [handleLoop].
  set (i := len trsteps - Z.of_nat (S rem)) in *.
  destruct (early (sc i)) eqn:Hearly.
  1,2: simpl; intros _ _ He; rewrite Hi, Hearly in He; discriminate.
  destruct (index trsteps i); [|discriminate].
  pose proof (phaseSwitch_inv tgs) as Hsw.
  destruct (phaseSwitch tgs) as [tgs1 pts1| |]; [|contradiction|discriminate].
  destruct Hsw as (R1 & S1 & P1).
  destruct (startAndInject (sc i) i) as [err calls0].
  destruct err as [e'|]; [rewrite out_ret_logged; discriminate|].
  pose proof (markInjected_inv tgs1 P1) as (R2 & S2 & P2).
  destruct (markInjected tgs1) as [tgs2 pts2]. simpl in R2, S2, P2.
  destruct (awaitResult (sc i) tgs2) as [[[tgs3 pts3] err]|] eqn:Haw;
    [|rewrite out_ret_logged; discriminate].
  apply awaitResult_inv in Haw as (S3 & Haw).
  destruct err as [e'|]; [rewrite out_ret_logged; discriminate|].
  destruct (Res tgs3) eqn:R3.
  { rewrite out_ret_logged, out_tgs_logged. simpl. congruence. }
  pose proof (nextStep_inv (len trsteps) i tgs3) as (R4 & N4).
  unfold nextStep in *. case_decide as Hlt; simpl in R4, N4.
  - rewrite out_ret_logged, out_tgs_logged.
    destruct (N4 Hlt) as [N5 N6].
    apply IH; simpl; [subst i; lia | subst i; lia | phases; lia].
  - assert (rem = O) as -> by (subst i; lia).
    rewrite out_ret_logged, out_tgs_logged. simpl. intros _ _ _.
    assert (CurStep tgs3 = i) as Hc by congruence.
    split; [subst i; lia|].
    destruct Haw as [(res & _ & _ & P3 & _)|[-> [Hst|(ce & _ & ?)]]];
      [left; exact P3 | right | discriminate].
    split; [exact P2|]. replace (len trsteps - 1) with i by (subst i; lia).
    exact Hst.
Qed.
End HandlerNil.

(** X12.  What a nil return of a handler means.  When a handler that
    found its target at a step of the pipeline, not in phase end, returns
    nil, then the target failed (its result is set), or the pause or the
    cancellation was seen at the head of the step the target is left at,
    or the target is at the last step: in phase end, having passed, or
    still in phase run when that step stopped without an error. *)
Theorem handleTarget_nil_return (X : externals) (trsteps : list stepState)
    (sc : Z → iteration) (tgs : targetState) :
  CurStep tgs < len trsteps →
  CurPhase tgs ≠ targetStepPhaseEnd →
  let o := handleTarget X trsteps sc tgs in
  out_ret o = Returned None →
  is_Some (Res (out_tgs o))
  ∨ early (sc (CurStep (out_tgs o))) ≠ EarlyNone
  ∨ (CurStep (out_tgs o) = len trsteps - 1
     ∧ (CurPhase (out_tgs o) = targetStepPhaseEnd
        ∨ (CurPhase (out_tgs o) = targetStepPhaseRun
           ∧ await (sc (len trsteps - 1)) = StepStopped None))).
Proof.
  intros Hlt Hph. cbn zeta. intros H.
  apply handleTarget_loop in H as (_ & Hret & -> & _). cbn zeta in Hret.
  set (rem := Z.to_nat (len trsteps - CurStep tgs)) in *.
  destruct (Res (out_tgs _)) eqn:Hres; [left; eauto|].
  destruct (early (sc (CurStep (out_tgs
              (handleLoop X trsteps sc rem tgs (CurStep tgs - 1)))))) eqn:He;
    [right; left; done..|].
  right. right.
  apply (handleLoop_nil X trsteps sc rem tgs (CurStep tgs - 1));
    try assumption; subst rem; lia.
Qed.

Lemma map_to_list_imap_perm {A B} (f : string → A → B) (m : gmap string A) :
  map_to_list (map_imap (λ id x, Some (f id x)) m)
  ≡ₚ (λ p, (p.1, f p.1 p.2)) <$> map_to_list m.
Proof.
  induction m as [|id x m Hid IH] using map_ind.
  { rewrite map_imap_empty, !map_to_list_empty. reflexivity. }
  rewrite (map_imap_insert_Some _ _ _ _ (f id x)) by reflexivity.
  rewrite !map_to_list_insert; [|exact Hid|].
  - simpl. rewrite IH. reflexivity.
  - rewrite map_lookup_imap, Hid. reflexivity.
Qed.

Lemma count_NoDup (i : Z) (l : list Z) :
  NoDup l → length (filter (λ j, j = i) l) = if decide (i ∈ l) then 1%nat else 0%nat.
Proof.
  induction 1 as [|x l Hx Hl IH]; [reflexivity|].
  rewrite filter_cons. destruct (decide (x = i)) as [->|Hne].
  - simpl. rewrite IH, decide_False by exact Hx.
    rewrite decide_True by (left). reflexivity.
  - rewrite IH. destruct (decide (i ∈ l)) as [Hin|Hnin].
    + rewrite decide_True by (right; exact Hin). reflexivity.
    + rewrite decide_False; [reflexivity|].
      intros [->|Hin]%elem_of_cons; contradiction.
Qed.

Lemma buildPipeline_leftTargets rs states bundles : ∀ i pre trsteps,
  buildPipeline rs states i bundles pre = Returned trsteps →
  ∃ l, trsteps = pre ++ l
       ∧ length l = length bundles
       ∧ ∀ j ss, l !! j = Some ss →
                 ssIndex ss = i + Z.of_nat j
                 ∧ leftTargets ss = stepTargetsCount (i + Z.of_nat j) states.
Proof.
  induction bundles as [|sb bundles IH]; intros i pre trsteps; simpl.
  { intros [= <-]. exists []. rewrite app_nil_r.
    split; [reflexivity|]. split; [reflexivity|]. intros j ss Hj. discriminate. }
  intros H. apply bind_Returned in H as (ts & _ & H).
  apply IH in H as (l & -> & Hlen & Hl).
  eexists (_ :: l). rewrite <- app_assoc. split; [reflexivity|].
  split; [simpl; congruence|].
  intros [|j] ss Hj; simpl in Hj.
  - injection Hj as <-. simpl. rewrite Z.add_0_r. auto.
  - destruct (Hl j ss Hj) as [H1 H2].
    replace (i + Z.of_nat (S j)) with (i + 1 + Z.of_nat j) by lia. auto.
Qed.

(** X13.  The count a step is created with is the number of decrements
    it gets.  In the pipeline a new runner builds, the step at index [k]
    starts with as many left targets as there are target states with
    CurStep at most [k]; when every handler returns, that is exactly the
    number of [DecreaseLeftTargets] calls the handlers make on it, so the
    count of every step comes down to zero and not below. *)
Theorem Run_leftTargets_balance (X : externals) (w : world)
    (rs : resumeStateStruct) (states : gmap string targetState)
    (bundles : list TestStepBundle) (trsteps : list stepState)
    (k : nat) (ss : stepState) :
  buildPipeline rs (map_to_list states) 0 bundles (steps NewTestRunner)
    = Returned trsteps →
  (∀ id o, spawnHandlers X w trsteps states !! id = Some o →
           ∃ e, out_ret o = Returned e) →
  trsteps !! k = Some ss →
  leftTargets ss = decrementsAt (Z.of_nat k) (spawnHandlers X w trsteps states).
Proof.
  intros Hb Hret Hk.
  apply buildPipeline_leftTargets in Hb as (l & -> & Hlen & Hl).
  simpl in *. destruct (Hl k ss Hk) as [_ ->]. rewrite Z.add_0_l.
  assert (Z.of_nat k < len l) as Hlt.
  { apply lookup_lt_Some in Hk. unfold len. lia. }
  unfold decrementsAt, spawnHandlers at 1, stepTargetsCount, len.
  rewrite map_to_list_imap_perm. f_equal.
  assert (∀ id s, (id, s) ∈ map_to_list states →
                  ∃ e, out_ret (handleTarget X l (script w id) s) = Returned e) as Hall.
  { intros id s Hin. apply elem_of_map_to_list in Hin.
    apply (Hret id). rewrite spawnHandlers_lookup, Hin. reflexivity. }
  clear Hl Hret Hk Hlen.
  induction (map_to_list states) as [|[id s] sts IH]; [reflexivity|].
  rewrite fmap_cons, filter_cons. cbn [sum_list_with fst snd].
  destruct (Hall id s) as [e He]; [left|].
  unfold decrementsOf at 1. rewrite (handleTarget_decreased _ _ _ _ _ He).
  rewrite count_NoDup by apply NoDup_seqZ.
  rewrite <- IH by (intros id' s' Hin; apply Hall; right; exact Hin).
  destruct (decide (CurStep s ≤ Z.of_nat k)) as [Hle|Hgt].
  - rewrite decide_True; [reflexivity|]. apply elem_of_seqZ. lia.
  - rewrite decide_False; [reflexivity|]. rewrite elem_of_seqZ. lia.
Qed.

(** * A run in which nothing goes wrong *)

Lemma handleTarget_passing X trsteps sc tgs :
  is_Some (tgt tgs) →
  0 ≤ CurStep tgs < len trsteps →
  CurPhase tgs = targetStepPhaseInit ∨ CurPhase tgs = targetStepPhaseBegin
    ∨ CurPhase tgs = targetStepPhaseRun →
  Res tgs = None →
  (∀ i, early (sc i) = EarlyNone ∧ stepRunErr (sc i) = None
        ∧ injectErr (sc i) = None ∧ await (sc i) = GotResult None) →
  let o := handleTarget X trsteps sc tgs in
  out_ret o = Returned None
  ∧ pointOf (out_tgs o) = (len trsteps - 1, targetStepPhaseEnd)
  ∧ Res (out_tgs o) = None.
Proof.
  intros [t Ht] Hc Hph Hres Hsc. cbn zeta. unfold handleTarget. rewrite Ht.
  set (rem := Z.to_nat (len trsteps - CurStep tgs)).
  destruct (handleLoop_passing X trsteps sc rem tgs (CurStep tgs - 1))
    as (H1 & H2 & H3); try assumption; try (subst rem; lia).
  cbn zeta in H1, H2, H3.
  pose proof (handleLoop_failure X trsteps sc rem tgs (CurStep tgs - 1)) as HF.
  cbn zeta in HF.
  set (o := handleLoop X trsteps sc rem tgs (CurStep tgs - 1)) in *.
  rewrite H1, H3. unfold deferredCalls. rewrite decide_False by lia. simpl.
  split; [reflexivity|]. split; [exact H2|].
  destruct (Res (out_tgs o)) as [r|] eqn:Hr; [|reflexivity].
  destruct (HF r) as (_ & _ & Ha & _); [subst rem; lia | exact Hres | reflexivity |].
  destruct (Hsc (CurStep (out_tgs o))) as (_ & _ & _ & Ha'). congruence.
Qed.

Lemma collectResumeTargets_live i l :
  Forall (λ p, is_Some (tgt p.2)) l → ∃ ts, collectResumeTargets i l = Returned ts.
Proof.
  induction 1 as [|[id s] l [t Ht] Hl [ts IH]]; simpl; [eauto|].
  simpl in Ht. case_decide; [|eauto]. rewrite Ht, IH. simpl. eauto.
Qed.

Lemma buildPipeline_live rs states bundles : ∀ i trsteps,
  Forall (λ p, is_Some (tgt p.2)) states →
  ∃ trsteps', buildPipeline rs states i bundles trsteps = Returned trsteps'
              ∧ len trsteps' = len trsteps + len bundles.
Proof.
  intros i trsteps Hl.
  destruct (buildPipeline_cases rs states bundles i trsteps) as [H|H]; [|exact H].
  exfalso. revert i trsteps H.
  induction bundles as [|sb bundles IH]; intros i trsteps; simpl; [discriminate|].
  destruct (collectResumeTargets_live i states Hl) as [ts ->]. simpl. apply IH.
Qed.

Lemma monitor_quiet msgs trsteps :
  Forall (λ m, m = None) msgs → monitor msgs None trsteps = (None, trsteps).
Proof. induction 1 as [|m msgs -> _ IH]; simpl; [reflexivity | exact IH]. Qed.

Lemma waitLoop_quiet w l : ∀ k a,
  (∀ j, (waitResults w j).2 = None ∧ resErr (waitResults w j).1 = None) →
  waitLoop w k l a
  = mkWaitState (stepsNeverReturned a)
      (resumeStates a ++ zipIndex (waitResume w) k l) (wResultErr a) (wSteps a ++ l).
Proof.
  intros k a Hq. revert k a. induction l as [|ss l IH]; intros k a; simpl.
  { rewrite !app_nil_r. destruct a; reflexivity. }
  rewrite IH. unfold waitStep, waitResume. destruct (Hq k) as [H1 H2].
  destruct (Started ss); simpl.
  - destruct (waitResults w k) as [result err]. simpl in *. subst err. simpl.
    rewrite H2, <- !app_assoc. destruct (wResultErr a); reflexivity.
  - rewrite <- !app_assoc. reflexivity.
Qed.

Lemma examine_succeeds w trsteps targets : ∀ a,
  (∀ t, t ∈ targets → (getTargetStepsVariables w (ID t)).2 = None) →
  (∀ t, t ∈ targets →
     ∃ s, ex_states a !! ID t = Some s ∧ 0 ≤ CurStep s < len trsteps) →
  ∃ a', examine w trsteps targets a = Returned (inr a').
Proof.
  induction targets as [|t targets IH]; intros a Hget Hst; simpl; [eauto|].
  destruct (Hst t) as (s & -> & Hc); [left|].
  pose proof (Hget t ltac:(left)) as Hg.
  destruct (getTargetStepsVariables w (ID t)) as [vars err]. simpl in Hg. subst err.
  simpl. destruct (index_is_Some trsteps (CurStep s) Hc) as [ss ->].
  apply IH.
  - intros t' Ht'. apply Hget. right. exact Ht'.
  - intros t' Ht'. simpl. destruct (decide (ID t = ID t')) as [Heq|Hne].
    + rewrite Heq, lookup_insert_eq. eexists. split; [reflexivity|]. exact Hc.
    + rewrite lookup_insert_ne by exact Hne. apply Hst. right. exact Ht'.
Qed.

Lemma seedTargets_fresh targets id :
  seedTargets targets ∅ !! id
  = if decide (id ∈ (ID <$> targets))
    then Some (Some (set_tgt (Some (mkTarget id)) newTargetState))
    else None.
Proof.
  induction targets as [|t targets IH] using rev_ind; [reflexivity|].
  rewrite seedTargets_snoc, fmap_app. unfold seedTarget. simpl.
  destruct (decide (ID t = id)) as [<-|Hne].
  - rewrite lookup_insert_eq, IH.
    rewrite (decide_True (P := ID t ∈ (ID <$> targets) ++ [ID t])).
    2:{ apply elem_of_app. right. left. }
    destruct t as [tid]; simpl.
    destruct (decide (tid ∈ (ID <$> targets))); reflexivity.
  - rewrite lookup_insert_ne by exact Hne. rewrite IH.
    destruct (decide (id ∈ (ID <$> targets))) as [Hin|Hnin].
    + rewrite decide_True; [reflexivity|]. apply elem_of_app. left. exact Hin.
    + rewrite decide_False; [reflexivity|].
      intros [Hin|Hin]%elem_of_app; [contradiction|].
      apply list_elem_of_singleton in Hin. congruence.
Qed.

(** X14.  The run in which nothing goes wrong.  A new runner with at
    least one step and one target, started without a resume state, in
    which every step lets every target through, no step reports an error
    or fails to return, and nobody pauses or cancels, returns a nil run
    error, the empty snapshot, and a results map that holds the nil error
    for every target of the list and nothing else. *)
Theorem Run_all_pass (X : externals) (w : world)
    (bundles : list TestStepBundle) (targets : list Target) :
  bundles ≠ [] → targets ≠ [] →
  newTestStepsVariables X bundles = None →
  (∀ id v, initTargetStepsVariables X id v = None) →
  (∀ t i, t ∈ targets →
     early (script w (ID t) i) = EarlyNone ∧ stepRunErr (script w (ID t) i) = None
     ∧ injectErr (script w (ID t) i) = None
     ∧ await (script w (ID t) i) = GotResult None) →
  (∀ e, FromStep e ∉ arrivals w) →
  (∀ k, (waitResults w k).2 = None ∧ resErr (waitResults w k).1 = None) →
  ctxDone w = false → ctxPaused w = false →
  (∀ t, t ∈ targets → (getTargetStepsVariables w (ID t)).2 = None) →
  ∃ r m, Run X w NewTestRunner bundles targets "" = Returned r
         ∧ ret_err r = None
         ∧ ret_resumeState r = nilRaw
         ∧ ret_targetsResults r = Some m
         ∧ ∀ id, m !! id = if decide (id ∈ (ID <$> targets)) then Some None else None.
Proof.
  intros Hb Ht Hnew Hinit Hsc Harr Hwait Hdone Hpaused Hget.
  unfold Run, runToVerdict, parseResume. rewrite decide_True by reflexivity.
  cbn [Targets]. rewrite Hnew.
  set (seeded := seedTargets targets ∅).
  assert (∀ id v, seeded !! id = Some v →
            id ∈ (ID <$> targets)
            ∧ v = Some (set_tgt (Some (mkTarget id)) newTargetState)) as Hseed.
  { intros id v. unfold seeded. rewrite seedTargets_fresh.
    case_decide; [|discriminate]. intros [= <-]. auto. }
  rewrite initAllStepsVariables_ok.
  2: exact Hinit.
  2:{ apply Forall_forall. intros [id v] Hin. apply elem_of_map_to_list in Hin.
      apply Hseed in Hin as [_ ->]. simpl. eauto. }
  cbn [mbind outcome_bind].
  set (states := omap id seeded).
  assert (∀ sid, states !! sid
                 = if decide (sid ∈ (ID <$> targets))
                   then Some (set_tgt (Some (mkTarget sid)) newTargetState)
                   else None) as Hstates.
  { intros sid. unfold states, seeded. rewrite lookup_omap, seedTargets_fresh.
    case_decide; reflexivity. }
  destruct (buildPipeline_live (mkResumeState 0 ∅ []) (map_to_list states) bundles 0
              (steps NewTestRunner)) as (trsteps & -> & Hlen).
  { apply Forall_forall. intros [sid s] Hin. apply elem_of_map_to_list in Hin.
    rewrite Hstates in Hin. case_decide; [|discriminate].
    injection Hin as <-. simpl. eauto. }
  cbn [mbind outcome_bind].
  assert (0 < len trsteps) as Hpos.
  { rewrite Hlen. unfold len. simpl. destruct bundles; [done|simpl; lia]. }
  (* the handlers *)
  assert (∀ sid o, spawnHandlers X w trsteps states !! sid = Some o →
            sid ∈ (ID <$> targets)
            ∧ out_ret o = Returned None
            ∧ pointOf (out_tgs o) = (len trsteps - 1, targetStepPhaseEnd)
            ∧ Res (out_tgs o) = None) as Hhs.
  { intros sid o. rewrite spawnHandlers_lookup, Hstates.
    case_decide as Hin; [|discriminate]. intros [= <-]. split; [exact Hin|].
    apply list_elem_of_fmap in Hin as (t & -> & Hin).
    apply handleTarget_passing; simpl; eauto; lia. }
  unfold supervise.
  set (hs := spawnHandlers X w trsteps states) in *.
  assert (Forall (λ p, out_ret p.2 = Returned None) (map_to_list hs)) as Hret.
  { apply Forall_forall. intros [sid o] Hin. apply elem_of_map_to_list in Hin.
    apply Hhs in Hin. tauto. }
  destruct (firstPanic_none _ Hret) as [-> Hbl].
  rewrite bool_decide_eq_false_2.
  2:{ destruct targets as [|t0 rest]; [done|]. intros Hnil.
      assert (is_Some (hs !! ID t0)) as [o Ho].
      { unfold hs. rewrite spawnHandlers_lookup, Hstates.
        rewrite decide_True by (simpl; left). simpl. eauto. }
      apply elem_of_map_to_list in Ho. rewrite Hnil in Ho. inversion Ho. }
  rewrite Hbl.
  rewrite monitor_quiet.
  2:{ apply Forall_forall. intros msg Hmsg.
      apply list_elem_of_omap in Hmsg as (a & Ha & Hrec).
      destruct a as [sid|e]; [|destruct (Harr e Ha)].
      simpl in Hrec. destruct (hs !! sid) as [o|] eqn:Ho; [|discriminate].
      apply Hhs in Ho as (_ & Ho & _). simpl in Hrec. rewrite Ho in Hrec.
      congruence. }
  unfold waitSteps. rewrite waitLoop_quiet by exact Hwait.
  cbn [stepsNeverReturned wResultErr resumeStates wSteps app mergeErr].
  rewrite Hdone. cbn [mbind outcome_bind].
  (* the examination *)
  set (states1 := out_tgs <$> hs).
  assert (∀ sid s, states1 !! sid = Some s →
            sid ∈ (ID <$> targets)
            ∧ pointOf s = (len trsteps - 1, targetStepPhaseEnd) ∧ Res s = None) as Hs1.
  { intros sid s. unfold states1. rewrite lookup_fmap.
    destruct (hs !! sid) as [o|] eqn:Ho; [|discriminate].
    intros [= <-]. apply Hhs in Ho. tauto. }
  assert (∀ sid, sid ∈ (ID <$> targets) → is_Some (states1 !! sid)) as Hs1'.
  { intros sid Hin. unfold states1, hs.
    rewrite lookup_fmap, spawnHandlers_lookup, Hstates, decide_True by exact Hin.
    simpl. eauto. }
  assert (len (observeSteps w trsteps) = len trsteps) as Hobs.
  { unfold len, observeSteps. rewrite length_imap. reflexivity. }
  destruct (examine_succeeds w (observeSteps w trsteps) targets
              (mkExamined states1 true 0)) as [a' Hex].
  { exact Hget. }
  { intros t Hin. simpl.
    destruct (Hs1' (ID t)) as [s Hs]; [apply list_elem_of_fmap; eauto|].
    exists s. split; [exact Hs|]. apply Hs1 in Hs as (_ & Hp & _).
    injection Hp as Hp _. rewrite Hobs. lia. }
  rewrite Hex. cbn [mbind outcome_bind v_steps v_stepResumeStates v_runErr v_examined].
  unfold conclude. rewrite Hpaused.
  eexists _, _. split; [reflexivity|]. cbn [ret_err ret_resumeState ret_targetsResults].
  split; [reflexivity|]. split; [reflexivity|]. split; [reflexivity|].
  intros sid. unfold targetsResults. rewrite lookup_omap.
  pose proof (examine_keeps _ _ _ _ _ Hex sid) as Hk. cbn [ex_states] in Hk.
  destruct (decide (sid ∈ (ID <$> targets))) as [Hin|Hnin].
  - destruct (Hs1' sid Hin) as [s Hs]. rewrite Hs in Hk.
    destruct (ex_states a' !! sid) as [s'|]; [|discriminate].
    simpl in Hk. apply Hs1 in Hs as (_ & Hp & Hr).
    assert (pointOf s' = (len trsteps - 1, targetStepPhaseEnd) ∧ Res s' = None)
      as [Hp' Hr'] by (split; congruence).
    injection Hp' as Hc' Hph'.
    simpl. unfold targetResult. rewrite Hr', decide_True; [reflexivity|].
    rewrite Hobs. auto.
  - destruct (states1 !! sid) as [s|] eqn:Hs.
    { apply Hs1 in Hs as [Hin _]. contradiction. }
    destruct (ex_states a' !! sid); [discriminate|reflexivity].
Qed.

(** * Precedence of the errors, bounds, names, and resuming a handler *)

(** X15.  Which error [Run] goes on with after the handlers, the monitor
    and [waitSteps]: Canceled when the outer context is found canceled;
    else the first fatal error the monitor received from a handler or a
    step; else the error of [waitSteps] on the steps as they were left.
    An error seen by the monitor hides whatever [waitSteps] reports. *)
Theorem supervise_error_precedence (X : externals) (w : world)
    (trsteps : list stepState) (states : gmap string targetState)
    (states1 : gmap string targetState) (trsteps2 : list stepState)
    (srs : list RawMessage) (runErr : option error) :
  supervise X w trsteps states = Returned (states1, trsteps2, srs, runErr) →
  runErr
  = if ctxDone w then Some ErrCanceled
    else match firstFatal (omap (received (spawnHandlers X w trsteps states))
                             (arrivals w)) with
         | Some e => Some e
         | None => (waitSteps w (observeSteps w trsteps)).1.2
         end.
Proof.
  unfold supervise. destruct (firstPanic _); [discriminate|].
  destruct (bool_decide _); [discriminate|].
  destruct (existsb _ _); [discriminate|].
  rewrite monitor_firstFatal.
  destruct (firstFatal _) as [e|].
  - destruct (waitSteps w _) as [[rs err] ts2]. intros [= <- <- <- <-].
    destruct (ctxDone w); [reflexivity|]. destruct err; reflexivity.
  - destruct (waitSteps w _) as [[rs err] ts2]. intros [= <- <- <- <-].
    destruct (ctxDone w); [reflexivity|]. destruct err; reflexivity.
Qed.

(** X16.  Nothing checks the CurStep of a state: a handler given a state
    with a negative CurStep panics, on the index of a step, in the loop or
    in the deferred function, or on the nil target pointer; it never
    returns. *)
Theorem handleTarget_negative_CurStep (X : externals) (trsteps : list stepState)
    (sc : Z → iteration) (tgs : targetState) :
  CurStep tgs < 0 →
  ∃ m, out_ret (handleTarget X trsteps sc tgs) = Panic m.
Proof.
  intros Hneg. unfold handleTarget. destruct (tgt tgs); [|simpl; eauto].
  assert (0 ≤ len trsteps) as Hlen by (unfold len; lia).
  destruct (Z.to_nat (len trsteps - CurStep tgs)) as [|rem] eqn:Hrem; [lia|].
  cbn [handleLoop].
  assert (index trsteps (len trsteps - Z.of_nat (S rem)) = None) as ->.
  { unfold index. rewrite decide_False by lia. reflexivity. }
  assert (deferredCalls trsteps (CurStep tgs - 1) = Panic indexOutOfRange) as Hd.
  { unfold deferredCalls. rewrite decide_True by lia.
    rewrite decide_False by lia. reflexivity. }
  destruct (early _); simpl; rewrite Hd; simpl; eauto.
Qed.

Lemma append_inv_tail (c : ascii) (s1 s2 : string) :
  s1 +:+ String c "" = s2 +:+ String c "" → s1 = s2.
Proof.
  revert s2. induction s1 as [|a s1 IH]; intros [|b s2]; simpl; intros H.
  - reflexivity.
  - injection H as _ H. destruct s2; discriminate.
  - injection H as _ H. destruct s1; discriminate.
  - injection H as -> H. f_equal. apply IH, H.
Qed.

(** X17.  The names of the phases tell them apart: two phase values,
    known or not, with the same [String()] are the same value. *)
Theorem targetStepPhase_String_inj (p q : targetStepPhase) :
  targetStepPhase_String p = targetStepPhase_String q → p = q.
Proof.
  unfold targetStepPhase_String. phases.
  repeat case_decide; subst; try reflexivity; try discriminate.
  simpl. intros [= Heq]. apply append_inv_tail in Heq.
  exact (pretty_Z_inj _ _ Heq).
Qed.

Section HandlerResume.
Variable X : externals.
Variable trsteps : list stepState.
Variable sc : Z → iteration.
Hypothesis Hsc : ∀ i, stepRunErr (sc i) = None ∧ injectErr (sc i) = None
                      ∧ await (sc i) = GotResult None.

(** A loop whose steps let the target through, but which may see the
    pause or the cancellation at the head of a step, returns nil and
    leaves the target done, or at a step of the pipeline where a handler
    can pick it up again. *)
Lemma handleLoop_interrupted rem : ∀ tgs lastDec,
  rem ≠ O →
  CurStep tgs = len trsteps - Z.of_nat rem →
  0 ≤ CurStep tgs →
  CurPhase tgs = targetStepPhaseInit ∨ CurPhase tgs = targetStepPhaseBegin
    ∨ CurPhase tgs = targetStepPhaseRun →
  Res tgs = None →
  let o := handleLoop X trsteps sc rem tgs lastDec in
  out_ret o = Returned None
  ∧ tgt (out_tgs o) = tgt tgs
  ∧ Res (out_tgs o) = None
  ∧ (out_lastDecremented o = lastDec ∨ 0 ≤ out_lastDecremented o)
  ∧ (pointOf (out_tgs o) = (len trsteps - 1, targetStepPhaseEnd)
     ∨ (0 ≤ CurStep (out_tgs o) < len trsteps
        ∧ (CurPhase (out_tgs o) = targetStepPhaseInit
           ∨ CurPhase (out_tgs o) = targetStepPhaseBegin
           ∨ CurPhase (out_tgs o) = targetStepPhaseRun))).
Proof.
  induction rem as [|rem IH]; intros tgs lastDec Hrem Hi Hnn Hph Hres; [done|].
  cbn zeta. cbn [handleLoop].
  set (i := len trsteps - Z.of_nat (S rem)) in *.
  assert (0 ≤ i < len trsteps) as Hin by (unfold len in *; lia).
  destruct (early (sc i)).
  1,2: simpl; split; [reflexivity|]; split; [reflexivity|]; split; [exact Hres|];
    split; [left; reflexivity|]; right; split; [lia | exact Hph].
  destruct (Hsc i) as (Hr & Hj & Ha).
  destruct (index_is_Some trsteps i Hin) as [ss ->].
  destruct tgs as [t cs cp r v]; simpl in *. subst r cs.
  assert (∃ tgs1 pts1, phaseSwitch (mkTargetState t i cp None v) = SwContinue tgs1 pts1
            ∧ (tgs1 = mkTargetState t i targetStepPhaseBegin None v
               ∨ tgs1 = mkTargetState t i targetStepPhaseRun None v))
    as (tgs1 & pts1 & -> & Ht1).
  { unfold phaseSwitch; simpl. destruct Hph as [->| [->| ->]]; phases;
      repeat case_decide; try lia; eauto. }
  unfold startAndInject. rewrite Hr, Hj.
  assert (markInjected tgs1 = (mkTargetState t i targetStepPhaseRun None v,
                               if decide (CurPhase tgs1 = targetStepPhaseBegin)
                               then [(i, targetStepPhaseRun)] else [])) as ->.
  { unfold markInjected. destruct Ht1 as [-> | ->]; simpl; phases;
      repeat case_decide; try lia; reflexivity. }
  unfold awaitResult. rewrite Ha. cbn [Res set_CurPhase].
  unfold nextStep. case_decide as Hlt.
  - rewrite out_ret_logged, out_tgs_logged, out_lastDecremented_logged.
    destruct (IH (set_CurPhase targetStepPhaseInit
                    (set_CurStep (i + 1)
                       (mkTargetState t i targetStepPhaseEnd None v))) i)
      as (I1 & I2 & I3 & I4 & I5); simpl; auto; try lia.
    cbn zeta in *. simpl in I2.
    split; [exact I1|]. split; [exact I2|]. split; [exact I3|].
    split; [|exact I5]. right. destruct I4 as [I4|I4]; [|exact I4].
    etransitivity; [exact Hnn|]. apply Z.eq_le_incl. symmetry. exact I4.
  - assert (rem = O) as -> by lia.
    rewrite out_ret_logged, out_tgs_logged, out_lastDecremented_logged.
    simpl. split; [reflexivity|]. split; [reflexivity|]. split; [reflexivity|].
    split; [right; lia|]. left. unfold pointOf; simpl. f_equal; lia.
Qed.
End HandlerResume.

(** X18.  Stopping a handler at the head of a step and starting another
    on the state it left loses nothing.  Take a target at a step of the
    pipeline, not failed and not in phase end, and steps that let it
    through.  A first handler, which may see the pause or the cancellation
    at the head of any step, returns nil; a second handler started on the
    state the first one left, and not interrupted, returns nil as well and
    leaves the target at the last step in phase end, without a result:
    where an uninterrupted handler would have left it. *)
Theorem handleTarget_resume_completes (X : externals) (trsteps : list stepState)
    (sc1 sc2 : Z → iteration) (tgs : targetState) :
  is_Some (tgt tgs) →
  0 ≤ CurStep tgs < len trsteps →
  CurPhase tgs = targetStepPhaseInit ∨ CurPhase tgs = targetStepPhaseBegin
    ∨ CurPhase tgs = targetStepPhaseRun →
  Res tgs = None →
  (∀ i, stepRunErr (sc1 i) = None ∧ injectErr (sc1 i) = None
        ∧ await (sc1 i) = GotResult None) →
  (∀ i, early (sc2 i) = EarlyNone ∧ stepRunErr (sc2 i) = None
        ∧ injectErr (sc2 i) = None ∧ await (sc2 i) = GotResult None) →
  let o1 := handleTarget X trsteps sc1 tgs in
  let o2 := handleTarget X trsteps sc2 (out_tgs o1) in
  out_ret o1 = Returned None
  ∧ out_ret o2 = Returned None
  ∧ pointOf (out_tgs o2) = (len trsteps - 1, targetStepPhaseEnd)
  ∧ Res (out_tgs o2) = None.
Proof.
  intros [t Ht] Hc Hph Hres H1 H2. cbn zeta.
  set (rem := Z.to_nat (len trsteps - CurStep tgs)).
  destruct (handleLoop_interrupted X trsteps sc1 H1 rem tgs (CurStep tgs - 1))
    as (I1 & I2 & I3 & I4 & I5); try assumption; try (subst rem; lia).
  cbn zeta in *.
  assert (out_ret (handleTarget X trsteps sc1 tgs) = Returned None
          ∧ out_tgs (handleTarget X trsteps sc1 tgs)
            = out_tgs (handleLoop X trsteps sc1 rem tgs (CurStep tgs - 1)))
    as [R1 ->].
  { unfold handleTarget. rewrite Ht. fold rem. rewrite I1.
    unfold deferredCalls. case_decide; [rewrite decide_True by lia|]; simpl; auto. }
  split; [exact R1|].
  set (s1 := out_tgs (handleLoop X trsteps sc1 rem tgs (CurStep tgs - 1))) in *.
  destruct I5 as [Hend | [Hc1 Hph1]].
  - (* the first handler went through: the second finds phase end *)
    injection Hend as Hcs Hcp.
    unfold handleTarget. rewrite I2, Ht.
    destruct (Z.to_nat (len trsteps - CurStep s1)) as [|rem2] eqn:Hrem2; [lia|].
    cbn [handleLoop].
    replace (len trsteps - Z.of_nat (S rem2)) with (CurStep s1) by lia.
    destruct (H2 (CurStep s1)) as (-> & _).
    destruct (index_is_Some trsteps (CurStep s1)) as [ss ->]; [lia|].
    unfold phaseSwitch. rewrite Hcp. phases.
    repeat (case_decide; [lia|]). rewrite decide_True by reflexivity.
    simpl. unfold deferredCalls. rewrite !decide_True by lia. simpl.
    unfold pointOf. rewrite Hcs. phases. rewrite Hcp. auto.
  - apply handleTarget_passing; try assumption. rewrite I2, Ht. eauto.
Qed.

(** * The properties above on concrete runs *)

(** T1 fails at the first of two steps: the loop decrements step 0, the
    deferred function step 1. *)
Lemma handleTarget_decrements_once_witness :
  decreased (out_calls (handleTarget jsonExternals twoSteps (λ _, failing) freshT1))
  = [0; 1].
Proof.
  apply (handleTarget_decrements_once jsonExternals twoSteps (λ _, failing) freshT1 None).
  vm_compute; reflexivity.
Defined.

Lemma handleTarget_failure_is_result_witness :
  let o := handleTarget jsonExternals twoSteps (λ _, failing) freshT1 in
  out_ret o = Returned None
  ∧ CurPhase (out_tgs o) = targetStepPhaseEnd
  ∧ await (failing) = GotResult (Some (ErrorString "target failed")).
Proof.
  cbn zeta.
  apply (handleTarget_failure_is_result jsonExternals twoSteps (λ _, failing) freshT1
           (ErrorString "target failed")).
  - reflexivity.
  - vm_compute; reflexivity.
Defined.

(** The step stops under T1 with an error: T1 stays in phase run, without
    result. *)
Lemma handleTarget_error_keeps_target_witness :
  let s := out_tgs (handleTarget jsonExternals twoSteps (λ _, crashing) freshT1) in
  Res s = None ∧ CurPhase s = targetStepPhaseRun.
Proof.
  cbn zeta.
  destruct (handleTarget_error_keeps_target jsonExternals twoSteps (λ _, crashing)
              freshT1 (ErrorString "step Step1 paniced")) as [H1 H2].
  - vm_compute; reflexivity.
  - split; [exact H1 | vm_compute; reflexivity].
Defined.

(** T1 waits for its result at a step that holds a fatal error: the run
    cannot be resumed. *)
Lemma examine_resumeOk_witness :
  ∃ a', examine (quietWorld ["T1"]) [brokenStep] [T1] waitingT1 = Returned (inr a')
        ∧ ex_resumeOk a'
          = ex_resumeOk waitingT1
            && forallb (λ t, allowsResume [brokenStep] (ex_states a' !! ID t)) [T1]
        ∧ ex_resumeOk a' = false.
Proof.
  eexists. split; [vm_compute; reflexivity|]. split; [|vm_compute; reflexivity].
  apply (examine_resumeOk (quietWorld ["T1"]) [brokenStep] [T1] waitingT1).
  vm_compute; reflexivity.
Defined.

Lemma examine_refreshes_variables_witness :
  ∃ a', examine (quietWorld ["T1"]) [brokenStep] [T1] waitingT1 = Returned (inr a')
        ∧ ∃ s, ex_states a' !! "T1" = Some s ∧ StepsVariables s = ∅.
Proof.
  eexists. split; [vm_compute; reflexivity|].
  destruct (examine_refreshes_variables (quietWorld ["T1"]) [brokenStep] [T1] waitingT1
              _ ltac:(vm_compute; reflexivity)) as (H & _).
  apply (H T1). left.
Defined.

(** T1 is in the snapshot, in phase init at step 0, with a nil pointer:
    seeding sets the pointer and nothing else. *)
Lemma seedTargets_restores_witness :
  ∃ t', t' ∈ [T1] ∧ ID t' = "T1"
        ∧ seedTargets [T1] {[ "T1" := Some (decodedState targetStepPhaseInit) ]} !! "T1"
          = Some (Some (set_tgt (Some t') (decodedState targetStepPhaseInit))).
Proof.
  destruct (seedTargets_restores [T1]
              {[ "T1" := Some (decodedState targetStepPhaseInit) ]} T1)
    as (t' & Ht' & Hid & Hs); [left|].
  exists t'. split; [exact Ht'|]. split; [exact Hid|].
  etransitivity; [exact Hs|]. simpl. rewrite lookup_singleton_eq. reflexivity.
Defined.

Lemma Run_without_targets_blocks_witness :
  Run jsonExternals (quietWorld []) NewTestRunner [Step1] [] "" = Blocked.
Proof.
  apply (Run_without_targets_blocks jsonExternals (quietWorld []) NewTestRunner
           [Step1] "" (mkResumeState 0 ∅ [])); reflexivity.
Defined.

(** Scenario of the pause before T1 is picked up. *)
Lemma Run_paused_snapshot_witness :
  ∃ r, Run jsonExternals pausedWorld NewTestRunner [Step1] [T1] "" = Returned r
       ∧ ctxPaused pausedWorld = true
       ∧ is_Some (ret_targetsResults r)
       ∧ ∃ rs, json_Marshal jsonExternals rs = inr (ret_resumeState r)
               ∧ Version rs = resumeStateStructVersion
               ∧ length (StepResumeState rs) = length (ret_steps r)
               ∧ ∀ t, t ∈ [T1] → ∃ s, Targets rs !! ID t = Some (Some s).
Proof.
  eexists. split; [vm_compute; reflexivity|].
  apply (Run_paused_snapshot jsonExternals pausedWorld NewTestRunner [Step1] [T1] "").
  - vm_compute; reflexivity.
  - reflexivity.
Defined.

Lemma handleTarget_nil_return_witness :
  let o := handleTarget jsonExternals twoSteps pausedAtSecond freshT1 in
  is_Some (Res (out_tgs o))
  ∨ early (pausedAtSecond (CurStep (out_tgs o))) ≠ EarlyNone
  ∨ (CurStep (out_tgs o) = len twoSteps - 1
     ∧ (CurPhase (out_tgs o) = targetStepPhaseEnd
        ∨ (CurPhase (out_tgs o) = targetStepPhaseRun
           ∧ await (pausedAtSecond (len twoSteps - 1)) = StepStopped None))).
Proof.
  cbn zeta.
  apply (handleTarget_nil_return jsonExternals twoSteps pausedAtSecond freshT1).
  - reflexivity.
  - discriminate.
  - vm_compute; reflexivity.
Defined.

Lemma Run_leftTargets_balance_witness :
  leftTargets (newStepState 1 1 (mkBundle "Step2") "" [])
  = decrementsAt 1
      (spawnHandlers jsonExternals (quietWorld ["T1"]) twoSteps {[ "T1" := freshT1 ]}).
Proof.
  apply (Run_leftTargets_balance jsonExternals (quietWorld ["T1"])
           (mkResumeState 0 ∅ []) {[ "T1" := freshT1 ]}
           [Step1; mkBundle "Step2"] twoSteps 1).
  - vm_compute; reflexivity.
  - intros id o. rewrite spawnHandlers_lookup.
    destruct (decide (id = "T1")) as [->|Hne].
    + rewrite lookup_singleton_eq. intros [= <-]. eexists. vm_compute; reflexivity.
    + rewrite lookup_singleton_ne by congruence. discriminate.
  - reflexivity.
Defined.

Lemma Run_all_pass_witness :
  ∃ r m, Run jsonExternals (quietWorld ["T1"; "T2"]) NewTestRunner
           [Step1; mkBundle "Step2"] [T1; T2] "" = Returned r
         ∧ ret_err r = None
         ∧ ret_resumeState r = nilRaw
         ∧ ret_targetsResults r = Some m
         ∧ ∀ id, m !! id = if decide (id ∈ (ID <$> [T1; T2])) then Some None else None.
Proof.
  apply (Run_all_pass jsonExternals (quietWorld ["T1"; "T2"])
           [Step1; mkBundle "Step2"] [T1; T2]).
  - discriminate.
  - discriminate.
  - reflexivity.
  - reflexivity.
  - intros t i _. repeat split.
  - intros e He. simpl in He.
    apply elem_of_cons in He as [He|He]; [discriminate|].
    apply list_elem_of_singleton in He. discriminate.
  - intros k. split; reflexivity.
  - reflexivity.
  - reflexivity.
  - reflexivity.
Defined.

(** Scenario of the step that panics under T2: the error the monitor got
    from the step is the one [Run] goes on with. *)
Lemma supervise_error_precedence_witness :
  ∃ states1 trsteps2 srs,
    supervise jsonExternals crashWorld [newStepState 0 2 Step1 "" []]
      {[ "T1" := freshT1; "T2" := set_tgt (Some T2) newTargetState ]}
    = Returned (states1, trsteps2, srs, Some (ErrorString "step Step1 paniced")).
Proof.
  pose proof (supervise_error_precedence jsonExternals crashWorld
                [newStepState 0 2 Step1 "" []]
                {[ "T1" := freshT1; "T2" := set_tgt (Some T2) newTargetState ]}) as H.
  destruct (supervise jsonExternals crashWorld _ _) as [[[[s1 t2] srs] runErr]| |] eqn:Hs;
    [|vm_compute in Hs; discriminate..].
  rewrite (H s1 t2 srs runErr eq_refl).
  exists s1, t2, srs. vm_compute. reflexivity.
Defined.

Lemma handleTarget_negative_CurStep_witness :
  ∃ m, out_ret (handleTarget jsonExternals twoSteps (λ _, passing)
                  (set_CurStep (-1) freshT1)) = Panic m.
Proof.
  apply (handleTarget_negative_CurStep jsonExternals twoSteps (λ _, passing)
           (set_CurStep (-1) freshT1)).
  reflexivity.
Defined.

Lemma targetStepPhase_String_inj_witness :
  targetStepPhase_String 7 = "???(7)" ∧ 7 = 3 + 4.
Proof.
  split; [reflexivity|].
  apply (targetStepPhase_String_inj 7 (3 + 4)). reflexivity.
Defined.

(** T1 is stopped by the pause at the head of the second step, and a
    second handler takes it to the end. *)
Lemma handleTarget_resume_completes_witness :
  let o1 := handleTarget jsonExternals twoSteps pausedAtSecond freshT1 in
  let o2 := handleTarget jsonExternals twoSteps (λ _, passing) (out_tgs o1) in
  pointOf (out_tgs o1) = (1, targetStepPhaseInit)
  ∧ out_ret o1 = Returned None
  ∧ out_ret o2 = Returned None
  ∧ pointOf (out_tgs o2) = (len twoSteps - 1, targetStepPhaseEnd)
  ∧ Res (out_tgs o2) = None.
Proof.
  cbn zeta. split; [vm_compute; reflexivity|].
  apply (handleTarget_resume_completes jsonExternals twoSteps pausedAtSecond
           (λ _, passing) freshT1).
  - simpl. eauto.
  - vm_compute. split; [discriminate | reflexivity].
  - left. reflexivity.
  - reflexivity.
  - intros i. repeat split.
  - intros i. repeat split.
Defined.

(** * The writes of a handler, one by one *)

Section Chains.
Variable R : point → point → Prop.




End Chains.




Section HandlerWrites.
Variable X : externals.
Variable trsteps : list stepState.
Variable sc : Z → iteration.





End HandlerWrites.



